(** * SynapseFlow: neuron models and spike-train utilities

    A shallow embedding of [synapseflow/neuron_models] (parameters, the
    base / LIF / AELIF model classes, [expand_bins], [STA],
    [find_fano_factor]) and the properties of the specification checked
    against it.

    Python objects that are mutated in place (the numpy arrays held by a
    model) live in a store indexed by references; scalar attributes of a
    model are fields of a record that [simulate] threads through.
    Python exceptions are values of type [exn]. *)

From Stdlib Require Import ZArith Reals Lra Floats List Lia Bool String.
From stdpp Require Import base option list gmap.

(** ** Python exceptions and fallible computations *)

Inductive exn : Type :=
  | NotImplementedError
  | ZeroDivisionError
  | IndexError
  | ValueError
  | OverflowError
  | TypeError
  | AttributeError
  | DanglingReference. (* a reference outside the store; no Python run reaches it *)

Inductive res (A : Type) : Type :=
  | Ok (a : A)
  | Raise (e : exn).
Arguments Ok {A} a.
Arguments Raise {A} e.

Definition bind {A B : Type} (m : res A) (f : A → res B) : res B :=
  match m with
  | Ok a => f a
  | Raise e => Raise e
  end.

Notation "'let!' x := m 'in' k" := (bind m (fun x => k))
  (at level 10, x pattern, m at level 100, k at level 200,
   format "'[v' 'let!'  x  :=  m  'in' '/' k ']'").

Definition is_Ok {A} (r : res A) : Prop := ∃ a, r = Ok a.

(** An optional parameter left at [None] is a TypeError where the code
    computes with it. *)
Definition require {A} (o : option A) : res A :=
  match o with
  | Some x => Ok x
  | None => Raise TypeError
  end.

(** ** Arithmetic

    The code computes on numpy / Python floats.  The model is written
    once over an interface of the operations it uses and instantiated
    with IEEE 754 binary64 (what the program runs on) and with the real
    numbers (rounding-free arithmetic). *)

Class Arith (F : Type) : Type := {
  f0 : F;                       (* 0.0 *)
  f1 : F;                       (* 1.0 *)
  fadd : F → F → F;
  fsub : F → F → F;
  fmul : F → F → F;
  fdiv : F → F → F;             (* numpy scalar division: never raises *)
  fltb : F → F → bool;          (* x < y *)
  fleb : F → F → bool;          (* x <= y *)
  feqb : F → F → bool;          (* x == y *)
  fsqrt : F → F;                (* np.sqrt *)
  of_count : nat → F;           (* a length or count converted to a float *)
  py_int : F → res Z;           (* int(x): truncation towards zero *)
}.

Declare Scope arith_scope.
Delimit Scope arith_scope with A.
Infix "+" := fadd : arith_scope.
Infix "-" := fsub : arith_scope.
Infix "*" := fmul : arith_scope.
Infix "/" := fdiv : arith_scope.
Notation "x >? y" := (fltb y x) : arith_scope.
Notation "x >=? y" := (fleb y x) : arith_scope.
Notation "x =? y" := (feqb x y) : arith_scope.

(** Division of two Python floats raises on a zero divisor. *)
Definition py_div `{Arith F} (x y : F) : res F :=
  if (y =? f0)%A then Raise ZeroDivisionError else Ok (x / y)%A.

(** *** binary64 *)

Module Binary64.

(** [int(x)] on a binary64 value, read off its sign, mantissa and
    exponent. *)
Definition to_int (x : float) : res Z :=
  match Prim2SF x with
  | S754_zero _ => Ok 0%Z
  | S754_nan => Raise ValueError
  | S754_infinity _ => Raise OverflowError
  | S754_finite s m e =>
      let mag := match e with
                 | Z0 => Zpos m
                 | Zpos k => Z.shiftl (Zpos m) e
                 | Zneg k => Z.shiftr (Zpos m) (Zpos k)
                 end in
      Ok (if s then (- mag)%Z else mag)
  end.

(** Neither zero, nor infinite, nor NaN. *)
Definition finite_nonzero (x : float) : bool :=
  match Prim2SF x with
  | S754_finite _ _ _ => true
  | _ => false
  end.

(** Neither infinite nor NaN: what [np.random.normal] returns. *)
Definition finite (x : float) : bool :=
  match Prim2SF x with
  | S754_finite _ _ _ | S754_zero _ => true
  | _ => false
  end.

(** Equal as numbers: identical, or zeros that differ in sign at most. *)
Definition same_value (x y : float) : Prop :=
  x = y ∨ ∃ s s', Prim2SF x = S754_zero s ∧ Prim2SF y = S754_zero s'.

#[global] Instance arith : Arith float := {|
  f0 := PrimFloat.zero;
  f1 := PrimFloat.one;
  fadd := PrimFloat.add;
  fsub := PrimFloat.sub;
  fmul := PrimFloat.mul;
  fdiv := PrimFloat.div;
  fltb := PrimFloat.ltb;
  fleb := PrimFloat.leb;
  feqb := PrimFloat.eqb;
  fsqrt := PrimFloat.sqrt;
  of_count := fun n => PrimFloat.of_uint63 (Uint63.of_Z (Z.of_nat n));
  py_int := to_int;
|}.

End Binary64.

(** *** Real numbers *)

Module Exact.

Definition ltb (x y : R) : bool := if Rlt_dec x y then true else false.
Definition leb (x y : R) : bool := if Rle_dec x y then true else false.
Definition eqb (x y : R) : bool := if Req_dec_T x y then true else false.

Definition to_int (x : R) : res Z :=
  Ok (if Rle_dec 0 x then Int_part x else (- Int_part (- x))%Z).

#[global] Instance arith : Arith R := {|
  f0 := 0%R;
  f1 := 1%R;
  fadd := Rplus;
  fsub := Rminus;
  fmul := Rmult;
  fdiv := Rdiv;
  fltb := ltb;
  fleb := leb;
  feqb := eqb;
  fsqrt := R_sqrt.sqrt;
  of_count := INR;
  py_int := to_int;
|}.

End Exact.

(** ** The store of numpy arrays

    A numpy array is a mutable object: a model holds references to its
    arrays, and two references may name the same array. *)

Definition loc := positive.

Section Store.
Context {F : Type}.

Definition arr_len (h : gmap loc (list F)) (l : loc) : res nat :=
  match h !! l with
  | Some arr => Ok (length arr)
  | None => Raise DanglingReference
  end.

(** [arr[i]] for [i >= 0]; numpy raises IndexError out of range. *)
Definition arr_get (h : gmap loc (list F)) (l : loc) (i : nat) : res F :=
  match h !! l with
  | Some arr =>
      match arr !! i with
      | Some x => Ok x
      | None => Raise IndexError
      end
  | None => Raise DanglingReference
  end.

(** [arr[i] = x] for [i >= 0]. *)
Definition arr_set (h : gmap loc (list F)) (l : loc) (i : nat) (x : F)
  : res (gmap loc (list F)) :=
  match h !! l with
  | Some arr =>
      if decide (i < length arr)%nat
      then Ok (<[l := <[i := x]> arr]> h)
      else Raise IndexError
  | None => Raise DanglingReference
  end.

(** A newly created array gets a reference no live array has. *)
Definition alloc (arr : list F) (h : gmap loc (list F))
  : loc * gmap loc (list F) :=
  let l := fresh (dom h) in (l, <[l := arr]> h).

(** What a run can observe besides its return value: the arrays and
    the lines written by [print] (each line is the time it names). *)
Record world : Type := World {
  heap : gmap loc (list F);
  stdout : list F;
}.

Definition set_heap (w : world) (h : gmap loc (list F)) : world :=
  {| heap := h; stdout := stdout w |}.

Definition print (w : world) (x : F) : world :=
  {| heap := heap w; stdout := stdout w ++ [x] |}.

(** [for i in range(lo, hi): body], stopping at the first exception. *)
Definition for_range {S : Type} (lo hi : nat) (body : nat → S → res S)
    (s : S) : res S :=
  fold_left (λ acc i, bind acc (body i)) (seq lo (hi - lo)) (Ok s).

End Store.
Arguments world F : clear implicits.

(** ** neuron_parameters.py *)

Section Parameters.
Context `{Arith F}.
Local Open Scope arith_scope.

Record NeuronParameters : Type := {
  C_m : F;
  E_L : F;
  E_K : F;
  R_m : F;
  V_th : F;
  V_reset : F;
  V_peak : option F;
  tau_vc : option F;
  tau_vth : option F;
  V_th_max : option F;
  tau_G_ref : option F;
  G_SRA : option F;
  Delta_G_SRA : option F;
  tau_SRA : option F;
  V_max : option F;
  Delta_th : option F;
  a : option F;
  b : option F;
  (* set by __post_init__ *)
  G_L : F;
  tau_m : F;
  I_th : F;
}.

(** The dataclass constructor: the generated [__init__] stores the
    eighteen declared fields, then [__post_init__] computes the three
    derived ones with Python float arithmetic. *)
Definition NeuronParameters_init
    (C_m E_L E_K R_m V_th V_reset : F)
    (V_peak tau_vc tau_vth V_th_max tau_G_ref G_SRA Delta_G_SRA
     tau_SRA V_max Delta_th a b : option F) : res NeuronParameters :=
  let! G_L := py_div f1 R_m in
  let! tau_m := py_div C_m G_L in
  let I_th := G_L * (V_th - E_L) in
  Ok {| C_m := C_m; E_L := E_L; E_K := E_K; R_m := R_m; V_th := V_th;
        V_reset := V_reset; V_peak := V_peak; tau_vc := tau_vc;
        tau_vth := tau_vth; V_th_max := V_th_max; tau_G_ref := tau_G_ref;
        G_SRA := G_SRA; Delta_G_SRA := Delta_G_SRA; tau_SRA := tau_SRA;
        V_max := V_max; Delta_th := Delta_th; a := a; b := b;
        G_L := G_L; tau_m := tau_m; I_th := I_th |}.

End Parameters.
Arguments NeuronParameters F : clear implicits.

(** ** base_model.py and lif_model.py *)

Section Models.
Context `{Arith F}.
Local Open Scope arith_scope.

(** *** BaseNeuronModel *)

Record BaseNeuronModel : Type := {
  neuron_parameters : NeuronParameters F;
  times : loc;
  I : loc;
  V : loc;
  dt : F;
  num_fire : Z;
}.

Definition set_num_fire (m : BaseNeuronModel) (n : Z) : BaseNeuronModel :=
  {| neuron_parameters := neuron_parameters m; times := times m; I := I m;
     V := V m; dt := dt m; num_fire := n |}.

(** The generated [__init__] followed by [__post_init__]. *)
Definition BaseNeuronModel_init (p : NeuronParameters F) (times I : loc)
    (h : gmap loc (list F)) : res (BaseNeuronModel * gmap loc (list F)) :=
  let! n := arr_len h times in
  let '(v, h) := alloc (replicate n f0) h in          (* np.zeros_like(times) *)
  let! h := arr_set h v 0 (E_L p) in
  let! t1 := arr_get h times 1 in
  let! t0 := arr_get h times 0 in
  Ok ({| neuron_parameters := p; times := times; I := I; V := v;
         dt := t1 - t0; num_fire := 0 |}, h).

Definition BaseNeuronModel_dVdt (self : BaseNeuronModel) (step : nat) : res F :=
  Raise NotImplementedError.

Definition BaseNeuronModel_simulate (self : BaseNeuronModel) (w : world F)
  : res (BaseNeuronModel * world F) :=
  Raise NotImplementedError.

Definition fire_rate (self : BaseNeuronModel) (h : gmap loc (list F)) : res F :=
  let! n := arr_len h (times self) in
  let! t_last := arr_get h (times self) (n - 1) in
  let! t0 := arr_get h (times self) 0 in
  Ok (of_count (Z.to_nat (num_fire self)) / (t_last - t0)).

(** *** LIFModel *)

Record LIFModel : Type := {
  LIF_base :> BaseNeuronModel;
  noise_sigma : F;
  noises : option loc;          (* [None]: the attribute is not an ndarray *)
  last_fire_time : option F;    (* [None]: the attribute is not set yet *)
}.

(** [normal k] is the [k]-th sample that [np.random.normal] returns
    for this call. *)
Definition LIFModel_init (p : NeuronParameters F) (times I : loc)
    (noise_sigma : F) (normal : nat → F) (h : gmap loc (list F))
  : res (LIFModel * gmap loc (list F)) :=
  let! (base, h) := BaseNeuronModel_init p times I h in
  let! n := arr_len h times in
  let samples := map normal (seq 0 n) in
  let '(ns, h) :=
    alloc (map (λ x, x * noise_sigma * fsqrt (dt base)) samples) h in
  Ok ({| LIF_base := base; noise_sigma := noise_sigma; noises := Some ns;
         last_fire_time := None |}, h).

Definition LIFModel_dvdt (self : LIFModel) (V_m I_app : F) : F :=
  let p := neuron_parameters self in
  let _dvdt := (E_L p - V_m) / R_m p + I_app in
  let _dvdt := _dvdt / C_m p in
  _dvdt.

Definition LIFModel_fire (self : LIFModel) (t : F) : LIFModel :=
  {| LIF_base := set_num_fire self (num_fire self + 1);
     noise_sigma := noise_sigma self; noises := noises self;
     last_fire_time := Some t |}.

(** One iteration of the loop of [simulate]. *)
Definition LIFModel_step (i : nat) (st : LIFModel * world F)
  : res (LIFModel * world F) :=
  let '(self, w) := st in
  let p := neuron_parameters self in
  let! v := arr_get (heap w) (V self) (i - 1) in
  let! v' := arr_get (heap w) (V self) (i - 1) in
  let! c := arr_get (heap w) (I self) (i - 1) in
  let V_new := v + LIFModel_dvdt self v' c * dt self in
  let! V_new :=
      match noises self return res F with
      | Some ns => let! n := arr_get (heap w) ns i in Ok (V_new + n)
      | None => Ok V_new
      end in
  let! (V_new, self, w) :=
      (if V_new >? V_th p return res (F * LIFModel * world F) then
         let! t := arr_get (heap w) (times self) i in
         Ok (V_reset p, LIFModel_fire self t, print w t)
       else Ok (V_new, self, w)) in
  let! h := arr_set (heap w) (V self) i V_new in
  Ok (self, set_heap w h).

Definition LIFModel_simulate (self : LIFModel) (w : world F)
  : res (LIFModel * world F) :=
  let! n := arr_len (heap w) (times self) in
  for_range 1 n LIFModel_step (self, w).

(** *** AELIFModel

    [np_exp] is numpy's exponential and [neg_inf] is [-np.inf]. *)

Variable np_exp : F → F.
Variable neg_inf : F.

Record AELIFModel : Type := {
  AELIF_base :> LIFModel;
  I_SRA_array : loc;
  last_spike_time : F;
  isi_array : list F;
  spike_array : loc;
}.

(** [isi_array] is a constructor argument with default [[]]. *)
Definition AELIFModel_init (p : NeuronParameters F) (times I : loc)
    (noise_sigma : F) (isi_array : option (list F)) (normal : nat → F)
    (h : gmap loc (list F)) : res (AELIFModel * gmap loc (list F)) :=
  let! (lif, h) := LIFModel_init p times I noise_sigma normal h in
  let! n := arr_len h times in
  let '(sra, h) := alloc (replicate n f0) h in
  let '(spk, h) := alloc (replicate n f0) h in
  Ok ({| AELIF_base := lif; I_SRA_array := sra; last_spike_time := neg_inf;
         isi_array := default [] isi_array; spike_array := spk |}, h).

Definition AELIFModel_dI_SRA_dt (self : AELIFModel) (V_m I_SRA : F) : res F :=
  let p := neuron_parameters self in
  let! a := require (a p) in
  let _dI_SRA_dt := a * (V_m - E_L p) - I_SRA in
  let! tau_SRA := require (tau_SRA p) in
  Ok (_dI_SRA_dt / tau_SRA).

Definition AELIFModel_dvdt (self : AELIFModel) (V_m I_app I_SRA : F) : res F :=
  let p := neuron_parameters self in
  let! Delta_th := require (Delta_th p) in
  let exp_term := Delta_th * np_exp ((V_m - V_th p) / Delta_th) in
  let _dv_dt := G_L p * (E_L p - V_m + exp_term) - I_SRA + I_app in
  Ok (_dv_dt / C_m p).

Definition AELIFModel_fire (self : AELIFModel) (t : F) : AELIFModel :=
  {| AELIF_base :=
       {| LIF_base := set_num_fire self (num_fire self + 1);
          noise_sigma := noise_sigma self; noises := noises self;
          last_fire_time := last_fire_time self |};
     I_SRA_array := I_SRA_array self;
     last_spike_time := t;
     isi_array := isi_array self ++ [t - last_spike_time self];
     spike_array := spike_array self |}.

(** One iteration of the loop of [simulate]. *)
Definition AELIFModel_step (i : nat) (st : AELIFModel * world F)
  : res (AELIFModel * world F) :=
  let '(self, w) := st in
  let p := neuron_parameters self in
  let h := heap w in
  (* self.V[i] = self.V[i-1] + self.dt * self.dvdt(...) *)
  let! v := arr_get h (V self) (i - 1) in
  let! v' := arr_get h (V self) (i - 1) in
  let! c := arr_get h (I self) (i - 1) in
  let! s := arr_get h (I_SRA_array self) (i - 1) in
  let! dv := AELIFModel_dvdt self v' c s in
  let! h := arr_set h (V self) i (v + dt self * dv) in
  (* self.I_SRA_array[i] = self.I_SRA_array[i-1] + self.dt * self.dI_SRA_dt(...) *)
  let! s := arr_get h (I_SRA_array self) (i - 1) in
  let! v' := arr_get h (V self) (i - 1) in
  let! s' := arr_get h (I_SRA_array self) (i - 1) in
  let! ds := AELIFModel_dI_SRA_dt self v' s' in
  let! h := arr_set h (I_SRA_array self) i (s + dt self * ds) in
  (* if self.V[i] >= self.neuron_parameters.V_max: *)
  let! vi := arr_get h (V self) i in
  let! V_max := require (V_max p) in
  if vi >=? V_max then
    let! h := arr_set h (V self) i (V_reset p) in
    let! si := arr_get h (I_SRA_array self) i in
    let! b := require (b p) in
    let! h := arr_set h (I_SRA_array self) i (si + b) in
    let! t := arr_get h (times self) i in
    let! h := arr_set h (spike_array self) i f1 in
    Ok (AELIFModel_fire self t, set_heap w h)
  else
    Ok (self, set_heap w h).

Definition AELIFModel_simulate (self : AELIFModel) (w : world F)
  : res (AELIFModel * world F) :=
  let! n := arr_len (heap w) (times self) in
  for_range 1 n AELIFModel_step (self, w).

End Models.
Arguments BaseNeuronModel F : clear implicits.
Arguments LIFModel F : clear implicits.
Arguments AELIFModel F : clear implicits.

(** *** Method lookup along the class hierarchy *)

Inductive class : Type := BaseNeuronModel_cls | LIFModel_cls | AELIFModel_cls.

Definition bases (c : class) : option class :=
  match c with
  | BaseNeuronModel_cls => None
  | LIFModel_cls => Some BaseNeuronModel_cls
  | AELIFModel_cls => Some LIFModel_cls
  end.

(** The names each class body defines. *)
Definition defines (c : class) : list string :=
  match c with
  | BaseNeuronModel_cls => ["__post_init__"; "fire_rate"; "dVdt"; "simulate"]
  | LIFModel_cls => ["__post_init__"; "dvdt"; "simulate"]
  | AELIFModel_cls => ["__post_init__"; "dI_SRA_dt"; "dvdt"; "simulate"]
  end%string.

(** The class and its ancestors, nearest first (single inheritance). *)
Fixpoint ancestry (depth : nat) (c : class) : list class :=
  match depth with
  | O => []
  | S depth' =>
      c :: match bases c with
           | Some parent => ancestry depth' parent
           | None => []
           end
  end.

Definition mro (c : class) : list class := ancestry 3 c.

(** The class whose definition of [name] an instance of [c] runs. *)
Definition resolve (c : class) (name : string) : option class :=
  find (λ k, existsb (String.eqb name) (defines k)) (mro c).

Section Dispatch.
Context `{Arith F}.
Variable np_exp : F → F.

Inductive instance : Type :=
  | Base_obj (m : BaseNeuronModel F)
  | LIF_obj (m : LIFModel F)
  | AELIF_obj (m : AELIFModel F).

Definition class_of (o : instance) : class :=
  match o with
  | Base_obj _ => BaseNeuronModel_cls
  | LIF_obj _ => LIFModel_cls
  | AELIF_obj _ => AELIFModel_cls
  end.

Definition as_base (o : instance) : BaseNeuronModel F :=
  match o with
  | Base_obj m => m
  | LIF_obj m => m
  | AELIF_obj m => m
  end.

(** [obj.dVdt(step)]: only the base class defines a method of that
    name. *)
Definition call_dVdt (o : instance) (step : nat) : res F :=
  match resolve (class_of o) "dVdt" with
  | Some BaseNeuronModel_cls => BaseNeuronModel_dVdt (as_base o) step
  | _ => Raise AttributeError
  end.

(** [obj.simulate()]. *)
Definition call_simulate (o : instance) (w : world F)
  : res (instance * world F) :=
  match resolve (class_of o) "simulate", o with
  | Some BaseNeuronModel_cls, _ =>
      let! (m, w) := BaseNeuronModel_simulate (as_base o) w in
      Ok (Base_obj m, w)
  | Some LIFModel_cls, LIF_obj m =>
      let! (m, w) := LIFModel_simulate m w in Ok (LIF_obj m, w)
  | Some AELIFModel_cls, AELIF_obj m =>
      let! (m, w) := AELIFModel_simulate np_exp m w in Ok (AELIF_obj m, w)
  | _, _ => Raise AttributeError
  end.

End Dispatch.
Arguments instance F : clear implicits.

(** ** utils.py *)

Section Utils.
Context `{Arith F}.
Local Open Scope arith_scope.

(** [n % d] on Python ints. *)
Definition py_mod (n d : Z) : res Z :=
  if (d =? 0)%Z then Raise ZeroDivisionError else Ok (n mod d)%Z.

(** [count] consecutive slices of [size] elements each. *)
Fixpoint sections (size count : nat) (arr : list F) : list (list F) :=
  match count with
  | O => []
  | S count' => take size arr :: sections size count' (drop size arr)
  end.

(** [np.split(arr, n, axis=0)] for an integer [n]: an equal division
    or an error. *)
Definition np_split (arr : list F) (n : Z) : res (list (list F)) :=
  let! r := py_mod (Z.of_nat (length arr)) n in
  if negb (r =? 0)%Z then Raise ValueError
  else if (n <=? 0)%Z then Raise ValueError
  else Ok (sections (length arr / Z.to_nat n) (Z.to_nat n) arr).

(** [np.sum] of a one-dimensional array of floats: numpy starts the
    accumulator at +0.0 (the sum of [[-0.0]] is +0.0); the entries are
    added here in index order. *)
Definition np_sum (l : list F) : F := fold_left fadd l f0.

(** [np.mean] of a one-dimensional array. *)
Definition np_mean (l : list F) : F := np_sum l / of_count (length l).

(** [np.var] of a one-dimensional array. *)
Definition np_var (l : list F) : F :=
  let m := np_mean l in
  np_mean (map (λ x, (x - m) * (x - m)) l).

(** Column [j] of a two-dimensional array given by its rows. *)
Definition column (rows : list (list F)) (j : nat) : list F :=
  omap (λ row, row !! j) rows.

(** [np.mean(rows, axis=0)]: one value per column. *)
Definition np_mean_axis0 (rows : list (list F)) : list F :=
  match rows with
  | [] => []
  | row :: _ => map (λ j, np_mean (column rows j)) (seq 0 (length row))
  end.

(** [np.sum(rows, axis=1)]: one value per row. *)
Definition np_sum_axis1 (rows : list (list F)) : list F := map np_sum rows.

Definition expand_bins (spike_array : list F) (new_dt old_dt : F)
  : res (list F) :=
  let! q := py_div new_dt old_dt in
  let! sf := py_int q in
  let! spike_array := np_split spike_array sf in
  Ok (np_mean_axis0 spike_array).

Definition find_fano_factor (time_range : F) (spike_locations : list F)
    (dt : F) : res (option F) :=
  let! q := py_div time_range dt in
  let! num_steps_per_window := py_int q in
  let! r := py_mod (Z.of_nat (length spike_locations)) num_steps_per_window in
  if negb (r =? 0)%Z then Ok None
  else
    let! spike_windows := np_split spike_locations num_steps_per_window in
    let spike_counts := np_sum_axis1 spike_windows in
    let fano_factor := np_var spike_counts / np_mean spike_counts in
    Ok (Some fano_factor).

End Utils.

(** ** utils.py: [STA]

    The accumulator [sta] is a local array of shape (t_minus + t_plus, 1),
    updated in place. *)

Section SpikeTriggeredAverage.
Context `{Arith F}.
Local Open Scope arith_scope.

(** The shapes of [currents] under which the additions of [STA] can
    succeed: a one-dimensional array (n,) or a column (n, 1). *)
Inductive axes : Type := Flat | Column.

(** [arr[lo:hi]] along the first axis, with the bounds clipped as
    Python clips those of a slice. *)
Definition py_slice (lo hi : Z) (arr : list F) : list F :=
  let n := Z.of_nat (length arr) in
  let clip (k : Z) := if (k <? 0)%Z then Z.max (k + n) 0 else Z.min k n in
  take (Z.to_nat (clip hi - clip lo)) (drop (Z.to_nat (clip lo)) arr).

(** [np.zeros((n, 1))]. *)
Definition np_zeros_column (n : Z) : res (list F) :=
  if (n <? 0)%Z then Raise ValueError else Ok (replicate (Z.to_nat n) f0).

(** [target += src] for a [target] of shape (a, 1) and a [src] of [b]
    rows: numpy broadcasts [src] to the shape of [target] and refuses
    to grow [target]. *)
Definition iadd (shape : axes) (target src : list F) : res (list F) :=
  match src, shape with
  | [x], _ => Ok (map (λ t, t + x) target)
  | _, Column =>
      if decide (length src = length target)
      then Ok (zip_with fadd target src)
      else Raise ValueError
  | _, Flat => Raise ValueError
  end.

(** One iteration of the loop of [STA]. *)
Definition STA_step (shape : axes) (currents spike_array : list F)
    (t_minus t_plus : Z) (i : nat) (sta : list F) : res (list F) :=
  let! x := match spike_array !! i with
            | Some x => Ok x
            | None => Raise IndexError
            end in
  if x =? f1 then
    if (Z.of_nat i - t_minus <? 0)%Z then
      (* sta[0:i] += currents[0:i] *)
      let view := py_slice 0 (Z.of_nat i) sta in
      let! view' := iadd shape view (py_slice 0 (Z.of_nat i) currents) in
      Ok (view' ++ drop (length view) sta)
    else
      (* sta += currents[i-t_minus:i+t_plus] *)
      iadd shape sta
        (py_slice (Z.of_nat i - t_minus) (Z.of_nat i + t_plus) currents)
  else Ok sta.

Definition STA (shape : axes) (currents spike_array : list F)
    (dt t_minus t_plus : F) : res (list F) :=
  let! q := py_div t_minus dt in
  let! t_minus := py_int q in
  let! q := py_div t_plus dt in
  let! t_plus := py_int q in
  let! sta := np_zeros_column (t_minus + t_plus) in
  let! sta := for_range 0 (length spike_array)
                (STA_step shape currents spike_array t_minus t_plus) sta in
  Ok (map (λ x, x / np_sum spike_array) sta).

(** The steps below [k] at which [spike_array] holds a spike. *)
Definition spike_steps (spike_array : list F) (k : nat) : list nat :=
  List.filter (λ i, match spike_array !! i with
                    | Some x => x =? f1
                    | None => false
                    end) (seq 0 k).

(** What the spike at step [i] adds to bin [j], if anything. *)
Definition STA_term (currents : list F) (t_minus : Z) (i j : nat) : option F :=
  if (Z.of_nat i <? t_minus)%Z
  then (if (j <? i)%nat then currents !! j else None)
  else currents !! (Z.to_nat (Z.of_nat i - t_minus) + j)%nat.

(** Bin [j] after the spikes at [steps], added in this order. *)
Definition STA_bin (currents : list F) (t_minus : Z) (steps : list nat)
    (j : nat) : F :=
  fold_left (λ acc i, match STA_term currents t_minus i j with
                      | Some c => acc + c
                      | None => acc
                      end) steps f0.

End SpikeTriggeredAverage.

(** ** Vocabulary of the specification *)

Section LIFSpec.
Context `{Arith F}.
Local Open Scope arith_scope.

(** The value proposed for [V[i]]: the Euler step from [V[i-1]] and
    [I[i-1]], plus the noise term [noises[i]]. *)
Definition LIF_proposed (p : NeuronParameters F) (dt v c n : F) : F :=
  v + ((E_L p - v) / R_m p + c) / C_m p * dt + n.

(** The value stored: the reset potential when the proposed value is
    strictly above threshold. *)
Definition LIF_update (p : NeuronParameters F) (dt v c n : F) : F :=
  let x := LIF_proposed p dt v c n in
  if x >? V_th p then V_reset p else x.

(** The same, read at index [i] of a voltage trace [vs] with currents
    [cs] and noise [ns]. *)
Definition LIF_proposed_at (p : NeuronParameters F) (dt : F)
    (vs cs ns : list F) (i : nat) : option F :=
  v ← vs !! (i - 1)%nat; c ← cs !! (i - 1)%nat; n ← ns !! i;
  Some (LIF_proposed p dt v c n).

Definition LIF_fires_at (p : NeuronParameters F) (dt : F)
    (vs cs ns : list F) (i : nat) : bool :=
  match LIF_proposed_at p dt vs cs ns i with
  | Some x => x >? V_th p
  | None => false
  end.

(** What [V[i]] holds after step [i], from the trace itself. *)
Definition LIF_next_at (p : NeuronParameters F) (dt : F)
    (vs cs ns : list F) (i : nat) : option F :=
  x ← LIF_proposed_at p dt vs cs ns i;
  Some (if x >? V_th p then V_reset p else x).

(** The steps among [1..k] at which the model fires, in order. *)
Definition LIF_fire_steps (p : NeuronParameters F) (dt : F)
    (vs cs ns : list F) (k : nat) : list nat :=
  List.filter (LIF_fires_at p dt vs cs ns) (seq 1 k).

(** A LIF model whose arrays are in the store with the lengths the
    data model requires, the voltage trace being an array of its own. *)
Record LIF_state_ok (self : LIFModel F) (h : gmap loc (list F))
    (ts cs vs ns : list F) : Prop := {
  ok_times : h !! times self = Some ts;
  ok_I : h !! I self = Some cs;
  ok_V : h !! V self = Some vs;
  ok_noises : ∃ ln, noises self = Some ln ∧ h !! ln = Some ns ∧ V self ≠ ln;
  ok_len_I : length cs = length ts;
  ok_len_V : length vs = length ts;
  ok_len_noises : length ns = length ts;
  ok_V_times : V self ≠ times self;
  ok_V_I : V self ≠ I self;
}.

(** As [LIF_state_ok], without the requirement on the length of the
    input current. *)
Record LIF_layout (self : LIFModel F) (h : gmap loc (list F))
    (ts cs vs ns : list F) : Prop := {
  lay_times : h !! times self = Some ts;
  lay_I : h !! I self = Some cs;
  lay_V : h !! V self = Some vs;
  lay_noises : ∃ ln, noises self = Some ln ∧ h !! ln = Some ns ∧ V self ≠ ln;
  lay_len_V : length vs = length ts;
  lay_len_noises : length ns = length ts;
  lay_V_times : V self ≠ times self;
  lay_V_I : V self ≠ I self;
}.


End LIFSpec.

Section AELIFSpec.
Context `{Arith F}.
Variable np_exp : F → F.
Local Open Scope arith_scope.

(** The adaptation parameters an AELIF run computes with. *)
Record AELIF_params (p : NeuronParameters F) (D va vb tau vmax : F) : Prop := {
  has_Delta_th : Delta_th p = Some D;
  has_a : a p = Some va;
  has_b : b p = Some vb;
  has_tau_SRA : tau_SRA p = Some tau;
  has_V_max : V_max p = Some vmax;
}.

(** The Euler update of the voltage from [V[i-1]], [I[i-1]] and
    [I_SRA[i-1]], before any reset. *)
Definition AELIF_euler_V (p : NeuronParameters F) (D dt v c s : F) : F :=
  v + dt * ((G_L p * (E_L p - v + D * np_exp ((v - V_th p) / D)) - s + c) / C_m p).

(** The Euler update of the adaptation current, before any jump. *)
Definition AELIF_euler_SRA (p : NeuronParameters F) (va tau dt v s : F) : F :=
  s + dt * ((va * (v - E_L p) - s) / tau).

(** An AELIF model whose arrays are in the store with the lengths the
    data model requires, the three result arrays being arrays of their
    own. *)
Record AELIF_state_ok (self : AELIFModel F) (h : gmap loc (list F))
    (ts cs vs ss ks : list F) : Prop := {
  aok_times : h !! times self = Some ts;
  aok_I : h !! I self = Some cs;
  aok_V : h !! V self = Some vs;
  aok_SRA : h !! I_SRA_array self = Some ss;
  aok_spike : h !! spike_array self = Some ks;
  aok_len_I : length cs = length ts;
  aok_len_V : length vs = length ts;
  aok_len_SRA : length ss = length ts;
  aok_len_spike : length ks = length ts;
  aok_V_SRA : V self ≠ I_SRA_array self;
  aok_V_spike : V self ≠ spike_array self;
  aok_SRA_spike : I_SRA_array self ≠ spike_array self;
  aok_inputs : ∀ l, l = times self ∨ l = I self →
      l ≠ V self ∧ l ≠ I_SRA_array self ∧ l ≠ spike_array self;
}.

(** The arrays a run of [simulate] may write. *)
Definition AELIF_owned (self : AELIFModel F) (l : loc) : Prop :=
  l = V self ∨ l = I_SRA_array self ∨ l = spike_array self.

(** What a run of [simulate] leaves alone in the model object. *)
Record AELIF_same_config (self self' : AELIFModel F) : Prop := {
  same_parameters : neuron_parameters self' = neuron_parameters self;
  same_times : times self' = times self;
  same_I : I self' = I self;
  same_V : V self' = V self;
  same_dt : dt self' = dt self;
  same_noise_sigma : noise_sigma self' = noise_sigma self;
  same_noises : noises self' = noises self;
  same_last_fire_time : last_fire_time self' = last_fire_time self;
  same_SRA : I_SRA_array self' = I_SRA_array self;
  same_spike : spike_array self' = spike_array self;
}.

(** Step [i] as the final traces [vs], [ss], [ks] show it: the reset,
    the jump of the adaptation current and the spike mark go together,
    exactly when the Euler update of the voltage reaches [vmax];
    otherwise the spike array keeps what it held before the run
    ([ks0]). *)
Definition AELIF_step_at (p : NeuronParameters F) (D va vb tau vmax dt : F)
    (cs ks0 vs ss ks : list F) (i : nat) : Prop :=
  ∃ v c s,
    vs !! (i - 1)%nat = Some v ∧ cs !! (i - 1)%nat = Some c
    ∧ ss !! (i - 1)%nat = Some s
    ∧ let x := AELIF_euler_V p D dt v c s in
      let y := AELIF_euler_SRA p va tau dt v s in
      if x >=? vmax
      then vs !! i = Some (V_reset p) ∧ ss !! i = Some (y + vb)
           ∧ ks !! i = Some f1
      else vs !! i = Some x ∧ ss !! i = Some y ∧ ks !! i = ks0 !! i.

(** Whether step [i] fires, read from the traces. *)
Definition AELIF_fires_at (p : NeuronParameters F) (D dt vmax : F)
    (vs cs ss : list F) (i : nat) : bool :=
  match vs !! (i - 1)%nat, cs !! (i - 1)%nat, ss !! (i - 1)%nat with
  | Some v, Some c, Some s => AELIF_euler_V p D dt v c s >=? vmax
  | _, _, _ => false
  end.

(** The steps among [1..k] at which the model fires, in order. *)
Definition AELIF_fire_steps (p : NeuronParameters F) (D dt vmax : F)
    (vs cs ss : list F) (k : nat) : list nat :=
  List.filter (AELIF_fires_at p D dt vmax vs cs ss) (seq 1 k).

(** The intervals between successive times, the first one counted from
    [prev]. *)
Fixpoint gaps (prev : F) (times : list F) : list F :=
  match times with
  | [] => []
  | t :: times' => (t - prev) :: gaps t times'
  end.

End AELIFSpec.

(** The sum of a list of reals, from the right. *)
Definition total (l : list R) : R := fold_right Rplus 0%R l.

(** ** Concrete runs on binary64 *)

Module Demo.
Import Binary64.
Local Open Scope float_scope.
#[local] Set Warnings "-inexact-float".

(** Parameters with the six required fields only. *)
Definition lif_params (C_m E_L E_K R_m V_th V_reset : float)
  : res (NeuronParameters float) :=
  NeuronParameters_init C_m E_L E_K R_m V_th V_reset
    None None None None None None None None None None None None.

(** The caller's arrays: a time grid and an input current. *)
Definition store_of (ts cs : list float) : gmap loc (list float) :=
  <[2%positive := cs]> (<[1%positive := ts]> ∅).

(** A three-point grid with unit step and a constant current. *)
Definition unit_params : NeuronParameters float :=
  {| C_m := 1; E_L := 0; E_K := 0; R_m := 1; V_th := 1; V_reset := 0;
     V_peak := None; tau_vc := None; tau_vth := None; V_th_max := None;
     tau_G_ref := None; G_SRA := None; Delta_G_SRA := None;
     tau_SRA := None; V_max := None; Delta_th := None; a := None;
     b := None; G_L := 1; tau_m := 1; I_th := 1 |}.

Definition unit_store : gmap loc (list float) :=
  <[4%positive := [0; 0; 0]%float]>
    (<[3%positive := [0; 0; 0]%float]>
       (store_of [0; 1; 2]%float [2; 2; 2]%float)).

Definition unit_lif : LIFModel float :=
  {| LIF_base := {| neuron_parameters := unit_params; times := 1%positive;
                    I := 2%positive; V := 3%positive; dt := 1;
                    num_fire := 0 |};
     noise_sigma := 0; noises := Some 4%positive; last_fire_time := None |}.

Definition unit_world : world float := {| heap := unit_store; stdout := [] |}.

(** [np.arange(0, n * step, step)]. *)
Definition arange (n : nat) (step : float) : list float :=
  map (λ i, of_count i * step) (seq 0 n).

(** The scenario of [test_LIF] in tests/test_neuron_models.py on a
    coarser grid: the same parameters, a hundred steps of 1 ms, the
    current at 1.1 times the threshold current over steps 10 to 79; the
    result is the spike count and the times printed. *)
Definition test_LIF : res (Z * list float) :=
  let dt := 1e-3 in
  let! params :=
    lif_params 2.0e-9 (-70.0e-3) (-80e-3) 5.0e6 (-50.0e-3) (-65.0e-3) in
  let times := arange 100 dt in
  let I := map (λ i, if (10 <=? i)%nat && (i <? 80)%nat
                     then I_th params * 1.1 else 0) (seq 0 100) in
  let! (lif, h) := LIFModel_init params 1%positive 2%positive 0 (λ _, 1)
                     (store_of times I) in
  let! (lif, w) := LIFModel_simulate lif {| heap := h; stdout := [] |} in
  Ok (num_fire lif, stdout w).

(** [np.exp] is outside the repository; the runs of this file use the
    series truncated after the quadratic term in its place. *)
Definition series_exp (x : float) : float := 1 + x + x * x / 2.

(** Parameters of an adaptive model on the same scale. *)
Definition unit_aelif_params : NeuronParameters float :=
  {| C_m := 1; E_L := 0; E_K := 0; R_m := 1; V_th := 1; V_reset := 0;
     V_peak := None; tau_vc := None; tau_vth := None; V_th_max := None;
     tau_G_ref := None; G_SRA := None; Delta_G_SRA := None;
     tau_SRA := Some 1; V_max := Some 2; Delta_th := Some 1; a := Some 0;
     b := Some 0.5; G_L := 1; tau_m := 1; I_th := 1 |}.

(** An adaptive model on [p] as the constructor lays it out over a
    four-point grid whose arrays are still zero. *)
Definition aelif_on (p : NeuronParameters float) : AELIFModel float :=
  {| AELIF_base :=
       {| LIF_base := {| neuron_parameters := p; times := 1%positive;
                         I := 2%positive; V := 3%positive; dt := 1;
                         num_fire := 0 |};
          noise_sigma := 0; noises := Some 4%positive;
          last_fire_time := None |};
     I_SRA_array := 5%positive; last_spike_time := neg_infinity;
     isi_array := []; spike_array := 6%positive |}.

Definition aelif_store : gmap loc (list float) :=
  <[6%positive := [0; 0; 0; 0]%float]>
    (<[5%positive := [0; 0; 0; 0]%float]>
       (<[4%positive := [0; 0; 0; 0]%float]>
          (<[3%positive := [0; 0; 0; 0]%float]>
             (store_of [0; 1; 2; 3]%float [2; 2; 2; 2]%float)))).

Definition aelif_world : world float := {| heap := aelif_store; stdout := [] |}.

(** The arrays of [unit_lif] over an input current of a single entry. *)
Definition short_store : gmap loc (list float) :=
  <[4%positive := [0; 0; 0]%float]>
    (<[3%positive := [0; 0; 0]%float]>
       (store_of [0; 1; 2]%float [2]%float)).


End Demo.

(** ** A concrete model over the reals *)

Module DemoExact.
Import Exact.
Local Open Scope R_scope.

Definition exact_params : NeuronParameters R :=
  {| C_m := 1; E_L := 0; E_K := 0; R_m := 1; V_th := 1; V_reset := 0;
     V_peak := None; tau_vc := None; tau_vth := None; V_th_max := None;
     tau_G_ref := None; G_SRA := None; Delta_G_SRA := None;
     tau_SRA := None; V_max := None; Delta_th := None; a := None;
     b := None; G_L := 1 / 1; tau_m := 1 / (1 / 1);
     I_th := 1 / 1 * (1 - 0) |}.

Definition half_store : gmap loc (list R) :=
  <[2%positive := [/ 2; / 2; / 2]]> (<[1%positive := [0; 1; 2]]> ∅).

Definition strong_store : gmap loc (list R) :=
  <[2%positive := [2; 2; 2]]> (<[1%positive := [0; 1; 2]]> ∅).


End DemoExact.

(** * Properties *)

Lemma bind_Ok_l {A B} (a : A) (f : A → res B) : bind (Ok a) f = f a.
Proof. reflexivity. Qed.

(** ** Store lemmas *)

Section StoreFacts.
Context {F : Type}.
Implicit Types (h : gmap loc (list F)) (arr : list F).

Lemma arr_len_Some h l arr : h !! l = Some arr → arr_len h l = Ok (length arr).
Proof. unfold arr_len; intros ->; reflexivity. Qed.

Lemma arr_get_Some h l arr i x :
  h !! l = Some arr → arr !! i = Some x → arr_get h l i = Ok x.
Proof. unfold arr_get; intros -> ->; reflexivity. Qed.

Lemma arr_set_Some h l arr i x :
  h !! l = Some arr → (i < length arr)%nat →
  arr_set h l i x = Ok (<[l := <[i := x]> arr]> h).
Proof.
  unfold arr_set; intros -> Hi.
  destruct (decide (i < length arr)%nat); [reflexivity | contradiction].
Qed.

Lemma for_range_snoc {S : Type} (lo hi : nat) (body : nat → S → res S) (s : S) :
  (lo ≤ hi)%nat →
  for_range lo (Datatypes.S hi) body s = bind (for_range lo hi body s) (body hi).
Proof.
  intros Hle. unfold for_range.
  replace (Datatypes.S hi - lo)%nat with ((hi - lo) + 1)%nat by lia.
  rewrite seq_app, fold_left_app. simpl.
  replace (lo + (hi - lo))%nat with hi by lia. reflexivity.
Qed.

Lemma for_range_nil {S : Type} (lo : nat) (body : nat → S → res S) (s : S) :
  for_range lo lo body s = Ok s.
Proof. unfold for_range. rewrite Nat.sub_diag. reflexivity. Qed.

End StoreFacts.

(** ** The loop of [LIFModel.simulate] *)

Section LIFLoop.
Context `{Arith F}.
Local Open Scope arith_scope.

Lemma LIF_proposed_at_insert p dt vs cs ns i j x :
  (j ≤ i)%nat → (1 ≤ i)%nat →
  LIF_proposed_at p dt (<[i := x]> vs) cs ns j = LIF_proposed_at p dt vs cs ns j.
Proof.
  intros Hj Hi. unfold LIF_proposed_at.
  rewrite list_lookup_insert_ne by lia. reflexivity.
Qed.

Lemma LIF_fire_steps_insert p dt vs cs ns i k x :
  (k ≤ i)%nat → (1 ≤ i)%nat →
  LIF_fire_steps p dt (<[i := x]> vs) cs ns k = LIF_fire_steps p dt vs cs ns k.
Proof.
  intros Hk Hi. unfold LIF_fire_steps.
  apply List.filter_ext_in. intros j Hj. apply in_seq in Hj.
  unfold LIF_fires_at. rewrite LIF_proposed_at_insert by lia. reflexivity.
Qed.

Lemma LIF_fire_steps_S p dt vs cs ns k :
  LIF_fire_steps p dt vs cs ns (S k) =
  LIF_fire_steps p dt vs cs ns k ++
    (if LIF_fires_at p dt vs cs ns (S k) then [S k] else []).
Proof.
  unfold LIF_fire_steps.
  replace (S k) with (k + 1)%nat at 1 by lia.
  rewrite seq_app, List.filter_app. simpl.
  destruct (LIF_fires_at p dt vs cs ns (S k)); reflexivity.
Qed.

(** One iteration, on a state whose arrays are where the model says. *)
Lemma LIFModel_step_char (self : LIFModel F) (w : world F)
    (ts cs vs ns : list F) (i : nat) (v c n t : F) :
  LIF_state_ok self (heap w) ts cs vs ns →
  vs !! (i - 1)%nat = Some v → cs !! (i - 1)%nat = Some c →
  ns !! i = Some n → ts !! i = Some t →
  let p := neuron_parameters self in
  let x := LIF_proposed p (dt self) v c n in
  LIFModel_step i (self, w) =
    Ok (if x >? V_th p then LIFModel_fire self t else self,
        {| heap := <[V self := <[i := LIF_update p (dt self) v c n]> vs]> (heap w);
           stdout := if x >? V_th p then stdout w ++ [t] else stdout w |}).
Proof.
  intros [Hts Hcs Hvs (ln & Hln & Hns & Hsep) HlI HlV Hln' Hs1 Hs2] Hv Hc Hn Ht p x.
  assert (i < length vs)%nat as Hi.
  { rewrite HlV. apply lookup_lt_Some in Ht. exact Ht. }
  unfold LIFModel_step.
  rewrite (arr_get_Some _ _ _ _ _ Hvs Hv). simpl.
  rewrite (arr_get_Some _ _ _ _ _ Hcs Hc). simpl.
  rewrite Hln. rewrite (arr_get_Some _ _ _ _ _ Hns Hn). simpl.
  change (v + LIFModel_dvdt self v c * dt self + n) with x.
  unfold LIF_update. fold x. fold p.
  destruct (x >? V_th p) eqn:Hfire; simpl.
  - rewrite (arr_get_Some _ _ _ _ _ Hts Ht). simpl.
    rewrite (arr_set_Some _ _ _ _ _ Hvs Hi). reflexivity.
  - rewrite (arr_set_Some _ _ _ _ _ Hvs Hi). reflexivity.
Qed.

Lemma LIF_next_at_insert p dt vs cs ns i j x :
  (j ≤ i)%nat → (1 ≤ i)%nat →
  LIF_next_at p dt (<[i := x]> vs) cs ns j = LIF_next_at p dt vs cs ns j.
Proof.
  intros Hj Hi. unfold LIF_next_at.
  rewrite LIF_proposed_at_insert by lia. reflexivity.
Qed.

(** The state after the first [k] iterations. *)
Lemma LIFModel_loop_char (self : LIFModel F) (w : world F)
    (ts cs vs ns : list F) (k : nat) :
  LIF_state_ok self (heap w) ts cs vs ns →
  (k < length ts)%nat →
  let p := neuron_parameters self in
  ∃ self' vs',
    let steps := LIF_fire_steps p (dt self) vs' cs ns k in
    let fire_times := omap (λ i, ts !! i) steps in
    for_range 1 (S k) LIFModel_step (self, w) =
      Ok (self', {| heap := <[V self := vs']> (heap w);
                    stdout := stdout w ++ fire_times |})
    ∧ length vs' = length vs
    ∧ (∀ j, (j = 0 ∨ k < j)%nat → vs' !! j = vs !! j)
    ∧ (∀ j, (1 ≤ j ≤ k)%nat → vs' !! j = LIF_next_at p (dt self) vs' cs ns j)
    ∧ LIF_base self' =
        set_num_fire self (num_fire self + Z.of_nat (length steps))
    ∧ noise_sigma self' = noise_sigma self
    ∧ noises self' = noises self
    ∧ last_fire_time self' =
        from_option Some (last_fire_time self) (last fire_times).
Proof.
  intros Hok Hk p. induction k as [|k IH].
  - exists self, vs. simpl.
    rewrite for_range_nil, app_nil_r, insert_id by apply Hok.
    destruct w as [h out]; simpl. repeat split; try done.
    + intros j Hj; lia.
    + destruct self as [[? ? ? ? ? ?] ? ? ?]; simpl. unfold set_num_fire; simpl.
      f_equal. lia.
  - destruct IH as (self1 & vs1 & Hrun & Hlen & Hold & Hrec & Hbase & Hsig & Hns & Hlast);
      [lia|].
    set (steps1 := LIF_fire_steps p (dt self) vs1 cs ns k) in *.
    set (w1 := {| heap := <[V self := vs1]> (heap w);
                  stdout := stdout w ++ omap (λ i, ts !! i) steps1 |}) in *.
    pose proof Hok as [Hts Hcs Hvs (ln & Hln & Hnsl & Hsep) HlI HlV Hln' Hs1 Hs2].
    assert (neuron_parameters self1 = p ∧ times self1 = times self
            ∧ I self1 = I self ∧ V self1 = V self ∧ dt self1 = dt self)
      as (Hp1 & Ht1 & HI1 & HV1 & Hdt1).
    { rewrite Hbase. done. }
    assert (LIF_state_ok self1 (heap w1) ts cs vs1 ns) as Hok1.
    { subst w1; simpl. constructor; rewrite ?Ht1, ?HI1, ?HV1; try done.
      - rewrite lookup_insert_ne; done.
      - rewrite lookup_insert_ne; done.
      - apply lookup_insert_eq.
      - exists ln. rewrite Hns, lookup_insert_ne; done.
      - congruence. }
    destruct (lookup_lt_is_Some_2 vs1 k) as [v Hv]; [lia|].
    destruct (lookup_lt_is_Some_2 cs k) as [c Hc]; [lia|].
    destruct (lookup_lt_is_Some_2 ns (S k)) as [n Hn]; [lia|].
    destruct (lookup_lt_is_Some_2 ts (S k)) as [t Ht]; [lia|].
    rewrite for_range_snoc by lia. rewrite Hrun, bind_Ok_l.
    rewrite (LIFModel_step_char self1 w1 ts cs vs1 ns (S k) v c n t Hok1);
      simpl; rewrite ?Nat.sub_0_r; try done.
    rewrite Hp1, Hdt1, HV1.
    set (x := LIF_proposed p (dt self) v c n).
    set (vs2 := <[S k := LIF_update p (dt self) v c n]> vs1).
    assert (LIF_proposed_at p (dt self) vs1 cs ns (S k) = Some x) as Hprop.
    { unfold LIF_proposed_at. simpl. rewrite Nat.sub_0_r, Hv. simpl.
      rewrite Hc. simpl. rewrite Hn. reflexivity. }
    assert (LIF_fire_steps p (dt self) vs2 cs ns (S k) =
            steps1 ++ (if x >? V_th p then [S k] else [])) as Hsteps.
    { unfold vs2. rewrite LIF_fire_steps_insert by lia.
      rewrite LIF_fire_steps_S. unfold LIF_fires_at. rewrite Hprop. done. }
    exists (if x >? V_th p then LIFModel_fire self1 t else self1), vs2.
    cbv zeta. rewrite Hsteps. subst w1; simpl.
    rewrite insert_insert_eq.
    rewrite omap_app, length_app, last_app.
    split; [|split; [|split; [|split; [|split; [|split; [|split]]]]]].
    + f_equal. f_equal. f_equal.
      destruct (x >? V_th p); simpl; [rewrite Ht|]; simpl;
        rewrite <- ?app_assoc, ?app_nil_r; reflexivity.
    + unfold vs2. rewrite length_insert. exact Hlen.
    + intros j Hj. unfold vs2. rewrite list_lookup_insert_ne by lia.
      apply Hold. lia.
    + intros j Hj. unfold vs2 at 2. rewrite LIF_next_at_insert by lia.
      destruct (decide (j = S k)) as [->|Hne].
      * unfold vs2. rewrite list_lookup_insert_eq by lia.
        unfold LIF_next_at. rewrite Hprop. reflexivity.
      * unfold vs2. rewrite list_lookup_insert_ne by lia. apply Hrec. lia.
    + destruct (x >? V_th p); simpl; rewrite Hbase; unfold set_num_fire; simpl;
        f_equal; lia.
    + destruct (x >? V_th p); simpl; exact Hsig.
    + destruct (x >? V_th p); simpl; exact Hns.
    + destruct (x >? V_th p); simpl; [rewrite Ht; reflexivity|exact Hlast].
Qed.

End LIFLoop.

Section LIFSimulate.
Context `{Arith F}.
Local Open Scope arith_scope.

(** The whole run of [simulate], in terms of the final trace. *)
Lemma LIFModel_simulate_char (self : LIFModel F) (w : world F)
    (ts cs vs ns : list F) :
  LIF_state_ok self (heap w) ts cs vs ns →
  (1 ≤ length ts)%nat →
  let p := neuron_parameters self in
  ∃ self' vs',
    let steps := LIF_fire_steps p (dt self) vs' cs ns (length ts - 1) in
    let fire_times := omap (λ i, ts !! i) steps in
    LIFModel_simulate self w =
      Ok (self', {| heap := <[V self := vs']> (heap w);
                    stdout := stdout w ++ fire_times |})
    ∧ length vs' = length vs
    ∧ vs' !! 0%nat = vs !! 0%nat
    ∧ (∀ j, (1 ≤ j < length ts)%nat →
            vs' !! j = LIF_next_at p (dt self) vs' cs ns j)
    ∧ LIF_base self' =
        set_num_fire self (num_fire self + Z.of_nat (length steps))
    ∧ noise_sigma self' = noise_sigma self
    ∧ noises self' = noises self
    ∧ last_fire_time self' =
        from_option Some (last_fire_time self) (last fire_times).
Proof.
  intros Hok Hlen p.
  destruct (LIFModel_loop_char self w ts cs vs ns (length ts - 1) Hok)
    as (self' & vs' & Hrun & Hl & Hold & Hrec & Hrest); [lia|].
  exists self', vs'. cbv zeta.
  split; [|split; [|split; [|split]]]; try done.
  - unfold LIFModel_simulate.
    rewrite (arr_len_Some _ _ _ (ok_times _ _ _ _ _ _ Hok)), bind_Ok_l.
    replace (length ts) with (S (length ts - 1)) at 1 by lia. exact Hrun.
  - apply Hold. left; reflexivity.
  - intros j Hj. apply Hrec. lia.
Qed.

Lemma LIF_next_at_Some p dt (vs cs ns : list F) j :
  (1 ≤ j)%nat → (j < length vs)%nat → (j ≤ length cs)%nat → (j < length ns)%nat →
  ∃ v c n, vs !! (j - 1)%nat = Some v ∧ cs !! (j - 1)%nat = Some c
           ∧ ns !! j = Some n
           ∧ LIF_proposed_at p dt vs cs ns j = Some (LIF_proposed p dt v c n)
           ∧ LIF_next_at p dt vs cs ns j = Some (LIF_update p dt v c n).
Proof.
  intros H1 Hv Hc Hn.
  destruct (lookup_lt_is_Some_2 vs (j - 1)) as [v Hv']; [lia|].
  destruct (lookup_lt_is_Some_2 cs (j - 1)) as [c Hc']; [lia|].
  destruct (lookup_lt_is_Some_2 ns j) as [n Hn']; [lia|].
  exists v, c, n.
  assert (LIF_proposed_at p dt vs cs ns j = Some (LIF_proposed p dt v c n)) as E.
  { unfold LIF_proposed_at. rewrite Hv'. simpl. rewrite Hc'. simpl.
    rewrite Hn'. reflexivity. }
  repeat split; try done.
  unfold LIF_next_at. rewrite E. reflexivity.
Qed.

(** C1. For a LIF model over a time grid of length N >= 2, simulate()
    returns normally and leaves, for every i from 1 to N-1,
    V[i] = V[i-1] + ((E_L - V[i-1])/R_m + I[i-1])/C_m * dt + noises[i],
    unless that value is strictly above V_th, in which case V[i] is
    V_reset; num_fire has grown by the number of such steps, each of
    their times times[i] has been printed in order, and the last of
    them is recorded in last_fire_time. *)
Theorem LIFModel_simulate_steps (self : LIFModel F) (w : world F)
    (ts cs vs ns : list F) :
  LIF_state_ok self (heap w) ts cs vs ns →
  (2 ≤ length ts)%nat →
  let p := neuron_parameters self in
  ∃ self' vs',
    let steps := LIF_fire_steps p (dt self) vs' cs ns (length ts - 1) in
    let fire_times := omap (λ i, ts !! i) steps in
    LIFModel_simulate self w =
      Ok (self', {| heap := <[V self := vs']> (heap w);
                    stdout := stdout w ++ fire_times |})
    ∧ (∀ i, (1 ≤ i < length ts)%nat →
         ∃ v c n,
           vs' !! (i - 1)%nat = Some v ∧ cs !! (i - 1)%nat = Some c
           ∧ ns !! i = Some n
           ∧ vs' !! i =
               Some (let x := v + ((E_L p - v) / R_m p + c) / C_m p * dt self + n in
                     if x >? V_th p then V_reset p else x))
    ∧ num_fire self' = (num_fire self + Z.of_nat (length steps))%Z
    ∧ last_fire_time self' =
        from_option Some (last_fire_time self) (last fire_times).
Proof.
  intros Hok Hlen p.
  destruct (LIFModel_simulate_char self w ts cs vs ns Hok)
    as (self' & vs' & Hrun & Hl & H0 & Hrec & Hbase & _ & _ & Hlast); [lia|].
  exists self', vs'. cbv zeta. split; [exact Hrun|]. split; [|split].
  - intros i Hi.
    destruct (LIF_next_at_Some p (dt self) vs' cs ns i)
      as (v & c & n & Hv & Hc & Hn & _ & Hnext).
    + lia.
    + rewrite Hl, (ok_len_V _ _ _ _ _ _ Hok). lia.
    + rewrite (ok_len_I _ _ _ _ _ _ Hok). lia.
    + rewrite (ok_len_noises _ _ _ _ _ _ Hok). lia.
    + exists v, c, n. repeat split; try done.
      rewrite Hrec by lia. exact Hnext.
  - rewrite Hbase. reflexivity.
  - exact Hlast.
Qed.

End LIFSimulate.

Section Demo_checks.
Import Binary64 Demo.
Local Open Scope float_scope.

(** The constructors build [unit_lif] in [unit_store]. *)
Example unit_lif_constructed :
  (let! p := lif_params 1 0 0 1 1 0 in
   LIFModel_init p 1%positive 2%positive 0%float (λ _, 1%float)
     (store_of [0; 1; 2]%float [2; 2; 2]%float))
  = Ok (unit_lif, unit_store).
Proof. vm_compute. reflexivity. Qed.

(** The assertion of [test_LIF]: the model fires. *)
Example test_LIF_fires :
  ∃ n out, test_LIF = Ok (n, out) ∧ (0 < n)%Z ∧ length out = Z.to_nat n.
Proof. eexists _, _. vm_compute. repeat split; reflexivity. Qed.

Lemma unit_lif_ok :
  LIF_state_ok unit_lif unit_store
    [0; 1; 2]%float [2; 2; 2]%float [0; 0; 0]%float [0; 0; 0]%float.
Proof.
  constructor; try reflexivity; try discriminate.
  exists 4%positive. repeat split; try reflexivity; discriminate.
Defined.

Lemma LIFModel_simulate_steps_witness :
  LIF_state_ok unit_lif (heap unit_world)
    [0; 1; 2]%float [2; 2; 2]%float [0; 0; 0]%float [0; 0; 0]%float
  ∧ (2 ≤ length [0; 1; 2]%float)%nat
  ∧ is_Ok (LIFModel_simulate unit_lif unit_world).
Proof.
  split; [exact unit_lif_ok|]. split; [simpl; lia|].
  destruct (LIFModel_simulate_steps unit_lif unit_world
              [0; 1; 2]%float [2; 2; 2]%float [0; 0; 0]%float [0; 0; 0]%float
              unit_lif_ok) as (self' & vs' & Hrun & _).
  - simpl; lia.
  - eexists; exact Hrun.
Defined.

End Demo_checks.

(** ** Construction *)

Section Construction.
Context `{Arith F}.
Local Open Scope arith_scope.

Lemma BaseNeuronModel_init_char (p : NeuronParameters F) (times I : loc)
    (h : gmap loc (list F)) (ts : list F) (t0 t1 : F) :
  h !! times = Some ts → ts !! 0%nat = Some t0 → ts !! 1%nat = Some t1 →
  let v := fresh (dom h) in
  let vs := <[0%nat := E_L p]> (replicate (length ts) f0) in
  BaseNeuronModel_init p times I h =
    Ok ({| neuron_parameters := p; times := times; I := I; V := v;
           dt := t1 - t0; num_fire := 0 |}, <[v := vs]> h)
  ∧ h !! v = None.
Proof.
  intros Hts H0 H1 v vs.
  assert (h !! v = None) as Hv by apply not_elem_of_dom, is_fresh.
  split; [|exact Hv].
  assert (times ≠ v) as Hne by congruence.
  unfold BaseNeuronModel_init.
  rewrite (arr_len_Some _ _ _ Hts), bind_Ok_l.
  unfold alloc. fold v.
  assert (0 < length ts)%nat as Hpos by (apply lookup_lt_Some in H0; exact H0).
  rewrite (arr_set_Some _ v (replicate (length ts) f0) 0 (E_L p));
    [|apply lookup_insert_eq|rewrite length_replicate; exact Hpos].
  rewrite bind_Ok_l, insert_insert_eq. fold vs.
  assert (<[v := vs]> h !! times = Some ts) as Hts'
    by (rewrite lookup_insert_ne; done).
  rewrite (arr_get_Some _ _ _ _ _ Hts' H1), bind_Ok_l.
  rewrite (arr_get_Some _ _ _ _ _ Hts' H0), bind_Ok_l.
  reflexivity.
Qed.

(** What the constructor of a LIF model returns: the voltage trace and
    the noise array are new arrays of the length of the time grid. *)
Lemma LIFModel_init_char (p : NeuronParameters F) (times I : loc)
    (sigma : F) (normal : nat → F)
    (h : gmap loc (list F)) (ts cs : list F) (t0 t1 : F) :
  h !! times = Some ts → h !! I = Some cs → length cs = length ts →
  ts !! 0%nat = Some t0 → ts !! 1%nat = Some t1 →
  let vs := <[0%nat := E_L p]> (replicate (length ts) f0) in
  let ns := map (λ x, x * sigma * fsqrt (t1 - t0))
                (map normal (seq 0 (length ts))) in
  ∃ self h',
    LIFModel_init p times I sigma normal h = Ok (self, h')
    ∧ LIF_state_ok self h' ts cs vs ns
    ∧ LIF_base self =
        {| neuron_parameters := p; times := times; I := I; V := V self;
           dt := t1 - t0; num_fire := 0 |}
    ∧ noise_sigma self = sigma
    ∧ last_fire_time self = None
    ∧ (∀ l arr, h !! l = Some arr → h' !! l = Some arr).
Proof.
  intros Hts Hcs Hlen H0 H1 vs ns.
  destruct (BaseNeuronModel_init_char p times I h ts t0 t1 Hts H0 H1)
    as [Hbase Hv].
  set (v := fresh (dom h)) in *. fold vs in Hbase.
  set (h1 := <[v := vs]> h) in *.
  set (ln := fresh (dom h1)).
  assert (h1 !! ln = None) as Hln by apply not_elem_of_dom, is_fresh.
  assert (∀ l arr, h !! l = Some arr → l ≠ v) as Hold_v by (intros; congruence).
  assert (h1 !! times = Some ts) as Hts1
    by (unfold h1; rewrite lookup_insert_ne; [done|symmetry; eauto]).
  assert (h1 !! v = Some vs) as Hv1 by apply lookup_insert_eq.
  assert (∀ l arr, h1 !! l = Some arr → l ≠ ln) as Hold_ln by (intros; congruence).
  exists {| LIF_base := {| neuron_parameters := p; times := times; I := I;
                           V := v; dt := t1 - t0; num_fire := 0 |};
            noise_sigma := sigma; noises := Some ln;
            last_fire_time := None |}, (<[ln := ns]> h1).
  split; [|split; [|split; [|split; [|split]]]]; try reflexivity.
  - unfold LIFModel_init. rewrite Hbase, bind_Ok_l.
    rewrite (arr_len_Some _ _ _ Hts1), bind_Ok_l. reflexivity.
  - constructor; simpl.
    + rewrite lookup_insert_ne; [done|symmetry; eauto].
    + rewrite lookup_insert_ne; [|symmetry; apply (Hold_ln _ cs)];
        unfold h1; rewrite lookup_insert_ne; [done|symmetry; eauto|done|symmetry; eauto].
    + rewrite lookup_insert_ne; [done|symmetry; eauto].
    + exists ln. split; [done|]. split; [apply lookup_insert_eq|eauto].
    + exact Hlen.
    + unfold vs. rewrite length_insert, length_replicate. reflexivity.
    + unfold ns. rewrite !length_map, length_seq. reflexivity.
    + symmetry; eauto.
    + symmetry; eauto.
  - intros l arr Hl.
    rewrite lookup_insert_ne.
    + unfold h1. rewrite lookup_insert_ne; [done|symmetry; eauto].
    + symmetry. apply (Hold_ln _ arr). unfold h1.
      rewrite lookup_insert_ne; [done|symmetry; eauto].
Qed.

Variable neg_inf : F.

(** What the constructor of an AELIF model returns: the voltage trace,
    the adaptation current and the spike array are new arrays. *)
Lemma AELIFModel_init_char (p : NeuronParameters F) (ltimes lI : loc)
    (sigma : F) (isi : option (list F)) (normal : nat → F)
    (h : gmap loc (list F)) (ts cs : list F) (t0 t1 : F) :
  h !! ltimes = Some ts → h !! lI = Some cs → length cs = length ts →
  ts !! 0%nat = Some t0 → ts !! 1%nat = Some t1 →
  let vs := <[0%nat := E_L p]> (replicate (length ts) f0) in
  let zeros := replicate (length ts) f0 in
  ∃ self h',
    AELIFModel_init neg_inf p ltimes lI sigma isi normal h = Ok (self, h')
    ∧ AELIF_state_ok self h' ts cs vs zeros zeros
    ∧ LIF_base self =
        {| neuron_parameters := p; times := ltimes; I := lI; V := V self;
           dt := t1 - t0; num_fire := 0 |}
    ∧ isi_array self = default [] isi
    ∧ last_spike_time self = neg_inf
    ∧ (∃ ln ns, noises self = Some ln ∧ h' !! ln = Some ns
                ∧ ¬ AELIF_owned self ln)
    ∧ (∀ l arr, h !! l = Some arr → h' !! l = Some arr).
Proof.
  intros Hts Hcs Hlen H0 H1 vs zeros.
  destruct (LIFModel_init_char p ltimes lI sigma normal h ts cs t0 t1
              Hts Hcs Hlen H0 H1)
    as (lif & h1 & Hinit & Hok & Hbase & _ & _ & Hext).
  fold vs in Hok.
  destruct Hok as [Hts1 Hcs1 Hvs1 (ln & Hln & Hns1 & Hsep) _ HlV _ Hs1 Hs2].
  assert (times lif = ltimes ∧ I lif = lI) as [Eqt EqI] by (rewrite Hbase; done).
  rewrite Eqt in Hts1, Hs1. rewrite EqI in Hcs1, Hs2.
  set (sra := fresh (dom h1)).
  assert (h1 !! sra = None) as Hsra by apply not_elem_of_dom, is_fresh.
  set (h2 := <[sra := zeros]> h1).
  set (spk := fresh (dom h2)).
  assert (h2 !! spk = None) as Hspk by apply not_elem_of_dom, is_fresh.
  assert (∀ l arr, h1 !! l = Some arr → l ≠ sra) as Hne1 by (intros; congruence).
  assert (∀ l arr, h1 !! l = Some arr → h2 !! l = Some arr) as Hext2.
  { intros l arr Hl. unfold h2. rewrite lookup_insert_ne; [done|].
    symmetry; eauto. }
  assert (h2 !! sra = Some zeros) as Hsra2 by apply lookup_insert_eq.
  assert (∀ l arr, h2 !! l = Some arr → l ≠ spk) as Hne2 by (intros; congruence).
  assert (∀ l arr, h2 !! l = Some arr → <[spk := zeros]> h2 !! l = Some arr)
    as Hext3.
  { intros l arr Hl. rewrite lookup_insert_ne; [done|]. symmetry; eauto. }
  exists {| AELIF_base := lif; I_SRA_array := sra; last_spike_time := neg_inf;
            isi_array := default [] isi; spike_array := spk |},
         (<[spk := zeros]> h2).
  split; [|split; [|split; [|split; [|split; [|split]]]]]; try reflexivity.
  - unfold AELIFModel_init. rewrite Hinit, bind_Ok_l.
    rewrite (arr_len_Some _ _ _ Hts1), bind_Ok_l. reflexivity.
  - constructor; simpl; rewrite ?Eqt, ?EqI; eauto.
    + apply lookup_insert_eq.
    + apply length_replicate.
    + apply length_replicate.
    + intros l [->| ->];
        (split; [apply not_eq_sym; assumption
                |split; [eapply Hne1; eassumption
                        |eapply Hne2; apply Hext2; eassumption]]).
  - exact Hbase.
  - exists ln, (map (λ x, x * sigma * fsqrt (t1 - t0))
                    (map normal (seq 0 (length ts)))).
    simpl. split; [exact Hln|]. split; [eauto|].
    intros [?|[?|?]]; simpl in *.
    + congruence.
    + eapply (Hne1 ln); eassumption.
    + eapply (Hne2 ln); [apply Hext2; eassumption|assumption].
  - eauto.
Qed.

End Construction.

(** ** The loop of [AELIFModel.simulate] *)

Section AELIFLoop.
Context `{Arith F}.
Variable np_exp : F → F.
Local Open Scope arith_scope.

Ltac heap_lookup :=
  repeat first
    [ rewrite lookup_insert_eq
    | rewrite lookup_insert_ne by (first [assumption | apply not_eq_sym; assumption]) ].

(** One iteration, on a state whose arrays are where the model says. *)
Lemma AELIFModel_step_char (self : AELIFModel F) (w : world F)
    (ts cs vs ss ks : list F) (D va vb tau vmax : F) (i : nat) (v c s t : F) :
  AELIF_state_ok self (heap w) ts cs vs ss ks →
  AELIF_params (neuron_parameters self) D va vb tau vmax →
  vs !! (i - 1)%nat = Some v → cs !! (i - 1)%nat = Some c →
  ss !! (i - 1)%nat = Some s → ts !! i = Some t → (1 ≤ i)%nat →
  let p := neuron_parameters self in
  let x := AELIF_euler_V np_exp p D (dt self) v c s in
  let y := AELIF_euler_SRA p va tau (dt self) v s in
  let fired := x >=? vmax in
  ∃ h',
    AELIFModel_step np_exp i (self, w) =
      Ok (if fired then AELIFModel_fire self t else self,
          {| heap := h'; stdout := stdout w |})
    ∧ h' !! V self = Some (<[i := if fired then V_reset p else x]> vs)
    ∧ h' !! I_SRA_array self = Some (<[i := if fired then y + vb else y]> ss)
    ∧ h' !! spike_array self = Some (if fired then <[i := f1]> ks else ks)
    ∧ (∀ l, ¬ AELIF_owned self l → h' !! l = heap w !! l).
Proof.
  intros [Hts Hcs Hvs Hss Hks HlI HlV HlS HlK Hn1 Hn2 Hn3 Hin]
         [HD Ha Hb Htau Hmax] Hv Hc Hs Ht Hi p x y fired.
  destruct (Hin (times self)) as (Ht1 & Ht2 & Ht3); [left; reflexivity|].
  destruct (Hin (I self)) as (Hc1 & Hc2 & Hc3); [right; reflexivity|].
  assert (i < length ts)%nat as Hlt by (apply lookup_lt_Some in Ht; exact Ht).
  destruct w as [h out]; simpl in *. subst p.
  set (p := neuron_parameters self) in x, y.
  unfold AELIFModel_step. cbv zeta. simpl heap.
  rewrite (arr_get_Some _ _ _ _ _ Hvs Hv), !bind_Ok_l.
  rewrite (arr_get_Some _ _ _ _ _ Hcs Hc), !bind_Ok_l.
  rewrite (arr_get_Some _ _ _ _ _ Hss Hs), !bind_Ok_l.
  unfold AELIFModel_dvdt. rewrite HD. simpl require. rewrite !bind_Ok_l.
  change (v + dt self * _) with x.
  rewrite (arr_set_Some _ _ _ i x Hvs) by lia. rewrite bind_Ok_l.
  set (h1 := <[V self := <[i := x]> vs]> h).
  assert (h1 !! V self = Some (<[i := x]> vs)) as Hvs1 by apply lookup_insert_eq.
  assert (h1 !! I_SRA_array self = Some ss) as Hss1
    by (unfold h1; heap_lookup; exact Hss).
  assert (<[i := x]> vs !! (i - 1)%nat = Some v) as Hv1
    by (rewrite list_lookup_insert_ne by lia; exact Hv).
  rewrite (arr_get_Some _ _ _ _ _ Hss1 Hs), !bind_Ok_l.
  rewrite (arr_get_Some _ _ _ _ _ Hvs1 Hv1), !bind_Ok_l.
  unfold AELIFModel_dI_SRA_dt. rewrite Ha, Htau. simpl require.
  rewrite !bind_Ok_l.
  change (s + dt self * _) with y.
  rewrite (arr_set_Some _ _ _ i y Hss1) by lia. rewrite bind_Ok_l.
  set (h2 := <[I_SRA_array self := <[i := y]> ss]> h1).
  assert (h2 !! V self = Some (<[i := x]> vs)) as Hvs2
    by (unfold h2; heap_lookup; exact Hvs1).
  assert (h2 !! I_SRA_array self = Some (<[i := y]> ss)) as Hss2
    by apply lookup_insert_eq.
  assert (<[i := x]> vs !! i = Some x) as Hxi
    by (apply list_lookup_insert_eq; lia).
  rewrite (arr_get_Some _ _ _ _ _ Hvs2 Hxi), bind_Ok_l.
  rewrite Hmax. simpl require. rewrite bind_Ok_l. fold fired.
  assert (∀ l, ¬ AELIF_owned self l → h2 !! l = h !! l) as Hframe2.
  { intros l Hl. unfold AELIF_owned in Hl.
    unfold h2, h1. rewrite !lookup_insert_ne; [done|intros <-; tauto|intros <-; tauto]. }
  destruct fired eqn:Hfired.
  - rewrite (arr_set_Some _ _ _ i (V_reset (neuron_parameters self)) Hvs2)
      by (rewrite length_insert; lia).
    rewrite bind_Ok_l, list_insert_insert_eq.
    set (h3 := <[V self := <[i := V_reset (neuron_parameters self)]> vs]> h2).
    assert (h3 !! I_SRA_array self = Some (<[i := y]> ss)) as Hss3
      by (unfold h3; heap_lookup; exact Hss2).
    assert (<[i := y]> ss !! i = Some y) as Hyi
      by (apply list_lookup_insert_eq; lia).
    rewrite (arr_get_Some _ _ _ _ _ Hss3 Hyi), bind_Ok_l.
    rewrite Hb. simpl require. rewrite bind_Ok_l.
    rewrite (arr_set_Some _ _ _ i (y + vb) Hss3)
      by (rewrite length_insert; lia).
    rewrite bind_Ok_l, list_insert_insert_eq.
    set (h4 := <[I_SRA_array self := <[i := y + vb]> ss]> h3).
    assert (h4 !! times self = Some ts) as Hts4.
    { unfold h4, h3, h2, h1. rewrite !lookup_insert_ne; done. }
    assert (h4 !! spike_array self = Some ks) as Hks4.
    { unfold h4, h3, h2, h1. rewrite !lookup_insert_ne; done. }
    rewrite (arr_get_Some _ _ _ _ _ Hts4 Ht), bind_Ok_l.
    rewrite (arr_set_Some _ _ _ i f1 Hks4) by lia. rewrite bind_Ok_l.
    eexists. split; [reflexivity|]. simpl.
    split; [|split; [|split]].
    + unfold h4, h3. rewrite lookup_insert_ne by (apply not_eq_sym; done).
      rewrite lookup_insert_ne by (apply not_eq_sym; done).
      apply lookup_insert_eq.
    + rewrite lookup_insert_ne by (apply not_eq_sym; done).
      unfold h4. apply lookup_insert_eq.
    + apply lookup_insert_eq.
    + intros l Hl. rewrite <- (Hframe2 l Hl). unfold AELIF_owned in Hl.
      unfold h4, h3.
      rewrite !lookup_insert_ne; [done|intros <-; tauto..].
  - eexists. split; [reflexivity|]. simpl.
    split; [exact Hvs2|]. split; [exact Hss2|]. split; [|exact Hframe2].
    unfold h2, h1. rewrite !lookup_insert_ne; done.
Qed.

Lemma AELIF_state_ok_config (self self' : AELIFModel F) h ts cs vs ss ks :
  AELIF_same_config self self' →
  AELIF_state_ok self h ts cs vs ss ks → AELIF_state_ok self' h ts cs vs ss ks.
Proof.
  intros [Hp Ht HI HV Hdt _ _ _ HS HK] [].
  constructor; rewrite ?Ht, ?HI, ?HV, ?HS, ?HK; assumption.
Qed.

Lemma AELIF_same_config_refl (self : AELIFModel F) : AELIF_same_config self self.
Proof. constructor; reflexivity. Qed.

Lemma AELIF_same_config_fire (self self' : AELIFModel F) t :
  AELIF_same_config self self' → AELIF_same_config self (AELIFModel_fire self' t).
Proof. intros []. constructor; simpl; assumption. Qed.

Lemma AELIF_step_at_insert p D va vb tau vmax dt cs ks0 vs ss ks i j x y z :
  (j < i)%nat →
  AELIF_step_at np_exp p D va vb tau vmax dt cs ks0 vs ss ks j →
  AELIF_step_at np_exp p D va vb tau vmax dt cs ks0
    (<[i := x]> vs) (<[i := y]> ss) (<[i := z]> ks) j.
Proof.
  intros Hj (v & c & s & Hv & Hc & Hs & Hstep).
  exists v, c, s. rewrite !list_lookup_insert_ne by lia.
  repeat split; try done.
Qed.

(** The state after the first [k] iterations. *)
Lemma AELIFModel_loop_char (self : AELIFModel F) (w : world F)
    (ts cs vs ss ks : list F) (D va vb tau vmax : F) (k : nat) :
  AELIF_state_ok self (heap w) ts cs vs ss ks →
  AELIF_params (neuron_parameters self) D va vb tau vmax →
  (k < length ts)%nat →
  let p := neuron_parameters self in
  ∃ self' h' vs' ss' ks' (n : nat),
    for_range 1 (S k) (AELIFModel_step np_exp) (self, w) =
      Ok (self', {| heap := h'; stdout := stdout w |})
    ∧ AELIF_same_config self self'
    ∧ AELIF_state_ok self h' ts cs vs' ss' ks'
    ∧ (∀ l, ¬ AELIF_owned self l → h' !! l = heap w !! l)
    ∧ (∀ j, (j = 0 ∨ k < j)%nat →
         vs' !! j = vs !! j ∧ ss' !! j = ss !! j ∧ ks' !! j = ks !! j)
    ∧ (∀ j, (1 ≤ j ≤ k)%nat →
         AELIF_step_at np_exp p D va vb tau vmax (dt self) cs ks vs' ss' ks' j)
    ∧ num_fire self' = (num_fire self + Z.of_nat n)%Z
    ∧ length (isi_array self') = (length (isi_array self) + n)%nat.
Proof.
  intros Hok Hpar Hk p. induction k as [|k IH].
  - exists self, (heap w), vs, ss, ks, 0%nat.
    rewrite for_range_nil. destruct w as [h out]; simpl.
    split; [reflexivity|]. split; [apply AELIF_same_config_refl|].
    split; [exact Hok|]. split; [done|]. split; [done|].
    split; [intros j Hj; lia|]. split; lia.
  - destruct IH as (self1 & h1 & vs1 & ss1 & ks1 & n1 & Hrun & Hcfg & Hok1
                    & Hframe & Hold & Hrec & Hnf & Hisi); [lia|].
    pose proof (AELIF_state_ok_config _ _ _ _ _ _ _ _ Hcfg Hok1) as Hok1'.
    pose proof Hok1 as [_ _ _ _ _ HlI HlV HlS HlK _ _ _ _].
    destruct (lookup_lt_is_Some_2 vs1 k) as [v Hv]; [lia|].
    destruct (lookup_lt_is_Some_2 cs k) as [c Hc]; [lia|].
    destruct (lookup_lt_is_Some_2 ss1 k) as [s Hs]; [lia|].
    destruct (lookup_lt_is_Some_2 ts (S k)) as [t Ht]; [lia|].
    pose proof Hcfg as [Hp1 Ht1 HI1 HV1 Hdt1 _ _ _ HS1 HK1].
    destruct (AELIFModel_step_char self1 {| heap := h1; stdout := stdout w |}
                ts cs vs1 ss1 ks1 D va vb tau vmax (S k) v c s t)
      as (h2 & Hstep & Hv2 & Hs2 & Hk2 & Hframe2);
      simpl; rewrite ?Nat.sub_0_r, ?Hp1; try done; try lia.
    assert (∀ l, ¬ AELIF_owned self l → h2 !! l = h1 !! l) as Hframe2'.
    { intros l Hl. apply Hframe2. unfold AELIF_owned in *.
      rewrite HV1, HS1, HK1. exact Hl. }
    clear Hframe2.
    rewrite Hp1, Hdt1, HV1, HS1, HK1 in *.
    fold p in Hstep, Hv2, Hs2.
    set (x := AELIF_euler_V np_exp p D (dt self) v c s) in *.
    set (y := AELIF_euler_SRA p va tau (dt self) v s) in *.
    set (fired := x >=? vmax) in *.
    exists (if fired then AELIFModel_fire self1 t else self1), h2,
           (<[S k := if fired then V_reset p else x]> vs1),
           (<[S k := if fired then y + vb else y]> ss1),
           (if fired then <[S k := f1]> ks1 else ks1),
           (if fired then S n1 else n1).
    split; [|split; [|split; [|split; [|split; [|split; [|split]]]]]].
    + rewrite for_range_snoc by lia. rewrite Hrun, bind_Ok_l. exact Hstep.
    + destruct fired; [apply AELIF_same_config_fire|]; exact Hcfg.
    + destruct Hok1 as [? ? ? ? ? ? ? ? ? ? ? ? Hin].
      constructor; try done.
      * rewrite Hframe2'; [done|]. intros Hown.
        destruct (Hin (times self)) as (? & ? & ?); [left; done|].
        destruct Hown as [?|[?|?]]; done.
      * rewrite Hframe2'; [done|]. intros Hown.
        destruct (Hin (I self)) as (? & ? & ?); [right; done|].
        destruct Hown as [?|[?|?]]; done.
      * rewrite length_insert. done.
      * rewrite length_insert. done.
      * destruct fired; rewrite ?length_insert; done.
    + intros l Hl. rewrite Hframe2'; [apply Hframe; exact Hl|exact Hl].
    + intros j Hj. rewrite !list_lookup_insert_ne by lia.
      destruct (Hold j) as (? & ? & ?); [lia|].
      repeat split; try done.
      destruct fired; rewrite ?list_lookup_insert_ne by lia; done.
    + intros j Hj. destruct (decide (j = S k)) as [->|Hne].
      * exists v, c, s. simpl. rewrite Nat.sub_0_r.
        rewrite !list_lookup_insert_ne by lia.
        rewrite !list_lookup_insert_eq by lia.
        repeat split; try done. cbv zeta. fold x. fold y. fold fired.
        destruct fired.
        -- rewrite list_lookup_insert_eq by lia. done.
        -- repeat split; try done. apply Hold. lia.
      * assert (AELIF_step_at np_exp p D va vb tau vmax (dt self) cs ks
                  vs1 ss1 ks1 j) as Hj1 by (apply Hrec; lia).
        destruct fired.
        -- apply AELIF_step_at_insert; [lia|exact Hj1].
        -- rewrite <- (list_insert_id ks1 (S k) (default f0 (ks1 !! S k))).
           ++ apply AELIF_step_at_insert; [lia|exact Hj1].
           ++ destruct (lookup_lt_is_Some_2 ks1 (S k)) as [z Hz]; [lia|].
              rewrite Hz. done.
    + destruct fired; simpl; rewrite Hnf; lia.
    + destruct fired; simpl; rewrite ?length_app, Hisi; simpl; lia.
Qed.

End AELIFLoop.

Section AELIFSimulate.
Context `{Arith F}.
Variable np_exp : F → F.
Variable neg_inf : F.
Local Open Scope arith_scope.

(** The whole run of [simulate] from a state whose arrays are where the
    model says. *)
Lemma AELIFModel_simulate_char (self : AELIFModel F) (w : world F)
    (ts cs vs ss ks : list F) (D va vb tau vmax : F) :
  AELIF_state_ok self (heap w) ts cs vs ss ks →
  AELIF_params (neuron_parameters self) D va vb tau vmax →
  (1 ≤ length ts)%nat →
  let p := neuron_parameters self in
  ∃ self' h' vs' ss' ks' (n : nat),
    AELIFModel_simulate np_exp self w =
      Ok (self', {| heap := h'; stdout := stdout w |})
    ∧ AELIF_same_config self self'
    ∧ AELIF_state_ok self h' ts cs vs' ss' ks'
    ∧ (∀ l, ¬ AELIF_owned self l → h' !! l = heap w !! l)
    ∧ (vs' !! 0%nat = vs !! 0%nat ∧ ss' !! 0%nat = ss !! 0%nat
       ∧ ks' !! 0%nat = ks !! 0%nat)
    ∧ (∀ j, (1 ≤ j < length ts)%nat →
         AELIF_step_at np_exp p D va vb tau vmax (dt self) cs ks vs' ss' ks' j)
    ∧ num_fire self' = (num_fire self + Z.of_nat n)%Z
    ∧ length (isi_array self') = (length (isi_array self) + n)%nat.
Proof.
  intros Hok Hpar Hlen p.
  destruct (AELIFModel_loop_char np_exp self w ts cs vs ss ks D va vb tau vmax
              (length ts - 1) Hok Hpar)
    as (self' & h' & vs' & ss' & ks' & n & Hrun & Hcfg & Hok' & Hframe & Hold
        & Hrec & Hnf & Hisi); [lia|].
  exists self', h', vs', ss', ks', n.
  split; [|split; [|split; [|split; [|split; [|split; [|split]]]]]]; try done.
  - unfold AELIFModel_simulate.
    rewrite (arr_len_Some _ _ _ (aok_times _ _ _ _ _ _ _ Hok)), bind_Ok_l.
    replace (length ts) with (S (length ts - 1)) at 1 by lia. exact Hrun.
  - apply Hold. left; reflexivity.
  - intros j Hj. apply Hrec. lia.
Qed.


End AELIFSimulate.

(** ** What [simulate] leaves unchanged *)

Section Frame.
Context `{Arith F}.
Variable np_exp : F → F.
Variable neg_inf : F.
Local Open Scope arith_scope.

(** C10. After constructing a LIF or an AELIF model over a time grid
    and an input current and running simulate() on it, every array of
    the store other than the model's own result arrays (the voltage
    trace; for AELIF also the adaptation current and the spike array)
    holds what it held before: in particular the time grid, the input
    current and the noise array.  The model still refers to the same
    parameters and arrays, and index 0 of the result arrays is
    untouched: V[0] is E_L (and for AELIF I_SRA_array[0] and
    spike_array[0] are 0). *)
Theorem simulate_frame (p : NeuronParameters F) (ltimes lI : loc)
    (sigma : F) (normal : nat → F) (h : gmap loc (list F)) (out : list F)
    (ts cs : list F) (t0 t1 : F) :
  h !! ltimes = Some ts → h !! lI = Some cs → length cs = length ts →
  ts !! 0%nat = Some t0 → ts !! 1%nat = Some t1 →
  (∃ self h0 self' w' vs' ln ns,
      LIFModel_init p ltimes lI sigma normal h = Ok (self, h0)
      ∧ LIFModel_simulate self {| heap := h0; stdout := out |} = Ok (self', w')
      ∧ (∀ l, l ≠ V self → heap w' !! l = h0 !! l)
      ∧ heap w' !! ltimes = Some ts
      ∧ heap w' !! lI = Some cs
      ∧ noises self = Some ln ∧ h0 !! ln = Some ns ∧ heap w' !! ln = Some ns
      ∧ neuron_parameters self' = p
      ∧ times self' = ltimes ∧ I self' = lI ∧ V self' = V self
      ∧ dt self' = dt self ∧ noises self' = Some ln
      ∧ noise_sigma self' = noise_sigma self
      ∧ heap w' !! V self = Some vs' ∧ vs' !! 0%nat = Some (E_L p))
  ∧ (∀ D va vb tau vmax isi,
      AELIF_params p D va vb tau vmax →
      ∃ self h0 self' w' vs' ss' ks' ln ns,
        AELIFModel_init neg_inf p ltimes lI sigma isi normal h = Ok (self, h0)
        ∧ AELIFModel_simulate np_exp self {| heap := h0; stdout := out |} =
            Ok (self', w')
        ∧ (∀ l, ¬ AELIF_owned self l → heap w' !! l = h0 !! l)
        ∧ heap w' !! ltimes = Some ts
        ∧ heap w' !! lI = Some cs
        ∧ noises self = Some ln ∧ h0 !! ln = Some ns ∧ heap w' !! ln = Some ns
        ∧ neuron_parameters self' = p
        ∧ AELIF_same_config self self'
        ∧ stdout w' = out
        ∧ heap w' !! V self = Some vs' ∧ vs' !! 0%nat = Some (E_L p)
        ∧ heap w' !! I_SRA_array self = Some ss' ∧ ss' !! 0%nat = Some f0
        ∧ heap w' !! spike_array self = Some ks' ∧ ks' !! 0%nat = Some f0).
Proof.
  intros Hts Hcs Hlen H0 H1.
  assert (2 ≤ length ts)%nat as HN by (apply lookup_lt_Some in H1; lia).
  split.
  - destruct (LIFModel_init_char p ltimes lI sigma normal h ts cs t0 t1
                Hts Hcs Hlen H0 H1)
      as (self & h0 & Hinit & Hok & Hbase & _ & _ & Hext).
    destruct (LIFModel_simulate_char self {| heap := h0; stdout := out |}
                ts cs _ _ Hok)
      as (self' & vs' & Hrun & _ & Hv0 & _ & Hbase' & Hsig & Hns & _); [lia|].
    pose proof Hok as [Hts0 Hcs0 _ (ln & Hln & Hns0 & Hsep) _ _ _ Hs1 Hs2].
    assert (times self = ltimes ∧ I self = lI ∧ neuron_parameters self = p)
      as (Et & EI & Ep) by (rewrite Hbase; done).
    rewrite Et in *. rewrite EI in *.
    eexists self, h0, self', _, vs', ln, _.
    split; [exact Hinit|]. split; [exact Hrun|]. simpl.
    split; [intros l Hl; rewrite lookup_insert_ne; [done|apply not_eq_sym; done]|].
    split; [rewrite lookup_insert_ne; done|].
    split; [rewrite lookup_insert_ne; done|].
    split; [exact Hln|]. split; [exact Hns0|].
    split; [rewrite lookup_insert_ne; done|].
    rewrite Hbase'. simpl. rewrite Hns.
    repeat split; try done.
    + apply lookup_insert_eq.
    + rewrite Hv0. apply list_lookup_insert_eq. rewrite length_replicate. lia.
  - intros D va vb tau vmax isi Hpar.
    destruct (AELIFModel_init_char neg_inf p ltimes lI sigma isi normal h ts cs
                t0 t1 Hts Hcs Hlen H0 H1)
      as (self & h0 & Hinit & Hok & Hbase & _ & _ & (ln & ns & Hln & Hns0 & Hown)
          & Hext).
    assert (times self = ltimes ∧ I self = lI ∧ neuron_parameters self = p)
      as (Et & EI & Ep) by (rewrite Hbase; done).
    rewrite <- Ep in Hpar.
    destruct (AELIFModel_simulate_char np_exp self {| heap := h0; stdout := out |}
                ts cs _ _ _ D va vb tau vmax Hok Hpar)
      as (self' & h' & vs' & ss' & ks' & n & Hrun & Hcfg & Hok' & Hframe
          & (Hv0 & Hs0 & Hk0) & _); [lia|].
    simpl in Hframe.
    eexists self, h0, self', _, vs', ss', ks', ln, ns.
    split; [exact Hinit|]. split; [exact Hrun|]. simpl.
    split; [exact Hframe|].
    split; [rewrite <- Et; apply Hok'|]. split; [rewrite <- EI; apply Hok'|].
    split; [exact Hln|]. split; [exact Hns0|].
    split; [rewrite Hframe; done|].
    split; [rewrite (same_parameters _ _ Hcfg); exact Ep|].
    split; [exact Hcfg|]. split; [reflexivity|].
    split; [apply Hok'|].
    split; [rewrite Hv0; apply list_lookup_insert_eq; rewrite length_replicate; lia|].
    split; [apply Hok'|].
    split; [rewrite Hs0; apply lookup_replicate_2; lia|].
    split; [apply Hok'|].
    rewrite Hk0; apply lookup_replicate_2; lia.
Qed.

End Frame.

Section AELIF_checks.
Import Binary64 Demo.
Local Open Scope float_scope.

(** A run in which the update lands exactly on [V_max] at step 2. *)
Example unit_aelif_run :
  (let! (m, h) := AELIFModel_init neg_infinity unit_aelif_params 1%positive
                    2%positive 0 None (λ _, 1)
                    (store_of [0; 1; 2; 3] [2; 2; 2; 2]) in
   let! (m', w) := AELIFModel_simulate series_exp m
                     {| heap := h; stdout := [] |} in
   Ok (num_fire m', isi_array m', heap w !! V m, heap w !! I_SRA_array m,
       heap w !! spike_array m))
  = Ok (3%Z, [infinity; 1; 1], Some [0; 0; 0; 0], Some [0; 0.5; 0.5; 0.5],
        Some [0; 1; 1; 1]).
Proof. vm_compute. reflexivity. Qed.

Lemma unit_aelif_params_ok : AELIF_params unit_aelif_params 1 0 0.5 1 2.
Proof. constructor; reflexivity. Defined.


Lemma simulate_frame_witness :
  store_of [0; 1; 2] [2; 2; 2] !! 1%positive = Some [0; 1; 2]
  ∧ store_of [0; 1; 2] [2; 2; 2] !! 2%positive = Some [2; 2; 2]
  ∧ ∃ self h0 self' w',
      LIFModel_init unit_params 1%positive 2%positive 0 (λ _, 1)
        (store_of [0; 1; 2] [2; 2; 2]) = Ok (self, h0)
      ∧ LIFModel_simulate self {| heap := h0; stdout := [] |} = Ok (self', w')
      ∧ heap w' !! 1%positive = Some [0; 1; 2]
      ∧ heap w' !! 2%positive = Some [2; 2; 2].
Proof.
  split; [reflexivity|]. split; [reflexivity|].
  destruct (simulate_frame series_exp neg_infinity unit_params 1%positive
              2%positive 0 (λ _, 1) (store_of [0; 1; 2] [2; 2; 2]) []
              [0; 1; 2] [2; 2; 2] 0 1)
    as [(self & h0 & self' & w' & vs' & ln & ns & Hinit & Hrun & _ & Ht & Hc & _) _];
    try reflexivity.
  exists self, h0, self', w'. repeat split; assumption.
Defined.

End AELIF_checks.

(** ** utils.py: splitting into sections *)

Section SplitFacts.
Context `{Arith F}.
Local Open Scope arith_scope.

Lemma sections_length (size count : nat) (arr : list F) :
  length (sections size count arr) = count.
Proof.
  revert arr. induction count as [|count IH]; intros arr; simpl; [done|].
  rewrite IH. reflexivity.
Qed.

Lemma sections_each (size count : nat) (arr : list F) :
  (count * size ≤ length arr)%nat →
  Forall (λ sec, length sec = size) (sections size count arr).
Proof.
  revert arr. induction count as [|count IH]; intros arr Hlen; simpl.
  - constructor.
  - constructor.
    + rewrite length_take. simpl in Hlen. lia.
    + apply IH. rewrite length_drop. simpl in Hlen. lia.
Qed.

Lemma sections_concat (size count : nat) (arr : list F) :
  (count * size = length arr)%nat →
  concat (sections size count arr) = arr.
Proof.
  revert arr. induction count as [|count IH]; intros arr Hlen; simpl.
  - simpl in Hlen. symmetry in Hlen. apply length_zero_iff_nil in Hlen.
    symmetry; exact Hlen.
  - rewrite IH by (rewrite length_drop; simpl in Hlen; lia).
    apply take_drop.
Qed.

(** Column [j] of the sections is the stride-[size] sample of the array
    that starts at [j]. *)
Lemma sections_column (size count : nat) (arr : list F) (j : nat) :
  (j < size)%nat →
  column (sections size count arr) j =
  omap (λ s, arr !! (s * size + j)%nat) (seq 0 count).
Proof.
  intros Hj. unfold column.
  revert arr. induction count as [|count IH]; intros arr; simpl; [done|].
  rewrite lookup_take_lt by exact Hj.
  rewrite IH. rewrite <- seq_shift.
  assert (omap (λ s, drop size arr !! (s * size + j)%nat) (seq 0 count) =
          omap (λ s, arr !! (s * size + j)%nat) (map S (seq 0 count))) as ->.
  { clear IH. induction (seq 0 count) as [|s l IHl]; [done|].
    cbn [omap list_omap map]. rewrite lookup_drop.
    replace (S s * size + j)%nat with (size + (s * size + j))%nat by lia.
    rewrite IHl. reflexivity. }
  reflexivity.
Qed.

Lemma divides_nat (n : nat) (k : Z) :
  (1 ≤ k)%Z → (Z.of_nat n mod k = 0)%Z →
  (Z.to_nat k * (n / Z.to_nat k) = n)%nat ∧ (1 ≤ Z.to_nat k)%nat.
Proof.
  intros Hk Hmod. split; [|lia].
  assert (n mod Z.to_nat k = 0)%nat as Hm.
  { apply Nat2Z.inj. rewrite Nat2Z.inj_mod, Z2Nat.id by lia. exact Hmod. }
  symmetry. apply Nat.Div0.div_exact. exact Hm.
Qed.

Lemma np_split_divides (arr : list F) (k : Z) :
  (1 ≤ k)%Z → (Z.of_nat (length arr) mod k = 0)%Z →
  np_split arr k = Ok (sections (length arr / Z.to_nat k) (Z.to_nat k) arr).
Proof.
  intros Hk Hmod. unfold np_split, py_mod.
  destruct (k =? 0)%Z eqn:E; [lia|]. rewrite bind_Ok_l, Hmod. simpl.
  destruct (k <=? 0)%Z eqn:E'; [lia|]. reflexivity.
Qed.

End SplitFacts.

(** ** utils.py: [expand_bins] and [find_fano_factor] *)

Section UtilsFacts.
Context `{Arith F}.
Local Open Scope arith_scope.

Lemma omap_length_all {A B} (f : A → option B) (l : list A) :
  (∀ x, x ∈ l → is_Some (f x)) → length (omap f l) = length l.
Proof.
  induction l as [|x l IH]; intros Hall; [done|].
  cbn [omap list_omap]. destruct (Hall x) as [y Hy]; [left|].
  rewrite Hy. simpl. rewrite IH; [done|]. intros z Hz. apply Hall. right. exact Hz.
Qed.

Lemma np_mean_axis0_sections (size count : nat) (arr : list F) :
  (1 ≤ count)%nat → (count * size = length arr)%nat →
  np_mean_axis0 (sections size count arr) =
  map (λ j, np_sum (omap (λ s, arr !! (s * size + j)%nat) (seq 0 count))
            / of_count count)
      (seq 0 size).
Proof.
  intros Hc Hlen. destruct count as [|count]; [lia|].
  unfold np_mean_axis0. cbn [sections].
  rewrite length_take, Nat.min_l by (simpl in Hlen; lia).
  apply map_ext_in. intros j Hj. apply in_seq in Hj.
  change (take size arr :: sections size count (drop size arr))
    with (sections size (S count) arr).
  unfold np_mean. rewrite sections_column by lia.
  rewrite omap_length_all, length_seq; [done|].
  intros s Hs. apply elem_of_seq in Hs. apply lookup_lt_is_Some_2.
  rewrite <- Hlen. nia.
Qed.

(** C3 (amended). With a section count sf = int(new_dt/old_dt) >= 1
    that divides the length of the array, expand_bins returns an array
    of length len/sf (the length of one section), whose j-th entry is
    the mean, across the sf sections, of their j-th elements: of
    arr[j], arr[j + len/sf], arr[j + 2 len/sf], ... *)
Theorem expand_bins_across_sections (arr : list F) (new_dt old_dt q : F) (sf : Z) :
  py_div new_dt old_dt = Ok q → py_int q = Ok sf → (1 ≤ sf)%Z →
  (Z.of_nat (length arr) mod sf = 0)%Z →
  let count := Z.to_nat sf in
  let size := (length arr / count)%nat in
  ∃ out,
    expand_bins arr new_dt old_dt = Ok out
    ∧ length out = size
    ∧ ∀ j, (j < size)%nat →
        ∃ col, omap (λ s, arr !! (s * size + j)%nat) (seq 0 count) = col
               ∧ length col = count
               ∧ out !! j = Some (np_sum col / of_count count).
Proof.
  intros Hq Hsf Hpos Hmod count size.
  destruct (divides_nat (length arr) sf Hpos Hmod) as [Hdiv Hc].
  fold count in Hdiv, Hc. fold size in Hdiv.
  eexists. split; [|split].
  - unfold expand_bins. rewrite Hq, bind_Ok_l, Hsf, bind_Ok_l.
    rewrite (np_split_divides arr sf Hpos Hmod), bind_Ok_l.
    fold count. fold size.
    rewrite np_mean_axis0_sections by lia. reflexivity.
  - rewrite length_map, length_seq. reflexivity.
  - intros j Hj. eexists. split; [reflexivity|]. split.
    + rewrite omap_length_all, length_seq; [done|].
      intros s Hs. apply elem_of_seq in Hs. apply lookup_lt_is_Some_2.
      rewrite <- Hdiv. nia.
    + rewrite list_lookup_fmap, lookup_seq_lt by exact Hj. reflexivity.
Qed.

(** C4. With a window count w = int(time_range/dt) >= 1,
    find_fano_factor returns None exactly when w does not divide the
    length of the array; otherwise it cuts the array into w contiguous
    windows of equal length, sums each window and returns the variance
    of these counts divided by their mean. *)
Theorem find_fano_factor_spec (time_range dt q : F) (spike_locations : list F)
    (w : Z) :
  py_div time_range dt = Ok q → py_int q = Ok w → (1 ≤ w)%Z →
  let n := length spike_locations in
  (find_fano_factor time_range spike_locations dt = Ok None
     ↔ (Z.of_nat n mod w ≠ 0)%Z)
  ∧ ((Z.of_nat n mod w = 0)%Z →
       ∃ windows,
         length windows = Z.to_nat w
         ∧ Forall (λ win, length win = (n / Z.to_nat w)%nat) windows
         ∧ concat windows = spike_locations
         ∧ let counts := map np_sum windows in
           find_fano_factor time_range spike_locations dt =
             Ok (Some (np_var counts / np_mean counts))).
Proof.
  intros Hq Hw Hpos n.
  assert (find_fano_factor time_range spike_locations dt =
          if negb (Z.of_nat n mod w =? 0)%Z then Ok None
          else let! spike_windows := np_split spike_locations w in
               Ok (Some (np_var (np_sum_axis1 spike_windows)
                         / np_mean (np_sum_axis1 spike_windows)))) as Hrun.
  { unfold find_fano_factor. rewrite Hq, bind_Ok_l, Hw, bind_Ok_l.
    unfold py_mod. destruct (w =? 0)%Z eqn:E; [lia|]. reflexivity. }
  split.
  - rewrite Hrun. destruct (Z.of_nat n mod w =? 0)%Z eqn:E; simpl.
    + apply Z.eqb_eq in E. rewrite (np_split_divides _ _ Hpos E), bind_Ok_l.
      split; [discriminate|]. intros Hne. contradiction.
    + apply Z.eqb_neq in E. split; done.
  - intros Hmod.
    destruct (divides_nat n w Hpos Hmod) as [Hdiv Hc].
    exists (sections (n / Z.to_nat w) (Z.to_nat w) spike_locations).
    split; [apply sections_length|].
    split; [apply sections_each; fold n; lia|].
    split; [apply sections_concat; fold n; lia|].
    cbv zeta. rewrite Hrun, Hmod. simpl.
    rewrite (np_split_divides _ _ Hpos Hmod), bind_Ok_l. reflexivity.
Qed.

End UtilsFacts.

Section Utils_checks.
Import Binary64 Demo.
Local Open Scope float_scope.

(** The docstring-sized run: six bins, two sections. *)
Example expand_bins_run :
  expand_bins [1; 2; 3; 4; 5; 6] 2 1 = Ok [2.5; 3.5; 4.5].
Proof. vm_compute. reflexivity. Qed.

(** C3 (counterexample). Six bins with new_dt = 2 and old_dt = 1 give
    sf = 2, which divides 6; the result has three entries, not two, and
    is not the list of the means of the two contiguous halves. *)
Lemma expand_bins_not_per_segment :
  let arr := [1; 2; 3; 4; 5; 6] in
  bind (py_div 2 1) py_int = Ok 2%Z
  ∧ (Z.of_nat (length arr) mod 2 = 0)%Z
  ∧ map np_mean (sections 3 2 arr) = [2; 5]
  ∧ (∀ out, expand_bins arr 2 1 = Ok out →
        length out ≠ 2%nat ∧ out ≠ map np_mean (sections 3 2 arr)).
Proof.
  cbv zeta. split; [vm_compute; reflexivity|]. split; [reflexivity|].
  split; [vm_compute; reflexivity|].
  intros out Hout. rewrite expand_bins_run in Hout.
  injection Hout as <-. split; [simpl; lia|].
  vm_compute. discriminate.
Qed.

Lemma expand_bins_across_sections_witness :
  py_div 2 1 = Ok 2 ∧ py_int 2 = Ok 2%Z ∧ (1 ≤ 2)%Z
  ∧ (Z.of_nat (length [1; 2; 3; 4; 5; 6]) mod 2 = 0)%Z
  ∧ ∃ out, expand_bins [1; 2; 3; 4; 5; 6] 2 1 = Ok out ∧ length out = 3%nat.
Proof.
  split; [vm_compute; reflexivity|]. split; [vm_compute; reflexivity|].
  split; [lia|]. split; [reflexivity|].
  destruct (expand_bins_across_sections [1; 2; 3; 4; 5; 6] 2 1 2 2%Z)
    as (out & Hrun & Hlen & _);
    [vm_compute; reflexivity|vm_compute; reflexivity|lia|reflexivity|].
  exists out. split; [exact Hrun|exact Hlen].
Defined.

Example find_fano_factor_run :
  find_fano_factor 2 [1; 0; 1; 1; 0; 0] 1 = Ok (Some (0.25 / 1.5))
  ∧ find_fano_factor 4 [1; 0; 1; 1; 0; 0] 1 = Ok None.
Proof. split; vm_compute; reflexivity. Qed.

Lemma find_fano_factor_spec_witness :
  py_div 4 1 = Ok 4 ∧ py_int 4 = Ok 4%Z ∧ (1 ≤ 4)%Z
  ∧ (find_fano_factor 4 [1; 0; 1; 1; 0; 0] 1 = Ok None
     ↔ (Z.of_nat (length [1; 0; 1; 1; 0; 0]) mod 4 ≠ 0)%Z).
Proof.
  split; [vm_compute; reflexivity|]. split; [vm_compute; reflexivity|].
  split; [lia|].
  apply (find_fano_factor_spec 4 1 4 [1; 0; 1; 1; 0; 0] 4%Z);
    [vm_compute; reflexivity|vm_compute; reflexivity|lia].
Defined.

End Utils_checks.

(** ** Facts of binary64 arithmetic *)

Section Binary64Facts.
Import Binary64.
Local Open Scope Z_scope.

Lemma div_eucl_exact (q d : Z) : 0 < d → Z.div_eucl (q * d) d = (q, 0).
Proof.
  intros Hd. pose proof (Z.div_eucl_eq (q * d) d) as E.
  pose proof (Z.mod_pos_bound (q * d) d Hd) as Hr.
  unfold Z.modulo in Hr.
  destruct (Z.div_eucl (q * d) d) as [q' r]. specialize (E ltac:(lia)).
  assert (q' = q) by nia. subst q'. f_equal. lia.
Qed.

Lemma new_location_exact (n : Z) : new_location n 0 = loc_Exact.
Proof. unfold new_location. destruct (Z.even n); reflexivity. Qed.

(** [d / d] is exactly 1 for every finite nonzero [d]. *)
Lemma float_div_self (d : float) :
  finite_nonzero d = true → (d / d)%float = 1%float.
Proof.
  unfold finite_nonzero. intros Hd.
  destruct (Prim2SF d) as [| | |s m e] eqn:E; try discriminate.
  apply Prim2SF_inj. rewrite div_spec, E.
  unfold SF64div, SFdiv, SFdiv_core_binary.
  rewrite !Z.sub_diag.
  change (Z.min (fexp prec emax 0) 0) with (-53).
  change (0 - -53) with 53.
  cbv iota beta.
  rewrite Z.shiftl_mul_pow2 by lia.
  rewrite (Z.mul_comm (Z.pos m)), div_eucl_exact by lia.
  rewrite new_location_exact, xorb_nilpotent.
  vm_compute. reflexivity.
Qed.

Lemma Prim2SF_one : Prim2SF 1%float = S754_finite false 4503599627370496 (-52).
Proof. reflexivity. Qed.

(** [x / 1] is [x] for every [x], NaN and infinities included. *)
Lemma float_div_one (x : float) : (x / 1)%float = x.
Proof.
  apply Prim2SF_inj. rewrite div_spec, Prim2SF_one.
  pose proof (Prim2SF_valid x) as Hv.
  destruct (Prim2SF x) as [s|s| |s m e]; simpl;
    try (rewrite ?xorb_false_r; reflexivity).
  unfold valid_binary, bounded, canonical_mantissa in Hv.
  apply andb_true_iff in Hv. destruct Hv as [Hc He].
  apply Z.eqb_eq in Hc. apply Z.leb_le in He.
  unfold SF64div, SFdiv_core_binary.
  change (Zdigits2 4503599627370496 + -52) with 1.
  change (Zdigits2 (Z.pos m)) with (Z.pos (digits2_pos m)).
  set (d := Z.pos (digits2_pos m)) in *.
  set (E' := Z.min (fexp prec emax (d + e - 1)) (e - -52)).
  assert ((E' = e - 1 ∧ d = 53) ∨ E' = e) as Hcase.
  { unfold E', fexp, emin, emax, prec in *. lia. }
  rewrite xorb_false_r.
  destruct Hcase as [[HE Hd]|HE]; rewrite HE.
  - (* a normal number above the smallest binade *)
    replace (e - -52 - (e - 1)) with 53 by lia.
    cbv iota beta.
    rewrite Z.shiftl_mul_pow2 by lia.
    replace (Z.pos m * 2 ^ 53) with (Z.pos m~0 * 4503599627370496) by lia.
    rewrite div_eucl_exact by lia. rewrite new_location_exact.
    unfold binary_round_aux, shr_fexp.
    change (Zdigits2 (Z.pos m~0)) with (Z.pos (Pos.succ (digits2_pos m))).
    rewrite Pos2Z.inj_succ. fold d. rewrite Hd.
    replace (fexp prec emax (Z.succ 53 + (e - 1)) - (e - 1)) with 1
      by (unfold fexp, emin, emax, prec in *; lia).
    cbn [shr shr_record_of_loc SpecFloat.iter_pos shr_1 shr_m shr_r shr_s
         loc_of_shr_record round_nearest_even orb].
    replace (e - 1 + 1) with e by lia.
    change (Zdigits2 (Z.pos m)) with d.
    replace (fexp prec emax (d + e) - e) with 0 by lia.
    cbn [shr shr_record_of_loc shr_m].
    replace (e <=? emax - prec) with true by (symmetry; apply Z.leb_le; exact He).
    reflexivity.
  - (* the smallest binade and the subnormal numbers *)
    replace (e - -52 - e) with 52 by lia.
    cbv iota beta.
    rewrite Z.shiftl_mul_pow2 by lia.
    change (2 ^ 52) with 4503599627370496.
    rewrite div_eucl_exact by lia. rewrite new_location_exact.
    unfold binary_round_aux, shr_fexp.
    change (Zdigits2 (Z.pos m)) with d.
    replace (fexp prec emax (d + e) - e) with 0 by lia.
    cbn [shr shr_record_of_loc SpecFloat.iter_pos shr_1 shr_m shr_r shr_s
         loc_of_shr_record round_nearest_even orb].
    change (Zdigits2 (Z.pos m)) with d.
    replace (fexp prec emax (d + e) - e) with 0 by lia.
    cbn [shr shr_record_of_loc shr_m].
    replace (e <=? emax - prec) with true by (symmetry; apply Z.leb_le; exact He).
    reflexivity.
Qed.

Lemma finite_nonzero_neq_0 (d : float) :
  finite_nonzero d = true → (d =? 0)%float = false.
Proof.
  unfold finite_nonzero. intros Hd. rewrite FloatAxioms.eqb_spec.
  destruct (Prim2SF d) as [| | |s m e]; try discriminate.
  destruct s; reflexivity.
Qed.

End Binary64Facts.

Section ExpandBinsIdentity.
Import Binary64.
Local Open Scope float_scope.

(** Adding to the +0.0 accumulator keeps every value but -0.0, which
    comes back as +0.0. *)
Lemma float_zero_add (x : float) :
  same_value (0 + x) x
  ∧ (Prim2SF x ≠ S754_zero true → 0 + x = x)
  ∧ (Prim2SF x = S754_zero true → 0 + x = 0).
Proof.
  assert (Prim2SF (0 + x) =
          match Prim2SF x with
          | S754_zero _ => S754_zero false
          | sx => sx
          end) as E.
  { rewrite add_spec. change (Prim2SF 0) with (S754_zero false).
    destruct (Prim2SF x) as [[|]|[|]| |s m e]; reflexivity. }
  split; [|split].
  - destruct (Prim2SF x) as [s|s| |s m e] eqn:Ex;
      try (left; apply Prim2SF_inj; rewrite E, Ex; reflexivity).
    right. exists false, s. split; [exact E|exact Ex].
  - intros Hx. apply Prim2SF_inj. rewrite E.
    destruct (Prim2SF x) as [[|]|s| |s m e]; try reflexivity. contradiction.
  - intros Hx. apply Prim2SF_inj. rewrite E, Hx. reflexivity.
Qed.

(** The mean of a single value [x] is [0 + x]. *)
Lemma np_mean_single (x : float) : np_mean [x] = 0 + x.
Proof. unfold np_mean, np_sum. simpl. apply float_div_one. Qed.

(** What [expand_bins] returns when the quotient of the timesteps is
    exactly 1.0. *)
Lemma expand_bins_one_section (arr : list float) (new_dt old_dt : float) :
  (old_dt =? 0) = false → new_dt / old_dt = 1 →
  expand_bins arr new_dt old_dt = Ok (map (λ x, 0 + x) arr).
Proof.
  intros Hnz Hq. unfold expand_bins, py_div.
  change (feqb old_dt f0) with (old_dt =? 0). rewrite Hnz, bind_Ok_l.
  change (fdiv new_dt old_dt) with (new_dt / old_dt). rewrite Hq.
  change (py_int 1) with (Ok 1%Z : res Z). rewrite bind_Ok_l.
  rewrite np_split_divides by (rewrite ?Z.mod_1_r; lia).
  rewrite bind_Ok_l. change (Z.to_nat 1) with 1%nat. rewrite Nat.div_1_r.
  rewrite np_mean_axis0_sections by lia.
  f_equal. apply list_eq. intros j.
  rewrite !list_lookup_fmap.
  destruct (decide (j < length arr)%nat) as [Hj|Hj].
  - rewrite lookup_seq_lt by exact Hj. simpl.
    destruct (lookup_lt_is_Some_2 arr j Hj) as [x Hx]. rewrite Hx. simpl.
    f_equal. exact (np_mean_single x).
  - rewrite lookup_seq_ge by lia. rewrite lookup_ge_None_2 by lia. reflexivity.
Qed.

(** C7 (counterexample). With new_dt == old_dt == 0.0 there is no
    output: the call raises ZeroDivisionError; and with a timestep of
    1.0 the entry -0.0 comes back as +0.0, which is not the entry that
    went in. *)
Lemma expand_bins_identity_fails :
  (0 =? 0) = true
  ∧ expand_bins [0; 1; 1; 0; 1] 0 0 = Raise ZeroDivisionError
  ∧ (1 =? 1) = true
  ∧ expand_bins [-0] 1 1 = Ok [0]
  ∧ Prim2SF (-0) ≠ Prim2SF 0.
Proof.
  split; [reflexivity|]. split; [vm_compute; reflexivity|].
  split; [reflexivity|]. split; [vm_compute; reflexivity|].
  vm_compute. discriminate.
Qed.

(** C7 (amended). With new_dt == old_dt: for a finite nonzero timestep
    expand_bins returns an array of the same length whose entries equal
    those of the input as numbers; every entry is the very entry that
    went in, except -0.0, which comes back as +0.0.  For a zero
    timestep the call raises ZeroDivisionError, for an infinite one
    ValueError. *)
Theorem expand_bins_identity (arr : list float) (dt : float) :
  (finite_nonzero dt = true →
     ∃ out, expand_bins arr dt dt = Ok out
       ∧ length out = length arr
       ∧ ∀ j x, arr !! j = Some x →
           ∃ y, out !! j = Some y
             ∧ same_value y x
             ∧ (Prim2SF x ≠ S754_zero true → y = x)
             ∧ (Prim2SF x = S754_zero true → y = 0))
  ∧ ((dt =? 0) = true → expand_bins arr dt dt = Raise ZeroDivisionError)
  ∧ (∀ s, Prim2SF dt = S754_infinity s →
       expand_bins arr dt dt = Raise ValueError).
Proof.
  split; [|split].
  - intros Hdt. exists (map (λ x, 0 + x) arr).
    split; [|split].
    + apply expand_bins_one_section;
        [exact (finite_nonzero_neq_0 dt Hdt)|exact (float_div_self dt Hdt)].
    + apply length_map.
    + intros j x Hx. exists (0 + x).
      split; [rewrite list_lookup_fmap, Hx; reflexivity|].
      exact (float_zero_add x).
  - intros Hz. unfold expand_bins, py_div.
    change (feqb dt f0) with (dt =? 0). rewrite Hz. reflexivity.
  - intros s Hs. unfold expand_bins, py_div.
    change (feqb dt f0) with (dt =? 0).
    assert ((dt =? 0) = false) as Hnz.
    { rewrite FloatAxioms.eqb_spec, Hs. destruct s; reflexivity. }
    rewrite Hnz, bind_Ok_l.
    assert (Prim2SF (dt / dt) = S754_nan) as Hnan.
    { rewrite div_spec, Hs. destruct s; reflexivity. }
    change (fdiv dt dt) with (dt / dt).
    change (py_int (dt / dt)) with (to_int (dt / dt)).
    unfold to_int. rewrite Hnan. reflexivity.
Qed.

Lemma expand_bins_identity_witness :
  finite_nonzero 0.5 = true
  ∧ ∃ out, expand_bins [0; 1; 1; 0; 1] 0.5 0.5 = Ok out
           ∧ length out = length [0; 1; 1; 0; 1].
Proof.
  split; [reflexivity|].
  destruct (expand_bins_identity [0; 1; 1; 0; 1] 0.5) as [Hfin _].
  destruct (Hfin eq_refl) as (out & Hrun & Hlen & _).
  exists out. split; assumption.
Defined.

End ExpandBinsIdentity.

(** ** Construction of the parameters *)

Section ParametersFacts.
Context `{Arith F}.
Local Open Scope arith_scope.

(** C9 (amended). Constructing the parameters computes G_L = 1/R_m,
    tau_m = C_m/G_L and I_th = G_L*(V_th - E_L), once, and keeps the
    eighteen fields it was given.  It raises ZeroDivisionError, and no
    other exception, exactly when R_m == 0 or the reciprocal 1/R_m == 0
    (as for an infinite R_m). *)
Theorem NeuronParameters_init_spec (c_m e_l e_k r_m v_th v_reset : F)
    (o1 o2 o3 o4 o5 o6 o7 o8 o9 o10 o11 o12 : option F) :
  let r := NeuronParameters_init c_m e_l e_k r_m v_th v_reset
             o1 o2 o3 o4 o5 o6 o7 o8 o9 o10 o11 o12 in
  (r = Raise ZeroDivisionError
     ↔ (r_m =? f0) = true ∨ (f1 / r_m =? f0) = true)
  ∧ (∀ e, r = Raise e → e = ZeroDivisionError)
  ∧ (∀ p, r = Ok p →
       G_L p = f1 / r_m ∧ tau_m p = c_m / (f1 / r_m)
       ∧ I_th p = f1 / r_m * (v_th - e_l)
       ∧ C_m p = c_m ∧ E_L p = e_l ∧ E_K p = e_k ∧ R_m p = r_m
       ∧ V_th p = v_th ∧ V_reset p = v_reset
       ∧ [V_peak p; tau_vc p; tau_vth p; V_th_max p; tau_G_ref p; G_SRA p;
          Delta_G_SRA p; tau_SRA p; V_max p; Delta_th p; a p; b p]
         = [o1; o2; o3; o4; o5; o6; o7; o8; o9; o10; o11; o12]).
Proof.
  cbv zeta. unfold NeuronParameters_init, py_div.
  destruct (r_m =? f0) eqn:E1; simpl.
  - split; [|split].
    + split; [intros _; left; reflexivity|reflexivity].
    + intros e [= <-]. reflexivity.
    + discriminate.
  - destruct (f1 / r_m =? f0) eqn:E2; simpl.
    + split; [|split].
      * split; [intros _; right; reflexivity|reflexivity].
      * intros e [= <-]. reflexivity.
      * discriminate.
    + split; [|split].
      * split; [discriminate|intros [?|?]; discriminate].
      * discriminate.
      * intros p [= <-]. simpl. repeat split; reflexivity.
Qed.

End ParametersFacts.

Section Parameters_checks.
Import Binary64 Demo.
Local Open Scope float_scope.

Example unit_params_constructed : lif_params 1 0 0 1 1 0 = Ok unit_params.
Proof. vm_compute. reflexivity. Qed.

(** C9 (counterexample). An infinite membrane resistance is not zero,
    yet the constructor fails with a division by zero: G_L = 1/inf is
    0.0 and tau_m = C_m / G_L divides by it. *)
Lemma NeuronParameters_init_infinite_R_m :
  (infinity =? 0) = false
  ∧ lif_params 1 0 0 infinity 1 0 = Raise ZeroDivisionError.
Proof. split; vm_compute; reflexivity. Qed.

End Parameters_checks.

(** ** The abstract contract *)

Section DispatchFacts.
Context `{Arith F}.
Variable np_exp : F → F.

(** C8 (amended). dVdt fails with NotImplementedError on the base type
    and on both concrete models, neither of which overrides it; the
    concrete models define the voltage derivative under another name,
    dvdt, which the base type does not have.  simulate() on the base
    type fails with NotImplementedError, and each concrete model runs
    its own simulate. *)
Theorem abstract_contract (o : instance F) (step : nat) (w : world F) :
  call_dVdt o step = Raise NotImplementedError
  ∧ resolve BaseNeuronModel_cls "dvdt" = None
  ∧ resolve LIFModel_cls "dvdt" = Some LIFModel_cls
  ∧ resolve AELIFModel_cls "dvdt" = Some AELIFModel_cls
  ∧ match o with
    | Base_obj m => call_simulate np_exp o w = Raise NotImplementedError
    | LIF_obj m =>
        call_simulate np_exp o w =
          (let! (m', w') := LIFModel_simulate m w in Ok (LIF_obj m', w'))
    | AELIF_obj m =>
        call_simulate np_exp o w =
          (let! (m', w') := AELIFModel_simulate np_exp m w in
           Ok (AELIF_obj m', w'))
    end.
Proof.
  split; [|split; [|split; [|split]]]; try reflexivity.
  - destruct o; reflexivity.
  - destruct o; reflexivity.
Qed.

End DispatchFacts.

Section Dispatch_checks.
Import Binary64 Demo.

(** C8 (counterexample). Calling dVdt on a LIF model fails with
    NotImplementedError: LIFModel defines dvdt, not dVdt. *)
Lemma LIFModel_dVdt_not_implemented :
  call_dVdt (LIF_obj unit_lif) 1 = Raise NotImplementedError
  ∧ resolve LIFModel_cls "dVdt" = Some BaseNeuronModel_cls
  ∧ resolve AELIFModel_cls "dVdt" = Some BaseNeuronModel_cls.
Proof. repeat split; reflexivity. Qed.

End Dispatch_checks.

(** ** Sub-threshold input *)

Section Subthreshold_checks.
Import Binary64 Demo.
Local Open Scope float_scope.

(** C5 (counterexample). C_m = R_m = 1, E_L = 0, V_th = 1, so that
    I_th = 1, a constant current 0.5 < I_th, no noise, and a grid of
    step 4: the Euler step overshoots the threshold (V_new = 2 > 1) and
    the model fires at both steps. *)
Lemma LIFModel_subthreshold_fires :
  ∃ p self h0 self' w',
    lif_params 1 0 0 1 1 0 = Ok p
    ∧ (0.5 <? I_th p) = true
    ∧ LIFModel_init p 1%positive 2%positive 0 (λ _, 1)
        (store_of [0; 4; 8] [0.5; 0.5; 0.5]) = Ok (self, h0)
    ∧ LIFModel_simulate self {| heap := h0; stdout := [] |} = Ok (self', w')
    ∧ num_fire self' = 2%Z
    ∧ heap w' !! V self = Some [0; 0; 0]
    ∧ stdout w' = [4; 8].
Proof.
  eexists _, _, _, _, _.
  split; [vm_compute; reflexivity|].
  split; [vm_compute; reflexivity|].
  split; [vm_compute; reflexivity|].
  split; [vm_compute; reflexivity|].
  repeat split; vm_compute; reflexivity.
Qed.

End Subthreshold_checks.

Section Subthreshold.
Import Exact.
Local Open Scope R_scope.

Lemma LIF_proposed_below (p : NeuronParameters R) (dt v c x : R) :
  0 < R_m p → 0 < C_m p → 0 < dt <= R_m p * C_m p →
  v <= V_th p → c < 1 / R_m p * (V_th p - E_L p) →
  LIF_proposed p dt v c (x * 0 * R_sqrt.sqrt dt) <= V_th p.
Proof.
  intros HR HC [Hdt0 Hdt1] Hv Hc.
  unfold LIF_proposed. simpl.
  set (k := dt / (R_m p * C_m p)).
  assert (0 < R_m p * C_m p) as HRC by (apply Rmult_lt_0_compat; assumption).
  assert (k * (R_m p * C_m p) = dt) as Hk by (unfold k; field; lra).
  assert (0 < k <= 1) as [Hk0 Hk1] by (split; nra).
  assert (c * R_m p < V_th p - E_L p) as Hc'.
  { replace (V_th p - E_L p) with (1 / R_m p * (V_th p - E_L p) * R_m p)
      by (field; lra).
    apply Rmult_lt_compat_r; assumption. }
  replace (v + ((E_L p - v) / R_m p + c) / C_m p * dt + x * 0 * R_sqrt.sqrt dt)
    with (v + (E_L p - v + c * R_m p) * k) by (unfold k; field; lra).
  nra.
Qed.

Lemma filter_all_false {A} (f : A → bool) (l : list A) :
  (∀ x, In x l → f x = false) → List.filter f l = [].
Proof.
  induction l as [|x l IH]; intros Hall; [reflexivity|].
  simpl. rewrite (Hall x) by (left; reflexivity).
  apply IH. intros y Hy. apply Hall. right. exact Hy.
Qed.

(** C5 (amended). In exact arithmetic, for a LIF model with
    R_m > 0, C_m > 0, E_L <= V_th, a grid step 0 < dt <= R_m*C_m,
    noise_sigma == 0 and a constant input current c < I_th =
    G_L*(V_th - E_L): simulate() returns with num_fire == 0, and no
    entry of the voltage trace exceeds V_th. *)
Theorem LIFModel_subthreshold_silent (p : NeuronParameters R)
    (ltimes lI : loc) (normal : nat → R) (h : gmap loc (list R))
    (out ts cs : list R) (t0 t1 c : R) :
  0 < R_m p → 0 < C_m p → E_L p <= V_th p →
  I_th p = 1 / R_m p * (V_th p - E_L p) →
  h !! ltimes = Some ts → h !! lI = Some cs → length cs = length ts →
  ts !! 0%nat = Some t0 → ts !! 1%nat = Some t1 →
  0 < t1 - t0 <= R_m p * C_m p →
  (∀ j x, cs !! j = Some x → x = c) → c < I_th p →
  ∃ self h0 self' w' vs',
    LIFModel_init p ltimes lI 0 normal h = Ok (self, h0)
    ∧ LIFModel_simulate self {| heap := h0; stdout := out |} = Ok (self', w')
    ∧ num_fire self' = 0%Z
    ∧ heap w' !! V self = Some vs'
    ∧ Forall (λ v, v <= V_th p) vs'.
Proof.
  intros HR HC HEL HIth Hts Hcs Hlen H0 H1 Hdt Hconst Hc.
  rewrite HIth in Hc.
  assert (2 ≤ length ts)%nat as HN by (apply lookup_lt_Some in H1; lia).
  destruct (LIFModel_init_char p ltimes lI 0 normal h ts cs t0 t1
              Hts Hcs Hlen H0 H1)
    as (self & h0 & Hinit & Hok & Hbase & _ & _ & _).
  destruct (LIFModel_simulate_char self {| heap := h0; stdout := out |}
              ts cs _ _ Hok)
    as (self' & vs' & Hrun & Hl & Hv0 & Hrec & Hbase' & _); [lia|].
  assert (neuron_parameters self = p ∧ dt self = t1 - t0
          ∧ num_fire self = 0%Z) as (Ep & Edt & Enf) by (rewrite Hbase; done).
  rewrite Ep, Edt in *. simpl in Hl.
  rewrite length_insert, length_replicate in Hl.
  set (ns := map (λ x : R, fmul (fmul x 0) (fsqrt (fsub t1 t0)))
                 (map normal (seq 0 (length ts)))) in *.
  assert (∀ j, (j < length ts)%nat →
            ∃ v, vs' !! j = Some v ∧ v <= V_th p
                 ∧ ((1 ≤ j)%nat →
                    LIF_fires_at p (t1 - t0) vs' cs ns j = false)) as Hinv.
  { induction j as [|j IH]; intros Hj.
    - exists (E_L p). split; [|split; [exact HEL|lia]].
      rewrite Hv0. apply list_lookup_insert_eq. rewrite length_replicate. lia.
    - destruct IH as (v & Hv & Hle & _); [lia|].
      destruct (LIF_next_at_Some p (t1 - t0) vs' cs ns (S j))
        as (v' & c' & n & Hv' & Hc' & Hn & Hprop & Hnext);
        try lia.
      { unfold ns. rewrite !length_map, length_seq. lia. }
      simpl in Hv', Hc'. rewrite Nat.sub_0_r in Hv', Hc'.
      assert (v' = v) as -> by congruence.
      apply Hconst in Hc'. subst c'.
      assert (∃ x, n = x * 0 * R_sqrt.sqrt (t1 - t0)) as [x ->].
      { unfold ns in Hn. rewrite !list_lookup_fmap in Hn.
        destruct (seq 0 (length ts) !! S j) as [i|]; [|discriminate].
        simpl in Hn. injection Hn as <-. eexists; reflexivity. }
      pose proof (LIF_proposed_below p (t1 - t0) v c x HR HC Hdt Hle Hc) as Hb.
      assert (fltb (V_th p) (LIF_proposed p (t1 - t0) v c (x * 0 * R_sqrt.sqrt (t1 - t0)))
              = false) as Hno.
      { cbn [fltb arith]. unfold ltb. destruct (Rlt_dec _ _); [lra|reflexivity]. }
      exists (LIF_proposed p (t1 - t0) v c (x * 0 * R_sqrt.sqrt (t1 - t0))).
      split; [|split; [exact Hb|]].
      + rewrite Hrec by lia. rewrite Hnext. unfold LIF_update.
        cbv zeta. rewrite Hno. reflexivity.
      + intros _. unfold LIF_fires_at. rewrite Hprop. exact Hno. }
  eexists self, h0, self', _, vs'.
  split; [exact Hinit|]. split; [exact Hrun|]. simpl.
  split; [|split].
  - rewrite Hbase'. simpl. rewrite Enf.
    unfold LIF_fire_steps. rewrite filter_all_false; [reflexivity|].
    intros j Hj. apply in_seq in Hj.
    destruct (Hinv j) as (_ & _ & _ & Hf); [lia|]. apply Hf. lia.
  - apply lookup_insert_eq.
  - apply Forall_lookup. intros j v Hv.
    destruct (Hinv j) as (v' & Hv' & Hle & _).
    + apply lookup_lt_Some in Hv. lia.
    + congruence.
Qed.

End Subthreshold.

Section Subthreshold_witness.
Import Exact DemoExact.
Local Open Scope R_scope.

Lemma LIFModel_subthreshold_silent_witness :
  0 < R_m exact_params ∧ 0 < C_m exact_params
  ∧ 0 < 1 - 0 <= R_m exact_params * C_m exact_params
  ∧ / 2 < I_th exact_params
  ∧ ∃ self h0 self' w',
      LIFModel_init exact_params 1%positive 2%positive 0 (λ _, 1) half_store
        = Ok (self, h0)
      ∧ LIFModel_simulate self {| heap := h0; stdout := [] |} = Ok (self', w')
      ∧ num_fire self' = 0%Z.
Proof.
  assert (0 < R_m exact_params) as HR by (simpl; lra).
  assert (0 < C_m exact_params) as HC by (simpl; lra).
  assert (0 < 1 - 0 <= R_m exact_params * C_m exact_params) as Hdt
    by (simpl; lra).
  assert (/ 2 < I_th exact_params) as Hc by (simpl; lra).
  split; [exact HR|]. split; [exact HC|]. split; [exact Hdt|].
  split; [exact Hc|].
  destruct (LIFModel_subthreshold_silent exact_params 1%positive 2%positive
              (λ _, 1) half_store [] [0; 1; 2] [/ 2; / 2; / 2] 0 1 (/ 2)
              HR HC)
    as (self & h0 & self' & w' & vs' & Hinit & Hrun & Hnf & _);
    try reflexivity; try assumption.
  - simpl; lra.
  - intros [|[|[|j]]] x Hx; simpl in Hx;
      first [congruence | rewrite lookup_nil in Hx; discriminate].
  - exists self, h0, self', w'. repeat split; assumption.
Defined.

End Subthreshold_witness.

(** ** Runs without noise *)

Section SignedZero.
Import Binary64.
Local Open Scope float_scope.

Lemma same_value_refl x : same_value x x.
Proof. left; reflexivity. Qed.

Lemma same_value_SF x y :
  (Prim2SF x = Prim2SF y ∨
   ∃ s s', Prim2SF x = S754_zero s ∧ Prim2SF y = S754_zero s') →
  same_value x y.
Proof.
  intros [E|E]; [left; apply Prim2SF_inj; exact E|right; exact E].
Qed.

Ltac sv_cases :=
  repeat match goal with
         | |- context [xorb ?s _] => is_var s; destruct s; simpl
         | |- context [xorb _ ?s] => is_var s; destruct s; simpl
         | |- context [if ?s then _ else _] => is_var s; destruct s; simpl
         end;
  first [left; reflexivity | right; eauto].

Lemma same_value_add a a' b b' :
  same_value a a' → same_value b b' → same_value (a + b) (a' + b').
Proof.
  intros Ha Hb. apply same_value_SF.
  rewrite (add_spec a b), (add_spec a' b'). unfold SF64add.
  destruct Ha as [->|(s1 & s1' & -> & ->)];
    destruct Hb as [->|(s2 & s2' & -> & ->)];
    [left; reflexivity
    |destruct (Prim2SF a') as [sa|sa| |sa ma ea]
    |destruct (Prim2SF b') as [sa|sa| |sa ma ea]
    |]; simpl; sv_cases.
Qed.

Lemma same_value_sub a a' b b' :
  same_value a a' → same_value b b' → same_value (a - b) (a' - b').
Proof.
  intros Ha Hb. apply same_value_SF.
  rewrite (sub_spec a b), (sub_spec a' b'). unfold SF64sub.
  destruct Ha as [->|(s1 & s1' & -> & ->)];
    destruct Hb as [->|(s2 & s2' & -> & ->)];
    [left; reflexivity
    |destruct (Prim2SF a') as [sa|sa| |sa ma ea]
    |destruct (Prim2SF b') as [sa|sa| |sa ma ea]
    |]; simpl; sv_cases.
Qed.

Lemma same_value_mul a a' b b' :
  same_value a a' → same_value b b' → same_value (a * b) (a' * b').
Proof.
  intros Ha Hb. apply same_value_SF.
  rewrite (mul_spec a b), (mul_spec a' b'). unfold SF64mul.
  destruct Ha as [->|(s1 & s1' & -> & ->)];
    destruct Hb as [->|(s2 & s2' & -> & ->)];
    [left; reflexivity
    |destruct (Prim2SF a') as [sa|sa| |sa ma ea]
    |destruct (Prim2SF b') as [sa|sa| |sa ma ea]
    |]; simpl; sv_cases.
Qed.

(** Only in the dividend: [1 / 0.0] and [1 / -0.0] differ. *)
Lemma same_value_div_l a a' b :
  same_value a a' → same_value (a / b) (a' / b).
Proof.
  intros Ha. apply same_value_SF.
  rewrite (div_spec a b), (div_spec a' b). unfold SF64div.
  destruct Ha as [->|(s1 & s1' & -> & ->)]; [left; reflexivity|].
  destruct (Prim2SF b) as [sa|sa| |sa ma ea]; simpl; sv_cases.
Qed.

Lemma same_value_ltb t v v' :
  same_value v v' → (t <? v) = (t <? v').
Proof.
  intros Hv. rewrite (ltb_spec t v), (ltb_spec t v'). unfold SFltb.
  destruct Hv as [->|(s & s' & -> & ->)]; [reflexivity|].
  destruct (Prim2SF t) as [sa|sa| |sa ma ea]; simpl; try reflexivity;
    destruct sa; reflexivity.
Qed.

Lemma eqb_zero_SF x : (x =? 0) = true → ∃ s, Prim2SF x = S754_zero s.
Proof.
  rewrite (FloatAxioms.eqb_spec x 0). unfold SFeqb.
  destruct (Prim2SF x) as [sa|sa| |sa ma ea]; simpl; intros E.
  - eauto.
  - destruct sa; discriminate.
  - discriminate.
  - destruct sa; discriminate.
Qed.

Lemma finite_mul_zero d z s :
  finite d = true → Prim2SF z = S754_zero s →
  ∃ s', Prim2SF (d * z) = S754_zero s'.
Proof.
  unfold finite. intros Hd Hz. rewrite (mul_spec d z), Hz. unfold SF64mul.
  destruct (Prim2SF d) as [sa|sa| |sa ma ea]; try discriminate; simpl; eauto.
Qed.

(** With a zero [noise_sigma] two noise terms are zeros, or both NaN
    when [sqrt(dt)] is infinite or NaN. *)
Lemma noise_same_value d1 d2 sigma r :
  finite d1 = true → finite d2 = true → (sigma =? 0) = true →
  same_value (d1 * sigma * r) (d2 * sigma * r).
Proof.
  intros H1 H2 Hs. apply same_value_mul; [|apply same_value_refl].
  destruct (eqb_zero_SF sigma Hs) as [s Hsig].
  destruct (finite_mul_zero d1 sigma s H1 Hsig) as [z1 E1].
  destruct (finite_mul_zero d2 sigma s H2 Hsig) as [z2 E2].
  right. eauto.
Qed.

Lemma LIF_proposed_same_value (p : NeuronParameters float) dt v v' c n n' :
  same_value v v' → same_value n n' →
  same_value (LIF_proposed p dt v c n) (LIF_proposed p dt v' c n').
Proof.
  intros Hv Hn. unfold LIF_proposed. cbn [fadd fsub fmul fdiv arith].
  apply same_value_add; [|exact Hn].
  apply same_value_add; [exact Hv|].
  apply same_value_mul; [|apply same_value_refl].
  apply same_value_div_l. apply same_value_add; [|apply same_value_refl].
  apply same_value_div_l. apply same_value_sub; [apply same_value_refl|exact Hv].
Qed.

Lemma LIF_update_same_value (p : NeuronParameters float) dt v v' c n n' :
  same_value v v' → same_value n n' →
  same_value (LIF_update p dt v c n) (LIF_update p dt v' c n')
  ∧ fltb (V_th p) (LIF_proposed p dt v c n)
    = fltb (V_th p) (LIF_proposed p dt v' c n').
Proof.
  intros Hv Hn.
  pose proof (LIF_proposed_same_value p dt v v' c n n' Hv Hn) as Hx.
  pose proof (same_value_ltb (V_th p) _ _ Hx) as Hlt.
  split; [|exact Hlt].
  unfold LIF_update. cbv zeta. cbn [fltb arith]. rewrite Hlt.
  destruct (V_th p <? LIF_proposed p dt v' c n');
    [apply same_value_refl|exact Hx].
Qed.

End SignedZero.

Section ZeroNoise.
Import Binary64 Demo.
Local Open Scope float_scope.

(** C6 (counterexample). Two models on the same parameters
    (E_L = -0.0), grid [0, 0.25] and current [-5e-324, 0], with
    noise_sigma = 0: the Euler step underflows to -0.0, the noise term
    is +0.0 for a positive sample and -0.0 for a negative one, and
    V[1] comes out as +0.0 in one run and -0.0 in the other. *)
Lemma LIFModel_zero_noise_sign :
  ∃ p self1 g1 self1' w1' self2 g2 self2' w2',
    lif_params 1 neg_zero 0 1 1 0 = Ok p
    ∧ LIFModel_init p 1%positive 2%positive 0 (λ _, 1)
        (store_of [0; 0.25] [- 0x1p-1074; 0]) = Ok (self1, g1)
    ∧ LIFModel_init p 1%positive 2%positive 0 (λ _, -1)
        (store_of [0; 0.25] [- 0x1p-1074; 0]) = Ok (self2, g2)
    ∧ LIFModel_simulate self1 {| heap := g1; stdout := [] |} = Ok (self1', w1')
    ∧ LIFModel_simulate self2 {| heap := g2; stdout := [] |} = Ok (self2', w2')
    ∧ heap w1' !! V self1 = Some [neg_zero; 0]
    ∧ heap w2' !! V self2 = Some [neg_zero; neg_zero]
    ∧ [neg_zero; 0] ≠ [neg_zero; neg_zero].
Proof.
  eexists _, _, _, _, _, _, _, _, _.
  split; [vm_compute; reflexivity|].
  split; [vm_compute; reflexivity|].
  split; [vm_compute; reflexivity|].
  split; [vm_compute; reflexivity|].
  split; [vm_compute; reflexivity|].
  split; [vm_compute; reflexivity|].
  split; [vm_compute; reflexivity|].
  intros E. apply (f_equal (λ l, Prim2SF <$> l !! 1%nat)) in E.
  vm_compute in E. discriminate.
Qed.

Lemma LIF_fire_steps_ext (p : NeuronParameters float) dt vs vs' cs ns ns' k :
  (∀ j, (1 ≤ j ≤ k)%nat →
        LIF_fires_at p dt vs cs ns j = LIF_fires_at p dt vs' cs ns' j) →
  LIF_fire_steps p dt vs cs ns k = LIF_fire_steps p dt vs' cs ns' k.
Proof.
  intros Hext. unfold LIF_fire_steps. apply List.filter_ext_in.
  intros j Hj. apply in_seq in Hj. apply Hext. lia.
Qed.

(** C6 (amended). Two LIF models constructed with the same parameters,
    the same time grid, the same input current and noise_sigma == 0,
    whatever (finite) samples the random source returns to each: both
    runs of simulate() return, with equal num_fire and with voltage
    traces of equal length that are equal entry by entry as numbers
    (identical, or zeros that differ in sign at most). *)
Theorem LIFModel_zero_noise_deterministic (p : NeuronParameters float)
    (ltimes lI : loc) (sigma : float) (normal1 normal2 : nat → float)
    (h1 h2 : gmap loc (list float)) (out1 out2 ts cs : list float)
    (t0 t1 : float) :
  (sigma =? 0) = true →
  (∀ k, finite (normal1 k) = true) → (∀ k, finite (normal2 k) = true) →
  h1 !! ltimes = Some ts → h1 !! lI = Some cs →
  h2 !! ltimes = Some ts → h2 !! lI = Some cs →
  length cs = length ts → ts !! 0%nat = Some t0 → ts !! 1%nat = Some t1 →
  ∃ self1 g1 self1' w1' vs1 self2 g2 self2' w2' vs2,
    LIFModel_init p ltimes lI sigma normal1 h1 = Ok (self1, g1)
    ∧ LIFModel_simulate self1 {| heap := g1; stdout := out1 |} = Ok (self1', w1')
    ∧ heap w1' !! V self1 = Some vs1
    ∧ LIFModel_init p ltimes lI sigma normal2 h2 = Ok (self2, g2)
    ∧ LIFModel_simulate self2 {| heap := g2; stdout := out2 |} = Ok (self2', w2')
    ∧ heap w2' !! V self2 = Some vs2
    ∧ Forall2 same_value vs1 vs2
    ∧ num_fire self1' = num_fire self2'.
Proof.
  intros Hsig Hf1 Hf2 Hts1 Hcs1 Hts2 Hcs2 Hlen H0 H1.
  assert (2 ≤ length ts)%nat as HN by (apply lookup_lt_Some in H1; lia).
  destruct (LIFModel_init_char p ltimes lI sigma normal1 h1 ts cs t0 t1
              Hts1 Hcs1 Hlen H0 H1)
    as (self1 & g1 & Hinit1 & Hok1 & Hbase1 & _ & _ & _).
  destruct (LIFModel_init_char p ltimes lI sigma normal2 h2 ts cs t0 t1
              Hts2 Hcs2 Hlen H0 H1)
    as (self2 & g2 & Hinit2 & Hok2 & Hbase2 & _ & _ & _).
  destruct (LIFModel_simulate_char self1 {| heap := g1; stdout := out1 |}
              ts cs _ _ Hok1)
    as (self1' & vs1 & Hrun1 & Hl1 & Hv1 & Hrec1 & Hb1 & _); [lia|].
  destruct (LIFModel_simulate_char self2 {| heap := g2; stdout := out2 |}
              ts cs _ _ Hok2)
    as (self2' & vs2 & Hrun2 & Hl2 & Hv2 & Hrec2 & Hb2 & _); [lia|].
  assert (neuron_parameters self1 = p ∧ dt self1 = fsub t1 t0
          ∧ num_fire self1 = 0%Z) as (Ep1 & Ed1 & En1) by (rewrite Hbase1; done).
  assert (neuron_parameters self2 = p ∧ dt self2 = fsub t1 t0
          ∧ num_fire self2 = 0%Z) as (Ep2 & Ed2 & En2) by (rewrite Hbase2; done).
  rewrite Ep1, Ed1 in *. rewrite Ep2, Ed2 in *.
  set (dt := fsub t1 t0) in *.
  set (ns1 := map (λ x, fmul (fmul x sigma) (fsqrt dt))
                  (map normal1 (seq 0 (length ts)))) in *.
  set (ns2 := map (λ x, fmul (fmul x sigma) (fsqrt dt))
                  (map normal2 (seq 0 (length ts)))) in *.
  rewrite length_insert, length_replicate in Hl1, Hl2.
  assert (∀ j n n', ns1 !! j = Some n → ns2 !! j = Some n' → same_value n n')
    as Hnoise.
  { intros j n n' Hn Hn'. unfold ns1, ns2 in *.
    rewrite !list_lookup_fmap in Hn, Hn'.
    destruct (seq 0 (length ts) !! j) as [i|]; [|discriminate].
    simpl in Hn, Hn'. injection Hn as <-. injection Hn' as <-.
    apply noise_same_value; auto. }
  assert (∀ j, (j < length ts)%nat →
            ∃ v v', vs1 !! j = Some v ∧ vs2 !! j = Some v' ∧ same_value v v'
                    ∧ ((1 ≤ j)%nat →
                       LIF_fires_at p dt vs1 cs ns1 j
                       = LIF_fires_at p dt vs2 cs ns2 j)) as Hinv.
  { induction j as [|j IH]; intros Hj.
    - exists (E_L p), (E_L p).
      rewrite Hv1, Hv2, list_lookup_insert_eq by (rewrite length_replicate; lia).
      split; [reflexivity|]. split; [reflexivity|].
      split; [apply same_value_refl|lia].
    - destruct IH as (v & v' & Hv & Hv' & Hsame & _); [lia|].
      destruct (LIF_next_at_Some p dt vs1 cs ns1 (S j))
        as (u & c & n & Hu & Hc & Hn & Hprop & Hnext); try lia.
      { unfold ns1. rewrite !length_map, length_seq. lia. }
      destruct (LIF_next_at_Some p dt vs2 cs ns2 (S j))
        as (u' & c' & n' & Hu' & Hc' & Hn' & Hprop' & Hnext'); try lia.
      { unfold ns2. rewrite !length_map, length_seq. lia. }
      simpl in Hu, Hu', Hc, Hc'. rewrite Nat.sub_0_r in Hu, Hu', Hc, Hc'.
      assert (u = v) as -> by congruence.
      assert (u' = v') as -> by congruence.
      assert (c' = c) as -> by congruence.
      destruct (LIF_update_same_value p dt v v' c n n' Hsame
                  (Hnoise _ _ _ Hn Hn')) as [Hupd Hlt].
      exists (LIF_update p dt v c n), (LIF_update p dt v' c n').
      split; [rewrite Hrec1 by lia; exact Hnext|].
      split; [rewrite Hrec2 by lia; exact Hnext'|].
      split; [exact Hupd|].
      intros _. unfold LIF_fires_at. rewrite Hprop, Hprop'. exact Hlt. }
  eexists self1, g1, self1', _, vs1, self2, g2, self2', _, vs2.
  split; [exact Hinit1|]. split; [exact Hrun1|].
  split; [apply lookup_insert_eq|].
  split; [exact Hinit2|]. split; [exact Hrun2|].
  split; [apply lookup_insert_eq|]. split.
  - apply Forall2_same_length_lookup. split; [congruence|].
    intros j v v' Hv Hv'.
    destruct (Hinv j) as (u & u' & Hu & Hu' & Hsame & _).
    + apply lookup_lt_Some in Hv. lia.
    + congruence.
  - rewrite Hb1, Hb2. simpl. rewrite En1, En2. do 3 f_equal.
    apply LIF_fire_steps_ext. intros j Hj.
    destruct (Hinv j) as (_ & _ & _ & _ & _ & Hf); [lia|]. apply Hf. lia.
Qed.

Lemma LIFModel_zero_noise_deterministic_witness :
  (0 =? 0) = true
  ∧ (∀ k : nat, finite 1 = true) ∧ (∀ k : nat, finite (-1) = true)
  ∧ ∃ self1 g1 self1' w1' self2 g2 self2' w2',
      LIFModel_init unit_params 1%positive 2%positive 0 (λ _, 1)
        (store_of [0; 1; 2] [2; 2; 2]) = Ok (self1, g1)
      ∧ LIFModel_simulate self1 {| heap := g1; stdout := [] |} = Ok (self1', w1')
      ∧ LIFModel_init unit_params 1%positive 2%positive 0 (λ _, -1)
          (store_of [0; 1; 2] [2; 2; 2]) = Ok (self2, g2)
      ∧ LIFModel_simulate self2 {| heap := g2; stdout := [] |} = Ok (self2', w2')
      ∧ num_fire self1' = num_fire self2'.
Proof.
  split; [reflexivity|]. split; [intros _; reflexivity|].
  split; [intros _; reflexivity|].
  destruct (LIFModel_zero_noise_deterministic unit_params 1%positive 2%positive
              0 (λ _, 1) (λ _, -1)
              (store_of [0; 1; 2] [2; 2; 2]) (store_of [0; 1; 2] [2; 2; 2])
              [] [] [0; 1; 2] [2; 2; 2] 0 1)
    as (self1 & g1 & self1' & w1' & vs1 & self2 & g2 & self2' & w2' & vs2
        & Hi1 & Hr1 & _ & Hi2 & Hr2 & _ & _ & Hnf);
    try reflexivity.
  exists self1, g1, self1', w1', self2, g2, self2', w2'.
  repeat split; assumption.
Defined.

End ZeroNoise.

(** ** Exceptions stop a loop *)

Section Loops.
Context {S : Type}.

Lemma fold_bind_Raise (body : nat → S → res S) (l : list nat) (e : exn) :
  fold_left (λ acc i, bind acc (body i)) l (Raise e) = Raise e.
Proof. induction l as [|i l IH]; [reflexivity|exact IH]. Qed.

Lemma for_range_split (lo mid hi : nat) (body : nat → S → res S) (s : S) :
  (lo ≤ mid ≤ hi)%nat →
  for_range lo hi body s = bind (for_range lo mid body s) (for_range mid hi body).
Proof.
  intros Hle. unfold for_range.
  replace (hi - lo)%nat with ((mid - lo) + (hi - mid))%nat by lia.
  rewrite seq_app, fold_left_app.
  replace (lo + (mid - lo))%nat with mid by lia.
  destruct (fold_left _ (seq lo (mid - lo)) (Ok s)) as [s'|e]; simpl.
  - reflexivity.
  - apply fold_bind_Raise.
Qed.

Lemma for_range_first_Raise (lo hi : nat) (body : nat → S → res S) (s : S) e :
  (lo < hi)%nat → body lo s = Raise e → for_range lo hi body s = Raise e.
Proof.
  intros Hlt Hbody. unfold for_range.
  replace (hi - lo)%nat with (Datatypes.S (hi - lo - 1)) by lia.
  simpl. rewrite Hbody. apply fold_bind_Raise.
Qed.

End Loops.

(** ** Construction over short grids *)

Section ConstructionErrors.
Context `{Arith F}.
Variable neg_inf : F.
Local Open Scope arith_scope.

Lemma BaseNeuronModel_init_short (p : NeuronParameters F) (ltimes lI : loc)
    (h : gmap loc (list F)) (ts : list F) :
  h !! ltimes = Some ts → (length ts < 2)%nat →
  BaseNeuronModel_init p ltimes lI h = Raise IndexError.
Proof.
  intros Hts Hlen. unfold BaseNeuronModel_init.
  rewrite (arr_len_Some _ _ _ Hts), bind_Ok_l. unfold alloc.
  set (v := fresh (dom h)).
  assert (h !! v = None) as Hv by apply not_elem_of_dom, is_fresh.
  assert (ltimes ≠ v) as Hne by congruence.
  destruct ts as [|t0 [|t1 ts]]; simpl in Hlen; [| |lia].
  - unfold arr_set. rewrite lookup_insert_eq. reflexivity.
  - rewrite (arr_set_Some _ v (replicate 1 f0) 0 (E_L p));
      [|apply lookup_insert_eq|simpl; lia].
    rewrite bind_Ok_l. unfold arr_get.
    rewrite lookup_insert_ne by (apply not_eq_sym; exact Hne).
    rewrite lookup_insert_ne by (apply not_eq_sym; exact Hne).
    rewrite Hts. reflexivity.
Qed.

(** X1. Constructing a model needs a grid of two points at least: over a
    shorter grid every constructor raises IndexError (at [V[0]] for an
    empty grid, at [times[1]] for a single point); over a longer one
    the LIF constructor returns, whatever the input current is. *)
Theorem init_grid_length (p : NeuronParameters F) (ltimes lI : loc)
    (sigma : F) (isi : option (list F)) (normal : nat → F)
    (h : gmap loc (list F)) (ts : list F) :
  h !! ltimes = Some ts →
  ((length ts < 2)%nat →
     BaseNeuronModel_init p ltimes lI h = Raise IndexError
     ∧ LIFModel_init p ltimes lI sigma normal h = Raise IndexError
     ∧ AELIFModel_init neg_inf p ltimes lI sigma isi normal h = Raise IndexError)
  ∧ ((2 ≤ length ts)%nat →
     ∃ self h', LIFModel_init p ltimes lI sigma normal h = Ok (self, h')
       ∧ h !! V self = None
       ∧ h' !! V self = Some (<[0%nat := E_L p]> (replicate (length ts) f0))
       ∧ (∀ l arr, h !! l = Some arr → h' !! l = Some arr)).
Proof.
  intros Hts. split.
  - intros Hlen.
    pose proof (BaseNeuronModel_init_short p ltimes lI h ts Hts Hlen) as E.
    split; [exact E|]. unfold AELIFModel_init, LIFModel_init. rewrite E.
    split; reflexivity.
  - intros Hlen.
    destruct ts as [|t0 [|t1 ts']] eqn:Ets; simpl in Hlen; try lia.
    rewrite <- Ets in *.
    assert (ts !! 0%nat = Some t0) as H0 by (rewrite Ets; reflexivity).
    assert (ts !! 1%nat = Some t1) as H1 by (rewrite Ets; reflexivity).
    destruct (BaseNeuronModel_init_char p ltimes lI h ts t0 t1 Hts H0 H1)
      as [Hbase Hv].
    set (v := fresh (dom h)) in *.
    set (vs := <[0%nat := E_L p]> (replicate (length ts) f0)) in *.
    set (h1 := <[v := vs]> h) in *.
    assert (h1 !! ltimes = Some ts) as Hts1.
    { unfold h1. rewrite lookup_insert_ne; [exact Hts|congruence]. }
    assert (h1 !! fresh (dom h1) = None) as Hln by apply not_elem_of_dom, is_fresh.
    eexists _, _. split; [|split; [|split]].
    + unfold LIFModel_init. rewrite Hbase, bind_Ok_l.
      rewrite (arr_len_Some _ _ _ Hts1), bind_Ok_l. reflexivity.
    + exact Hv.
    + simpl. rewrite lookup_insert_ne; [apply lookup_insert_eq|].
      intros E. rewrite E in Hln. unfold h1 in Hln.
      rewrite lookup_insert_eq in Hln. discriminate.
    + intros l arr Hl. simpl.
      assert (h1 !! l = Some arr) as Hl1.
      { unfold h1. rewrite lookup_insert_ne; [exact Hl|congruence]. }
      rewrite lookup_insert_ne; [exact Hl1|congruence].
Qed.

End ConstructionErrors.

(** ** Input currents of another length *)

Section CurrentLength.
Context `{Arith F}.
Local Open Scope arith_scope.

Lemma LIFModel_step_layout (self : LIFModel F) (w : world F)
    (ts cs vs ns : list F) (i : nat) :
  LIF_layout self (heap w) ts cs vs ns →
  (1 ≤ i < length ts)%nat → (i ≤ length cs)%nat →
  ∃ self' w' vs',
    LIFModel_step i (self, w) = Ok (self', w')
    ∧ LIF_layout self' (heap w') ts cs vs' ns.
Proof.
  intros [Hts Hcs Hvs (ln & Hln & Hns & Hsep) HlV Hln' Hs1 Hs2] Hi Hc.
  destruct (lookup_lt_is_Some_2 vs (i - 1)) as [v Hv]; [lia|].
  destruct (lookup_lt_is_Some_2 cs (i - 1)) as [c Hc']; [lia|].
  destruct (lookup_lt_is_Some_2 ns i) as [n Hn]; [lia|].
  destruct (lookup_lt_is_Some_2 ts i) as [t Ht]; [lia|].
  unfold LIFModel_step.
  rewrite (arr_get_Some _ _ _ _ _ Hvs Hv), !bind_Ok_l.
  rewrite (arr_get_Some _ _ _ _ _ Hcs Hc'), !bind_Ok_l.
  rewrite Hln, (arr_get_Some _ _ _ _ _ Hns Hn), !bind_Ok_l.
  set (x := v + LIFModel_dvdt self v c * dt self + n).
  assert (∀ y, LIF_layout self (<[V self := <[i := y]> vs]> (heap w)) ts cs
                 (<[i := y]> vs) ns) as Hlay.
  { intros y. constructor; try done.
    - rewrite lookup_insert_ne; done.
    - rewrite lookup_insert_ne; done.
    - apply lookup_insert_eq.
    - exists ln. rewrite lookup_insert_ne; done.
    - rewrite length_insert. exact HlV. }
  destruct (x >? V_th (neuron_parameters self)).
  - rewrite (arr_get_Some _ _ _ _ _ Hts Ht), !bind_Ok_l. simpl.
    rewrite (arr_set_Some _ _ _ _ _ Hvs) by lia. rewrite bind_Ok_l.
    eexists _, _, (<[i := V_reset (neuron_parameters self)]> vs).
    split; [reflexivity|]. simpl.
    destruct (Hlay (V_reset (neuron_parameters self))) as [].
    constructor; simpl; assumption.
  - rewrite bind_Ok_l. simpl.
    rewrite (arr_set_Some _ _ _ _ _ Hvs) by lia. rewrite bind_Ok_l.
    eexists _, _, _. split; [reflexivity|]. simpl. apply Hlay.
Qed.

Lemma LIFModel_step_short (self : LIFModel F) (w : world F)
    (ts cs vs ns : list F) (i : nat) :
  LIF_layout self (heap w) ts cs vs ns →
  (1 ≤ i < length ts)%nat → (length cs < i)%nat →
  LIFModel_step i (self, w) = Raise IndexError.
Proof.
  intros [Hts Hcs Hvs _ HlV _ _ _] Hi Hc.
  destruct (lookup_lt_is_Some_2 vs (i - 1)) as [v Hv]; [lia|].
  unfold LIFModel_step.
  rewrite (arr_get_Some _ _ _ _ _ Hvs Hv), !bind_Ok_l.
  unfold arr_get at 1. rewrite Hcs.
  rewrite lookup_ge_None_2 by lia. reflexivity.
Qed.

Lemma LIFModel_loop_layout (self : LIFModel F) (w : world F)
    (ts cs vs ns : list F) (k : nat) :
  LIF_layout self (heap w) ts cs vs ns →
  (k < length ts)%nat → (k ≤ length cs)%nat →
  ∃ self' w' vs',
    for_range 1 (S k) LIFModel_step (self, w) = Ok (self', w')
    ∧ LIF_layout self' (heap w') ts cs vs' ns.
Proof.
  intros Hlay Hk Hc. induction k as [|k IH].
  - exists self, w, vs. rewrite for_range_nil. split; [reflexivity|exact Hlay].
  - destruct IH as (self1 & w1 & vs1 & Hrun & Hlay1); [lia|lia|].
    destruct (LIFModel_step_layout self1 w1 ts cs vs1 ns (S k) Hlay1)
      as (self2 & w2 & vs2 & Hstep & Hlay2); [lia|lia|].
    exists self2, w2, vs2. split; [|exact Hlay2].
    rewrite for_range_snoc by lia. rewrite Hrun, bind_Ok_l. exact Hstep.
Qed.

(** X2. [simulate] reads [I[0..N-2]] and nothing else of the input current:
    it returns whenever the current has N-1 entries or more, and raises
    IndexError exactly when it has fewer. *)
Theorem LIFModel_simulate_current_length (self : LIFModel F) (w : world F)
    (ts cs vs ns : list F) :
  LIF_layout self (heap w) ts cs vs ns →
  (1 ≤ length ts)%nat →
  ((length ts - 1 ≤ length cs)%nat → is_Ok (LIFModel_simulate self w))
  ∧ ((length cs < length ts - 1)%nat →
       LIFModel_simulate self w = Raise IndexError).
Proof.
  intros Hlay Hlen.
  assert (LIFModel_simulate self w = for_range 1 (length ts) LIFModel_step (self, w))
    as Hsim.
  { unfold LIFModel_simulate.
    rewrite (arr_len_Some _ _ _ (lay_times _ _ _ _ _ _ Hlay)). reflexivity. }
  rewrite Hsim. split; intros Hcs.
  - destruct (LIFModel_loop_layout self w ts cs vs ns (length ts - 1) Hlay)
      as (self' & w' & vs' & Hrun & _); [lia|lia|].
    replace (S (length ts - 1)) with (length ts) in Hrun by lia.
    eexists. exact Hrun.
  - destruct (LIFModel_loop_layout self w ts cs vs ns (length cs) Hlay)
      as (self' & w' & vs' & Hrun & Hlay'); [lia|lia|].
    rewrite (for_range_split 1 (S (length cs)) (length ts)) by lia.
    rewrite Hrun, bind_Ok_l.
    apply for_range_first_Raise; [lia|].
    apply (LIFModel_step_short self' w' ts cs vs' ns); [exact Hlay'|lia|lia].
Qed.

End CurrentLength.

(** ** More on the runs of [LIFModel.simulate] *)

Section LIFRuns.
Context `{Arith F}.
Local Open Scope arith_scope.

(** The recurrence of C1 has one solution from a given [V[0]]. *)
Lemma LIF_trace_unique (p : NeuronParameters F) (dt : F)
    (cs ns vs1 vs2 : list F) (n : nat) :
  length vs1 = n → length vs2 = n →
  vs1 !! 0%nat = vs2 !! 0%nat →
  (∀ j, (1 ≤ j < n)%nat → vs1 !! j = LIF_next_at p dt vs1 cs ns j) →
  (∀ j, (1 ≤ j < n)%nat → vs2 !! j = LIF_next_at p dt vs2 cs ns j) →
  vs1 = vs2.
Proof.
  intros Hl1 Hl2 H0 Hr1 Hr2. apply list_eq. intros j.
  destruct (decide (j < n)%nat) as [Hj|Hj].
  - induction j as [|j IH]; [exact H0|].
    rewrite Hr1, Hr2 by lia. unfold LIF_next_at, LIF_proposed_at. simpl.
    rewrite Nat.sub_0_r, IH by lia. reflexivity.
  - rewrite !lookup_ge_None_2 by lia. reflexivity.
Qed.

(** X3. After [simulate], an entry of the voltage trace past index 0 is the
    reset potential or a value that is not above threshold. *)
Theorem LIFModel_simulate_below_threshold (self : LIFModel F) (w : world F)
    (ts cs vs ns : list F) :
  LIF_state_ok self (heap w) ts cs vs ns →
  (1 ≤ length ts)%nat →
  ∃ self' w' vs',
    LIFModel_simulate self w = Ok (self', w')
    ∧ heap w' !! V self = Some vs'
    ∧ ∀ i v, (1 ≤ i)%nat → vs' !! i = Some v →
        v = V_reset (neuron_parameters self)
        ∨ (v >? V_th (neuron_parameters self)) = false.
Proof.
  intros Hok Hlen.
  destruct (LIFModel_simulate_char self w ts cs vs ns Hok Hlen)
    as (self' & vs' & Hrun & Hl & _ & Hrec & _).
  eexists self', _, vs'. split; [exact Hrun|]. simpl.
  split; [apply lookup_insert_eq|].
  intros i v Hi Hv.
  assert (i < length ts)%nat as Hlt.
  { apply lookup_lt_Some in Hv. rewrite Hl, (ok_len_V _ _ _ _ _ _ Hok) in Hv.
    exact Hv. }
  destruct (LIF_next_at_Some (neuron_parameters self) (dt self) vs' cs ns i)
    as (u & c & n & _ & _ & _ & _ & Hnext); try lia.
  { rewrite Hl, (ok_len_V _ _ _ _ _ _ Hok). lia. }
  { rewrite (ok_len_I _ _ _ _ _ _ Hok). lia. }
  { rewrite (ok_len_noises _ _ _ _ _ _ Hok). lia. }
  rewrite Hrec, Hnext in Hv by lia. injection Hv as <-.
  unfold LIF_update. cbv zeta.
  destruct (_ >? V_th (neuron_parameters self)) eqn:E; [left|right]; done.
Qed.

(** X4. A second run of [simulate] recomputes the same voltage trace: the
    store is left as the first run left it, while the spike counter
    grows once more by the same amount and the same times are printed
    again. *)
Theorem LIFModel_simulate_twice (self : LIFModel F) (w : world F)
    (ts cs vs ns : list F) :
  LIF_state_ok self (heap w) ts cs vs ns →
  (1 ≤ length ts)%nat →
  ∃ self1 w1 self2 w2 out,
    LIFModel_simulate self w = Ok (self1, w1)
    ∧ LIFModel_simulate self1 w1 = Ok (self2, w2)
    ∧ heap w2 = heap w1
    ∧ stdout w1 = stdout w ++ out
    ∧ stdout w2 = stdout w1 ++ out
    ∧ (num_fire self2 - num_fire self1 = num_fire self1 - num_fire self)%Z
    ∧ last_fire_time self2 = last_fire_time self1.
Proof.
  intros Hok Hlen.
  destruct (LIFModel_simulate_char self w ts cs vs ns Hok Hlen)
    as (self1 & vs1 & Hrun1 & Hl1 & H01 & Hrec1 & Hb1 & Hsig1 & Hns1 & Hlast1).
  set (p := neuron_parameters self) in *.
  set (w1 := {| heap := <[V self := vs1]> (heap w);
                stdout := stdout w ++ omap (λ i, ts !! i)
                  (LIF_fire_steps p (dt self) vs1 cs ns (length ts - 1)) |}) in *.
  pose proof Hok as [Hts Hcs Hvs (ln & Hln & Hnsl & Hsep) HlI HlV Hln' Hs1 Hs2].
  assert (neuron_parameters self1 = p ∧ times self1 = times self
          ∧ I self1 = I self ∧ V self1 = V self ∧ dt self1 = dt self)
    as (Hp1 & Ht1 & HI1 & HV1 & Hdt1) by (rewrite Hb1; done).
  assert (LIF_state_ok self1 (heap w1) ts cs vs1 ns) as Hok1.
  { subst w1; simpl. constructor; rewrite ?Ht1, ?HI1, ?HV1; try done.
    - rewrite lookup_insert_ne; done.
    - rewrite lookup_insert_ne; done.
    - apply lookup_insert_eq.
    - exists ln. rewrite Hns1, lookup_insert_ne; done.
    - congruence. }
  destruct (LIFModel_simulate_char self1 w1 ts cs vs1 ns Hok1 Hlen)
    as (self2 & vs2 & Hrun2 & Hl2 & H02 & Hrec2 & Hb2 & _ & _ & Hlast2).
  rewrite Hp1, Hdt1, HV1 in *.
  assert (vs2 = vs1) as ->.
  { apply (LIF_trace_unique p (dt self) cs ns vs2 vs1 (length ts));
      try congruence; assumption. }
  eexists self1, w1, self2, _, _.
  split; [exact Hrun1|]. split; [exact Hrun2|]. simpl.
  split; [apply insert_insert_eq|].
  split; [reflexivity|]. split; [reflexivity|]. split.
  - rewrite Hb2, Hb1. simpl. lia.
  - rewrite Hlast2, Hlast1.
    destruct (last (omap _ _)); reflexivity.
Qed.

(** X5. [fire_rate] after [simulate]: the run leaves the time grid alone, so
    the rate is the new spike count over [times[-1] - times[0]] of the
    grid the model was given. *)
Theorem fire_rate_after_simulate (self : LIFModel F) (w : world F)
    (ts cs vs ns : list F) (t0 t_last : F) :
  LIF_state_ok self (heap w) ts cs vs ns →
  ts !! 0%nat = Some t0 → last ts = Some t_last →
  ∃ self' w',
    LIFModel_simulate self w = Ok (self', w')
    ∧ fire_rate self' (heap w') =
        Ok (of_count (Z.to_nat (num_fire self')) / (t_last - t0)).
Proof.
  intros Hok H0 Hlast.
  assert (1 ≤ length ts)%nat as Hlen by (apply lookup_lt_Some in H0; lia).
  destruct (LIFModel_simulate_char self w ts cs vs ns Hok Hlen)
    as (self' & vs' & Hrun & _ & _ & _ & Hb & _).
  eexists self', _. split; [exact Hrun|]. simpl.
  assert (times self' = times self) as Ht by (rewrite Hb; done).
  assert (<[V self := vs']> (heap w) !! times self' = Some ts) as Hts.
  { rewrite Ht, lookup_insert_ne; [apply Hok|apply Hok]. }
  unfold fire_rate.
  rewrite (arr_len_Some _ _ _ Hts), bind_Ok_l.
  rewrite last_lookup in Hlast.
  replace (Init.Nat.pred (length ts)) with (length ts - 1)%nat in Hlast by lia.
  rewrite (arr_get_Some _ _ _ _ _ Hts Hlast), bind_Ok_l.
  rewrite (arr_get_Some _ _ _ _ _ Hts H0), bind_Ok_l. reflexivity.
Qed.

End LIFRuns.

(** ** Supra-threshold input *)

Section Suprathreshold.
Import Exact.
Local Open Scope R_scope.

Lemma filter_nil_all_false {A} (f : A → bool) (l : list A) :
  List.filter f l = [] → ∀ x, In x l → f x = false.
Proof.
  induction l as [|y l IH]; intros Hf x Hx; [destruct Hx|].
  simpl in Hf. destruct (f y) eqn:E; [discriminate|].
  destruct Hx as [<-|Hx]; [exact E|apply IH; assumption].
Qed.

(** One Euler step without noise, in closed form: the distance to the
    resting value [E_L + c R_m] shrinks by the factor [1 - dt/(R_m C_m)]. *)
Lemma LIF_proposed_closed_form (p : NeuronParameters R) (dt c x d : R) :
  R_m p ≠ 0 → C_m p ≠ 0 →
  LIF_proposed p dt (E_L p + c * R_m p - d) c (x * 0 * R_sqrt.sqrt dt)
  = E_L p + c * R_m p - (1 - dt / (R_m p * C_m p)) * d.
Proof.
  intros HR HC. unfold LIF_proposed. simpl. field. split; assumption.
Qed.

(** X6. In exact arithmetic, a LIF model without noise under a constant
    current [c] fires at least once as soon as the grid is long enough
    for the Euler iterates to pass the threshold:
    [(1 - dt/(R_m C_m))^(N-1) * c R_m < c R_m - (V_th - E_L)]. *)
Theorem LIFModel_suprathreshold_fires (p : NeuronParameters R)
    (ltimes lI : loc) (normal : nat → R) (h : gmap loc (list R))
    (out ts cs : list R) (t0 t1 c : R) :
  R_m p ≠ 0 → C_m p ≠ 0 →
  h !! ltimes = Some ts → h !! lI = Some cs → length cs = length ts →
  ts !! 0%nat = Some t0 → ts !! 1%nat = Some t1 →
  (∀ j x, cs !! j = Some x → x = c) →
  (1 - (t1 - t0) / (R_m p * C_m p)) ^ (length ts - 1) * (c * R_m p)
    < c * R_m p - (V_th p - E_L p) →
  ∃ self h0 self' w',
    LIFModel_init p ltimes lI 0 normal h = Ok (self, h0)
    ∧ LIFModel_simulate self {| heap := h0; stdout := out |} = Ok (self', w')
    ∧ (1 <= num_fire self')%Z.
Proof.
  intros HR HC Hts Hcs Hlen H0 H1 Hconst Hlong.
  assert (2 ≤ length ts)%nat as HN by (apply lookup_lt_Some in H1; lia).
  destruct (LIFModel_init_char p ltimes lI 0 normal h ts cs t0 t1
              Hts Hcs Hlen H0 H1)
    as (self & h0 & Hinit & Hok & Hbase & _ & _ & _).
  destruct (LIFModel_simulate_char self {| heap := h0; stdout := out |}
              ts cs _ _ Hok)
    as (self' & vs' & Hrun & Hl & Hv0 & Hrec & Hbase' & _); [lia|].
  assert (neuron_parameters self = p ∧ dt self = t1 - t0
          ∧ num_fire self = 0%Z) as (Ep & Edt & Enf) by (rewrite Hbase; done).
  rewrite Ep, Edt in *. simpl in Hl.
  rewrite length_insert, length_replicate in Hl.
  set (ns := map (λ x : R, fmul (fmul x 0) (fsqrt (fsub t1 t0)))
                 (map normal (seq 0 (length ts)))) in *.
  set (q := 1 - (t1 - t0) / (R_m p * C_m p)) in *.
  eexists self, h0, self', _.
  split; [exact Hinit|]. split; [exact Hrun|].
  rewrite Hbase'. simpl. rewrite Enf.
  destruct (LIF_fire_steps p (t1 - t0) vs' cs ns (length ts - 1)) as [|s l] eqn:Hsteps;
    [exfalso|simpl; lia].
  pose proof (filter_nil_all_false _ _ Hsteps) as Hnone.
  assert (∀ j, (j < length ts)%nat →
            vs' !! j = Some (E_L p + c * R_m p - q ^ j * (c * R_m p))
            ∧ ((1 ≤ j)%nat →
               LIF_proposed_at p (t1 - t0) vs' cs ns j
               = Some (E_L p + c * R_m p - q ^ j * (c * R_m p)))) as Hinv.
  { induction j as [|j IH]; intros Hj.
    - split; [|lia]. rewrite Hv0.
      rewrite list_lookup_insert_eq by (rewrite length_replicate; lia).
      f_equal. simpl. ring.
    - destruct IH as [Hv _]; [lia|].
      destruct (LIF_next_at_Some p (t1 - t0) vs' cs ns (S j))
        as (v' & c' & n & Hv' & Hc' & Hn & Hprop & Hnext); try lia.
      { unfold ns. rewrite !length_map, length_seq. lia. }
      simpl in Hv', Hc'. rewrite Nat.sub_0_r in Hv', Hc'.
      rewrite Hv in Hv'. injection Hv' as <-.
      apply Hconst in Hc'. subst c'.
      assert (∃ x, n = x * 0 * R_sqrt.sqrt (t1 - t0)) as [x ->].
      { unfold ns in Hn. rewrite !list_lookup_fmap in Hn.
        destruct (seq 0 (length ts) !! S j) as [i|]; [|discriminate].
        simpl in Hn. injection Hn as <-. eexists; reflexivity. }
      rewrite LIF_proposed_closed_form in Hprop by assumption.
      fold q in Hprop.
      replace (q * (q ^ j * (c * R_m p))) with (q ^ S j * (c * R_m p))
        in Hprop by (simpl; ring).
      assert (LIF_fires_at p (t1 - t0) vs' cs ns (S j) = false) as Hno.
      { apply Hnone. apply in_seq. lia. }
      unfold LIF_fires_at in Hno. rewrite Hprop in Hno.
      split; [|intros _; exact Hprop].
      rewrite Hrec by lia. unfold LIF_next_at. rewrite Hprop.
      simpl. simpl in Hno. rewrite Hno. reflexivity. }
  destruct (Hinv (length ts - 1)%nat) as [_ Hprop]; [lia|].
  specialize (Hprop ltac:(lia)).
  assert (LIF_fires_at p (t1 - t0) vs' cs ns (length ts - 1) = false) as Hno.
  { apply Hnone. apply in_seq. lia. }
  unfold LIF_fires_at in Hno. rewrite Hprop in Hno.
  cbn [fltb arith] in Hno. unfold ltb in Hno.
  destruct (Rlt_dec _ _) as [|Hn]; [discriminate|]. apply Hn. lra.
Qed.

End Suprathreshold.

(** ** More on the runs of [AELIFModel.simulate] *)

Section AELIFBook.
Context `{Arith F}.
Variable np_exp : F → F.
Local Open Scope arith_scope.

Lemma last_cons_default {A : Type} (x d : A) (l : list A) :
  List.last (x :: l) d = List.last l x.
Proof.
  revert x d. induction l as [|y l IH]; intros x d; [reflexivity|].
  change (List.last (x :: y :: l) d) with (List.last (y :: l) d).
  rewrite (IH y d), (IH y x). reflexivity.
Qed.

Lemma gaps_snoc (prev : F) (times : list F) (t : F) :
  gaps prev (times ++ [t]) = gaps prev times ++ [t - List.last times prev].
Proof.
  revert prev. induction times as [|u times IH]; intros prev; [reflexivity|].
  cbn [app gaps]. rewrite IH, last_cons_default. reflexivity.
Qed.

Lemma AELIF_fires_at_insert p D dt vmax vs cs ss i j x y :
  (j ≤ i)%nat → (1 ≤ i)%nat →
  AELIF_fires_at np_exp p D dt vmax (<[i := x]> vs) cs (<[i := y]> ss) j
  = AELIF_fires_at np_exp p D dt vmax vs cs ss j.
Proof.
  intros Hj Hi. unfold AELIF_fires_at.
  rewrite !list_lookup_insert_ne by lia. reflexivity.
Qed.

Lemma AELIF_fire_steps_insert p D dt vmax vs cs ss i k x y :
  (k ≤ i)%nat → (1 ≤ i)%nat →
  AELIF_fire_steps np_exp p D dt vmax (<[i := x]> vs) cs (<[i := y]> ss) k
  = AELIF_fire_steps np_exp p D dt vmax vs cs ss k.
Proof.
  intros Hk Hi. unfold AELIF_fire_steps.
  apply List.filter_ext_in. intros j Hj. apply in_seq in Hj.
  apply AELIF_fires_at_insert; lia.
Qed.

Lemma AELIF_fire_steps_S p D dt vmax vs cs ss k :
  AELIF_fire_steps np_exp p D dt vmax vs cs ss (S k) =
  AELIF_fire_steps np_exp p D dt vmax vs cs ss k ++
    (if AELIF_fires_at np_exp p D dt vmax vs cs ss (S k) then [S k] else []).
Proof.
  unfold AELIF_fire_steps.
  replace (S k) with (k + 1)%nat at 1 by lia.
  rewrite seq_app, List.filter_app. simpl.
  destruct (AELIF_fires_at np_exp p D dt vmax vs cs ss (S k)); reflexivity.
Qed.

Lemma AELIFModel_loop_book (self : AELIFModel F) (w : world F)
    (ts cs vs ss ks : list F) (D va vb tau vmax : F) (k : nat) :
  AELIF_state_ok self (heap w) ts cs vs ss ks →
  AELIF_params (neuron_parameters self) D va vb tau vmax →
  (k < length ts)%nat →
  let p := neuron_parameters self in
  ∃ self' h' vs' ss' ks',
    for_range 1 (S k) (AELIFModel_step np_exp) (self, w) =
      Ok (self', {| heap := h'; stdout := stdout w |})
    ∧ AELIF_state_ok self h' ts cs vs' ss' ks'
    ∧ AELIF_same_config self self'
    ∧ let steps := AELIF_fire_steps np_exp p D (dt self) vmax vs' cs ss' k in
      let fire_times := omap (λ i, ts !! i) steps in
      num_fire self' = (num_fire self + Z.of_nat (length steps))%Z
      ∧ isi_array self' =
          isi_array self ++ gaps (last_spike_time self) fire_times
      ∧ last_spike_time self' = List.last fire_times (last_spike_time self).
Proof.
  intros Hok Hpar Hk p. induction k as [|k IH].
  - exists self, (heap w), vs, ss, ks. rewrite for_range_nil.
    destruct w as [h out]; simpl.
    split; [reflexivity|]. split; [exact Hok|].
    split; [constructor; reflexivity|].
    rewrite app_nil_r. repeat split; lia.
  - destruct IH as (self1 & h1 & vs1 & ss1 & ks1 & Hrun & Hok1 & Hcfg
                    & Hnf & Hisi & Hlst); [lia|].
    pose proof (AELIF_state_ok_config _ _ _ _ _ _ _ _ Hcfg Hok1) as Hok1'.
    pose proof Hok1 as [_ _ Hv1 Hs1 _ HlI HlV HlS HlK _ _ _ _].
    destruct (lookup_lt_is_Some_2 vs1 k) as [v Hv]; [lia|].
    destruct (lookup_lt_is_Some_2 cs k) as [c Hc]; [lia|].
    destruct (lookup_lt_is_Some_2 ss1 k) as [s Hs]; [lia|].
    destruct (lookup_lt_is_Some_2 ts (S k)) as [t Ht]; [lia|].
    pose proof Hcfg as [Hp1 Ht1 HI1 HV1 Hdt1 _ _ _ HS1 HK1].
    destruct (AELIFModel_step_char np_exp self1
                {| heap := h1; stdout := stdout w |}
                ts cs vs1 ss1 ks1 D va vb tau vmax (S k) v c s t)
      as (h2 & Hstep & Hv2 & Hs2 & _);
      simpl; rewrite ?Nat.sub_0_r, ?Hp1; try done; try lia.
    rewrite Hp1, Hdt1, HV1, HS1 in *. fold p in Hstep, Hv2, Hs2.
    set (x := AELIF_euler_V np_exp p D (dt self) v c s) in *.
    set (y := AELIF_euler_SRA p va tau (dt self) v s) in *.
    destruct (AELIFModel_loop_char np_exp self w ts cs vs ss ks D va vb tau vmax
                (S k) Hok Hpar Hk)
      as (self2 & h2' & vs2 & ss2 & ks2 & n & Hrun2 & Hcfg2 & Hok2 & _).
    rewrite for_range_snoc, Hrun, bind_Ok_l, Hstep in Hrun2 by lia.
    injection Hrun2 as Hself Hh. subst h2' self2.
    assert (vs2 = <[S k := if x >=? vmax then V_reset p else x]> vs1) as Evs.
    { pose proof (aok_V _ _ _ _ _ _ _ Hok2) as E. rewrite Hv2 in E. congruence. }
    assert (ss2 = <[S k := if x >=? vmax then y + vb else y]> ss1) as Ess.
    { pose proof (aok_SRA _ _ _ _ _ _ _ Hok2) as E. rewrite Hs2 in E. congruence. }
    exists (if x >=? vmax then AELIFModel_fire self1 t else self1), h2, vs2, ss2, ks2.
    split; [rewrite for_range_snoc, Hrun, bind_Ok_l by lia; exact Hstep|].
    split; [exact Hok2|]. split; [exact Hcfg2|].
    assert (AELIF_fire_steps np_exp p D (dt self) vmax vs2 cs ss2 (S k) =
            AELIF_fire_steps np_exp p D (dt self) vmax vs1 cs ss1 k ++
              (if x >=? vmax then [S k] else [])) as Hsteps.
    { rewrite AELIF_fire_steps_S. rewrite Evs, Ess.
      rewrite AELIF_fire_steps_insert by lia. f_equal.
      rewrite AELIF_fires_at_insert by lia.
      unfold AELIF_fires_at. simpl. rewrite Nat.sub_0_r, Hv, Hc, Hs.
      reflexivity. }
    cbv zeta. rewrite Hsteps, omap_app, length_app.
    destruct (x >=? vmax); simpl.
    + rewrite Ht. simpl. rewrite gaps_snoc, last_last, Hnf, Hisi, Hlst.
      rewrite <- app_assoc. repeat split; try reflexivity. lia.
    + rewrite !app_nil_r. repeat split; try assumption. rewrite Hnf. lia.
Qed.

(** X8. The spike bookkeeping of a run: with the firing steps read off the
    final traces, [num_fire] grows by their number, [isi_array] gains
    the intervals between their times (the first one counted from the
    previous [last_spike_time]) and [last_spike_time] becomes the last
    of these times. *)
Theorem AELIFModel_simulate_bookkeeping (self : AELIFModel F) (w : world F)
    (ts cs vs ss ks : list F) (D va vb tau vmax : F) :
  AELIF_state_ok self (heap w) ts cs vs ss ks →
  AELIF_params (neuron_parameters self) D va vb tau vmax →
  (1 ≤ length ts)%nat →
  ∃ self' h' vs' ss',
    AELIFModel_simulate np_exp self w =
      Ok (self', {| heap := h'; stdout := stdout w |})
    ∧ h' !! V self = Some vs' ∧ h' !! I_SRA_array self = Some ss'
    ∧ let steps := AELIF_fire_steps np_exp (neuron_parameters self) D (dt self) vmax
                     vs' cs ss' (length ts - 1) in
      let fire_times := omap (λ i, ts !! i) steps in
      num_fire self' = (num_fire self + Z.of_nat (length steps))%Z
      ∧ isi_array self' =
          isi_array self ++ gaps (last_spike_time self) fire_times
      ∧ last_spike_time self' = List.last fire_times (last_spike_time self).
Proof.
  intros Hok Hpar Hlen.
  destruct (AELIFModel_loop_book self w ts cs vs ss ks D va vb tau vmax
              (length ts - 1) Hok Hpar)
    as (self' & h' & vs' & ss' & ks' & Hrun & Hok' & _ & Hbook); [lia|].
  exists self', h', vs', ss'.
  split; [|split; [apply Hok'|split; [apply Hok'|exact Hbook]]].
  unfold AELIFModel_simulate.
  rewrite (arr_len_Some _ _ _ (aok_times _ _ _ _ _ _ _ Hok)), bind_Ok_l.
  replace (length ts) with (S (length ts - 1)) at 1 by lia. exact Hrun.
Qed.

(** X9. After [simulate], an entry of the voltage trace past index 0 is the
    reset potential or a value that has not reached [V_max]. *)
Theorem AELIFModel_simulate_below_V_max (self : AELIFModel F) (w : world F)
    (ts cs vs ss ks : list F) (D va vb tau vmax : F) :
  AELIF_state_ok self (heap w) ts cs vs ss ks →
  AELIF_params (neuron_parameters self) D va vb tau vmax →
  (1 ≤ length ts)%nat →
  ∃ self' w' vs',
    AELIFModel_simulate np_exp self w = Ok (self', w')
    ∧ heap w' !! V self = Some vs'
    ∧ ∀ i v, (1 ≤ i)%nat → vs' !! i = Some v →
        v = V_reset (neuron_parameters self) ∨ (v >=? vmax) = false.
Proof.
  intros Hok Hpar Hlen.
  destruct (AELIFModel_simulate_char np_exp self w ts cs vs ss ks D va vb tau
              vmax Hok Hpar Hlen)
    as (self' & h' & vs' & ss' & ks' & n & Hrun & _ & Hok' & _ & _ & Hrec & _).
  eexists self', _, vs'. split; [exact Hrun|]. simpl.
  split; [apply Hok'|]. intros i v Hi Hv.
  assert (i < length ts)%nat as Hlt.
  { apply lookup_lt_Some in Hv. rewrite (aok_len_V _ _ _ _ _ _ _ Hok') in Hv.
    exact Hv. }
  destruct (Hrec i) as (u & c & s & _ & _ & _ & Hstep); [lia|].
  cbv zeta in Hstep.
  destruct (_ >=? vmax) eqn:E.
  - left. destruct Hstep as (Hvi & _). congruence.
  - right. destruct Hstep as (Hvi & _). rewrite Hvi in Hv.
    injection Hv as <-. exact E.
Qed.

(** X10. An AELIF model on parameters that lack [Delta_th], [a], [tau_SRA]
    or [V_max] (they default to [None]) cannot be simulated: the first
    step raises TypeError. *)
Theorem AELIFModel_simulate_missing_parameter (self : AELIFModel F)
    (w : world F) (ts cs vs ss ks : list F) :
  AELIF_state_ok self (heap w) ts cs vs ss ks →
  (2 ≤ length ts)%nat →
  let p := neuron_parameters self in
  Delta_th p = None ∨ a p = None ∨ tau_SRA p = None ∨ V_max p = None →
  AELIFModel_simulate np_exp self w = Raise TypeError.
Proof.
  intros Hok Hlen p Hmiss.
  pose proof Hok as [Hts Hcs Hvs Hss Hks HlI HlV HlS HlK Hn1 Hn2 Hn3 Hin].
  unfold AELIFModel_simulate.
  rewrite (arr_len_Some _ _ _ Hts), bind_Ok_l.
  apply for_range_first_Raise; [lia|].
  destruct (lookup_lt_is_Some_2 vs 0) as [v Hv]; [lia|].
  destruct (lookup_lt_is_Some_2 cs 0) as [c Hc]; [lia|].
  destruct (lookup_lt_is_Some_2 ss 0) as [s Hs]; [lia|].
  destruct w as [h out]; simpl in *.
  unfold AELIFModel_step. cbv zeta. simpl heap.
  rewrite (arr_get_Some _ _ _ _ _ Hvs Hv), !bind_Ok_l.
  rewrite (arr_get_Some _ _ _ _ _ Hcs Hc), !bind_Ok_l.
  rewrite (arr_get_Some _ _ _ _ _ Hss Hs), !bind_Ok_l.
  unfold AELIFModel_dvdt. fold p.
  destruct (Delta_th p) as [D|] eqn:ED; [|reflexivity].
  simpl require. rewrite !bind_Ok_l.
  rewrite (arr_set_Some _ _ _ 1 _ Hvs) by lia. rewrite bind_Ok_l.
  set (h1 := <[V self := _]> h).
  assert (h1 !! V self = Some (<[1%nat := v + dt self *
            ((G_L p * (E_L p - v + D * np_exp ((v - V_th p) / D)) - s + c) / C_m p)]> vs))
    as Hvs1 by apply lookup_insert_eq.
  assert (h1 !! I_SRA_array self = Some ss) as Hss1
    by (unfold h1; rewrite lookup_insert_ne; assumption).
  rewrite (arr_get_Some _ _ _ _ _ Hss1 Hs), !bind_Ok_l.
  rewrite (arr_get_Some _ _ _ 0%nat v Hvs1), !bind_Ok_l
    by (rewrite list_lookup_insert_ne by lia; exact Hv).
  unfold AELIFModel_dI_SRA_dt. fold p.
  destruct (a p) as [va|] eqn:Ea; [|reflexivity].
  simpl require. rewrite !bind_Ok_l.
  destruct (tau_SRA p) as [tau|] eqn:Etau; [|reflexivity].
  simpl require. rewrite !bind_Ok_l.
  rewrite (arr_set_Some _ _ _ 1 _ Hss1) by lia. rewrite bind_Ok_l.
  set (h2 := <[I_SRA_array self := _]> h1).
  assert (h2 !! V self = Some (<[1%nat := v + dt self *
            ((G_L p * (E_L p - v + D * np_exp ((v - V_th p) / D)) - s + c) / C_m p)]> vs))
    as Hvs2 by (unfold h2; rewrite lookup_insert_ne; [assumption|congruence]).
  destruct (lookup_lt_is_Some_2
              (<[1%nat := v + dt self *
                 ((G_L p * (E_L p - v + D * np_exp ((v - V_th p) / D)) - s + c) / C_m p)]> vs) 1)
    as [v1 Hv1]; [rewrite length_insert; lia|].
  rewrite (arr_get_Some _ _ _ _ _ Hvs2 Hv1), bind_Ok_l.
  destruct (V_max p) as [vmax|] eqn:Emax; [|reflexivity].
  destruct Hmiss as [?|[?|[?|?]]]; discriminate.
Qed.

End AELIFBook.

Section AELIFFirstInterval.
Import Binary64.
Variable np_exp : float → float.

Lemma float_sub_neg_infinity (t : float) :
  finite t = true → PrimFloat.sub t neg_infinity = infinity.
Proof.
  unfold finite. intros Hfin. apply Prim2SF_inj.
  rewrite sub_spec. unfold SF64sub.
  change (Prim2SF neg_infinity) with (S754_infinity true).
  change (Prim2SF infinity) with (S754_infinity false).
  destruct (Prim2SF t); try discriminate; reflexivity.
Qed.

(** X11. A model whose [last_spike_time] is still the initial [-np.inf]
    records an infinite first inter-spike interval: after [simulate] on
    finite times [isi_array] is empty or begins with [+inf]. *)
Theorem AELIFModel_first_interval_infinite (self : AELIFModel float)
    (w : world float) (ts cs vs ss ks : list float)
    (D va vb tau vmax : float) :
  AELIF_state_ok self (heap w) ts cs vs ss ks →
  AELIF_params (neuron_parameters self) D va vb tau vmax →
  (1 ≤ length ts)%nat →
  last_spike_time self = neg_infinity →
  isi_array self = [] →
  (∀ i t, ts !! i = Some t → finite t = true) →
  ∃ self' w',
    AELIFModel_simulate np_exp self w = Ok (self', w')
    ∧ (isi_array self' = [] ∨ ∃ rest, isi_array self' = infinity :: rest).
Proof.
  intros Hok Hpar Hlen Hlast Hisi Hfin.
  destruct (AELIFModel_loop_book np_exp self w ts cs vs ss ks D va vb tau vmax
              (length ts - 1) Hok Hpar)
    as (self' & h' & vs' & ss' & ks' & Hrun & _ & _ & Hbook); [lia|].
  cbv zeta in Hbook. destruct Hbook as (_ & Hisi' & _).
  eexists self', _. split.
  { unfold AELIFModel_simulate.
    rewrite (arr_len_Some _ _ _ (aok_times _ _ _ _ _ _ _ Hok)), bind_Ok_l.
    replace (length ts) with (S (length ts - 1)) at 1 by lia. exact Hrun. }
  rewrite Hisi, Hlast in Hisi'. simpl app in Hisi'.
  destruct (omap _ _) as [|t rest] eqn:E; [left; exact Hisi'|].
  right. exists (gaps t rest). rewrite Hisi'. cbn [gaps]. f_equal.
  assert (t ∈ omap (λ i, ts !! i)
            (AELIF_fire_steps np_exp (neuron_parameters self) D (dt self) vmax
               vs' cs ss' (length ts - 1))) as Hin
    by (rewrite E; left).
  apply list_elem_of_omap in Hin as (i & _ & Hi).
  apply float_sub_neg_infinity. exact (Hfin i t Hi).
Qed.

End AELIFFirstInterval.

(** ** utils.py: when [expand_bins] and [find_fano_factor] raise *)

Section UtilsErrors.
Context `{Arith F}.
Local Open Scope arith_scope.

Lemma np_split_zero (arr : list F) : np_split arr 0 = Raise ZeroDivisionError.
Proof. reflexivity. Qed.

Lemma np_split_uneven (arr : list F) (n : Z) :
  n ≠ 0%Z → (n < 1 ∨ Z.of_nat (length arr) mod n ≠ 0)%Z →
  np_split arr n = Raise ValueError.
Proof.
  intros Hn Hbad. unfold np_split, py_mod.
  destruct (n =? 0)%Z eqn:E; [lia|]. rewrite bind_Ok_l.
  destruct (Z.of_nat (length arr) mod n =? 0)%Z eqn:E'; [|reflexivity].
  simpl. destruct (n <=? 0)%Z eqn:E''; [reflexivity|lia].
Qed.

(** X12. With sf = int(new_dt/old_dt): [expand_bins] returns exactly when
    sf >= 1 divides the length of the array; it raises
    ZeroDivisionError when sf = 0 and ValueError in the other cases. *)
Theorem expand_bins_errors (arr : list F) (new_dt old_dt q : F) (sf : Z) :
  py_div new_dt old_dt = Ok q → py_int q = Ok sf →
  (is_Ok (expand_bins arr new_dt old_dt)
     ↔ (1 ≤ sf ∧ Z.of_nat (length arr) mod sf = 0)%Z)
  ∧ (sf = 0%Z → expand_bins arr new_dt old_dt = Raise ZeroDivisionError)
  ∧ (sf ≠ 0%Z → (sf < 1 ∨ Z.of_nat (length arr) mod sf ≠ 0)%Z →
       expand_bins arr new_dt old_dt = Raise ValueError).
Proof.
  intros Hq Hsf.
  assert (expand_bins arr new_dt old_dt =
          bind (np_split arr sf) (λ s, Ok (np_mean_axis0 s))) as E.
  { unfold expand_bins. rewrite Hq, bind_Ok_l, Hsf, bind_Ok_l. reflexivity. }
  assert (sf = 0%Z → expand_bins arr new_dt old_dt = Raise ZeroDivisionError)
    as Hzero by (intros ->; rewrite E; reflexivity).
  assert (sf ≠ 0%Z → (sf < 1 ∨ Z.of_nat (length arr) mod sf ≠ 0)%Z →
          expand_bins arr new_dt old_dt = Raise ValueError) as Hbad.
  { intros Hn Hb. rewrite E, np_split_uneven by assumption. reflexivity. }
  split; [|split; assumption]. split.
  - intros [out Hout].
    destruct (Z.eq_dec sf 0%Z) as [Hz|Hz]; [rewrite Hzero in Hout; done|].
    destruct (Z_lt_dec sf 1%Z) as [Hl|Hl];
      [rewrite Hbad in Hout by (try done; left; done); done|].
    destruct (Z.eq_dec (Z.of_nat (length arr) mod sf)%Z 0%Z) as [Hm|Hm];
      [lia|rewrite Hbad in Hout by (try done; right; done); done].
  - intros [Hpos Hmod]. rewrite E, np_split_divides by assumption.
    eexists. reflexivity.
Qed.

(** X13. With w = int(time_range/dt): [find_fano_factor] raises
    ZeroDivisionError when w = 0; for a negative w it returns None when
    w does not divide the length and raises ValueError when it does. *)
Theorem find_fano_factor_errors (time_range dt q : F)
    (spike_locations : list F) (w : Z) :
  py_div time_range dt = Ok q → py_int q = Ok w →
  (w = 0%Z →
     find_fano_factor time_range spike_locations dt = Raise ZeroDivisionError)
  ∧ ((w < 0)%Z →
       ((Z.of_nat (length spike_locations) mod w ≠ 0)%Z →
          find_fano_factor time_range spike_locations dt = Ok None)
       ∧ ((Z.of_nat (length spike_locations) mod w = 0)%Z →
          find_fano_factor time_range spike_locations dt = Raise ValueError)).
Proof.
  intros Hq Hw. unfold find_fano_factor.
  rewrite Hq, bind_Ok_l, Hw, bind_Ok_l.
  split; [intros ->; reflexivity|].
  intros Hneg. unfold py_mod.
  destruct (w =? 0)%Z eqn:E; [lia|]. rewrite bind_Ok_l.
  split; intros Hmod.
  - destruct (Z.of_nat (length spike_locations) mod w =? 0)%Z eqn:E'; [lia|].
    reflexivity.
  - rewrite Hmod. simpl. rewrite np_split_uneven by lia. reflexivity.
Qed.

End UtilsErrors.

Section UtilsReals.
Import Exact.
Local Open Scope R_scope.

Lemma to_int_small (q : R) : Rabs q < 1 → to_int q = Ok 0%Z.
Proof.
  intros Hq. unfold to_int. f_equal.
  apply Rabs_def2 in Hq as [Hlt Hgt].
  destruct (Rle_dec 0 q) as [Hpos|Hneg].
  - unfold Int_part. rewrite <- (up_tech q 0);
      change (IZR (0 + 1)) with 1; change (IZR 0) with 0; [reflexivity|lra..].
  - unfold Int_part. rewrite <- (up_tech (- q) 0);
      change (IZR (0 + 1)) with 1; change (IZR 0) with 0; [reflexivity|lra..].
Qed.

Lemma div_small (x y : R) : Rabs x < Rabs y → y ≠ 0 ∧ Rabs (x / y) < 1.
Proof.
  intros Hlt.
  assert (y ≠ 0) as Hy.
  { intros ->. rewrite Rabs_R0 in Hlt. pose proof (Rabs_pos x). lra. }
  split; [exact Hy|].
  unfold Rdiv. rewrite Rabs_mult, Rabs_inv.
  pose proof (Rabs_pos_lt y Hy) as Hpos.
  apply (Rmult_lt_reg_r (Rabs y)); [exact Hpos|].
  rewrite Rmult_assoc, Rinv_l by lra. lra.
Qed.

(** X14. Over the reals: asking [expand_bins] for a bin narrower than the
    old one, or asking [find_fano_factor] for a window shorter than the
    time step, raises ZeroDivisionError. *)
Theorem utils_narrow_bin (arr : list R) (new_dt old_dt : R) :
  Rabs new_dt < Rabs old_dt →
  expand_bins arr new_dt old_dt = Raise ZeroDivisionError
  ∧ find_fano_factor new_dt arr old_dt = Raise ZeroDivisionError.
Proof.
  intros Hlt. destruct (div_small _ _ Hlt) as [Hy Hq].
  unfold expand_bins, find_fano_factor, py_div. simpl feqb. unfold eqb.
  destruct (Req_dec_T old_dt 0) as [E|_]; [done|].
  rewrite !bind_Ok_l. simpl py_int. rewrite (to_int_small _ Hq).
  split; reflexivity.
Qed.

End UtilsReals.

Section FanoRun.
Context `{Arith F}.
Local Open Scope arith_scope.

Lemma find_fano_factor_divides (time_range dt q : F) (arr : list F) (w : Z) :
  py_div time_range dt = Ok q → py_int q = Ok w → (1 ≤ w)%Z →
  (Z.of_nat (length arr) mod w = 0)%Z →
  let counts :=
    map np_sum (sections (length arr / Z.to_nat w) (Z.to_nat w) arr) in
  find_fano_factor time_range arr dt =
    Ok (Some (np_var counts / np_mean counts)).
Proof.
  intros Hq Hw Hpos Hmod counts. unfold find_fano_factor.
  rewrite Hq, bind_Ok_l, Hw, bind_Ok_l. unfold py_mod.
  destruct (w =? 0)%Z eqn:E; [lia|]. rewrite bind_Ok_l, Hmod. simpl.
  rewrite (np_split_divides _ _ Hpos Hmod), bind_Ok_l. reflexivity.
Qed.

End FanoRun.

Section FanoReals.
Import Exact.
Local Open Scope R_scope.

Lemma fold_left_Rplus (l : list R) (x : R) :
  fold_left Rplus l x = x + total l.
Proof.
  revert x. induction l as [|y l IH]; intros x; simpl; [lra|].
  rewrite IH. unfold total. lra.
Qed.

Lemma np_sum_total (l : list R) : np_sum l = total l.
Proof.
  unfold np_sum. simpl fadd. simpl f0. rewrite fold_left_Rplus. lra.
Qed.

Lemma total_app (l k : list R) : total (l ++ k) = total l + total k.
Proof. induction l as [|x l IH]; simpl; [lra|]. rewrite IH. lra. Qed.

Lemma total_concat (ls : list (list R)) :
  total (concat ls) = total (map total ls).
Proof.
  induction ls as [|l ls IH]; [reflexivity|].
  simpl. rewrite total_app, IH. reflexivity.
Qed.

Lemma total_nonneg (l : list R) : Forall (λ x, 0 <= x) l → 0 <= total l.
Proof. induction 1; simpl; lra. Qed.

Lemma total_zero (l : list R) :
  Forall (λ x, 0 <= x) l → total l = 0 → Forall (λ x, x = 0) l.
Proof.
  induction 1 as [|x l Hx Hl IH]; intros Hsum; [constructor|].
  simpl in Hsum. pose proof (total_nonneg l Hl).
  constructor; [lra|apply IH; lra].
Qed.

Lemma total_all_zero (l : list R) : Forall (λ x, x = 0) l → total l = 0.
Proof. induction 1; simpl; lra. Qed.

Lemma np_var_nonneg (l : list R) : l ≠ [] → 0 <= np_var l.
Proof.
  intros Hne. unfold np_var. generalize (np_mean l) as m. intros m.
  unfold np_mean.
  rewrite np_sum_total, length_map.
  simpl fdiv. apply Rmult_le_pos.
  - apply total_nonneg, Forall_forall. intros y Hy.
    apply list_elem_of_fmap in Hy as (x & -> & _).
    cbn [fsub fmul arith]. exact (Rle_0_sqr (x - m)).
  - apply Rlt_le, Rinv_0_lt_compat. simpl of_count. apply lt_0_INR.
    destruct l; [done|simpl; lia].
Qed.

Lemma np_var_zero (l : list R) :
  l ≠ [] → (np_var l = 0 ↔ ∀ x, x ∈ l → x = np_mean l).
Proof.
  intros Hne.
  assert (0 < INR (length l)) as Hn
    by (apply lt_0_INR; destruct l; [done|simpl; lia]).
  unfold np_var. generalize (np_mean l) as m. intros m. unfold np_mean.
  rewrite np_sum_total, length_map.
  simpl fdiv. simpl of_count.
  assert (Forall (λ y, 0 <= y) (map (λ x, (x - m) * (x - m))%A l)) as Hsq.
  { apply Forall_forall. intros y Hy.
    apply list_elem_of_fmap in Hy as (x & -> & _).
    cbn [fsub fmul arith]. exact (Rle_0_sqr (x - m)). }
  split.
  - intros Hz x Hx.
    assert (total (map (λ x, (x - m) * (x - m))%A l) = 0) as Ht.
    { apply (Rmult_eq_reg_r (/ INR (length l)));
        [rewrite Rmult_0_l; exact Hz|]. apply Rinv_neq_0_compat. lra. }
    pose proof (total_zero _ Hsq Ht) as Hall.
    rewrite Forall_forall in Hall.
    specialize (Hall ((x - m) * (x - m))%A).
    cbn [fsub fmul arith] in Hall. assert ((x - m) * (x - m) = 0) as Hx0.
    { apply Hall. apply (list_elem_of_fmap_2 (λ x, (x - m) * (x - m))%A) in Hx.
      exact Hx. }
    nra.
  - intros Hall. rewrite total_all_zero; [unfold Rdiv; lra|].
    apply Forall_forall. intros y Hy.
    apply list_elem_of_fmap in Hy as (x & -> & Hx). cbn [fsub fmul arith].
    rewrite (Hall x Hx). lra.
Qed.

(** X15. Over the reals, on non-negative entries that are not all zero and
    a window count w >= 1 that divides the length: [find_fano_factor]
    returns a non-negative number, which is 0 exactly when every window
    holds the same spike count. *)
Theorem find_fano_factor_nonneg (time_range dt q : R) (arr : list R) (w : Z) :
  py_div time_range dt = Ok q → py_int q = Ok w → (1 <= w)%Z →
  (Z.of_nat (length arr) mod w = 0)%Z →
  (∀ x, x ∈ arr → 0 <= x) → 0 < np_sum arr →
  let counts :=
    map np_sum (sections (length arr / Z.to_nat w) (Z.to_nat w) arr) in
  ∃ ff, find_fano_factor time_range arr dt = Ok (Some ff)
        ∧ 0 <= ff
        ∧ (ff = 0 ↔ ∀ c c', c ∈ counts → c' ∈ counts → c = c').
Proof.
  intros Hq Hw Hpos Hmod Hnn Hsum counts.
  destruct (divides_nat (length arr) w Hpos Hmod) as [Hdiv Hc].
  assert (length counts = Z.to_nat w) as Hlen
    by (unfold counts; rewrite length_map; apply sections_length).
  assert (counts ≠ []) as Hne
    by (intros E; rewrite E in Hlen; simpl in Hlen; lia).
  assert (0 < np_mean counts) as Hmean.
  { unfold np_mean. rewrite np_sum_total. simpl fdiv. simpl of_count.
    apply Rmult_lt_0_compat;
      [|apply Rinv_0_lt_compat, lt_0_INR; rewrite Hlen; lia].
    unfold counts.
    rewrite (map_ext np_sum total np_sum_total), <- total_concat.
    rewrite sections_concat by lia. rewrite <- np_sum_total. exact Hsum. }
  exists (np_var counts / np_mean counts)%A.
  split; [exact (find_fano_factor_divides _ _ _ _ _ Hq Hw Hpos Hmod)|].
  pose proof (np_var_nonneg counts Hne) as Hvar.
  cbn [fdiv arith]. split.
  - apply Rmult_le_pos; [exact Hvar|]. apply Rlt_le, Rinv_0_lt_compat, Hmean.
  - split.
    + intros Hz c c' Hin Hin'.
      assert (np_var counts = 0) as Hv0.
      { apply (Rmult_eq_reg_r (/ np_mean counts));
          [rewrite Rmult_0_l; exact Hz|]. apply Rinv_neq_0_compat. lra. }
      pose proof (proj1 (np_var_zero counts Hne) Hv0) as Hall.
      rewrite (Hall c Hin), (Hall c' Hin'). reflexivity.
    + intros Heq.
      assert (np_var counts = 0) as Hv0; [|rewrite Hv0; unfold Rdiv; lra].
      apply (np_var_zero counts Hne). intros x Hx.
      unfold np_mean. rewrite np_sum_total. simpl fdiv. simpl of_count.
      assert (total counts = INR (length counts) * x) as Ht.
      { assert (∀ l : list R, (∀ y, y ∈ l → y = x) →
                  total l = INR (length l) * x) as Hconst.
        { induction l as [|y l IH]; intros Hl; [simpl; lra|].
          change (total (y :: l)) with (y + total l).
          rewrite IH by (intros z Hz; apply Hl; right; exact Hz).
          rewrite (Hl y) by left.
          rewrite length_cons, S_INR. lra. }
        apply Hconst. intros y Hy. apply Heq; assumption. }
      rewrite Ht. field. apply not_0_INR. rewrite Hlen. lia.
Qed.

End FanoReals.

(** ** utils.py: [STA] *)

Section STAFacts.
Context `{Arith F}.
Local Open Scope arith_scope.

Lemma py_slice_inside (lo hi : nat) (arr : list F) :
  (lo ≤ hi ≤ length arr)%nat →
  py_slice (Z.of_nat lo) (Z.of_nat hi) arr = take (hi - lo) (drop lo arr).
Proof.
  intros Hle. unfold py_slice.
  destruct (Z.of_nat lo <? 0)%Z eqn:E1; [lia|].
  destruct (Z.of_nat hi <? 0)%Z eqn:E2; [lia|].
  rewrite !Z.min_l by lia.
  replace (Z.to_nat (Z.of_nat hi - Z.of_nat lo)) with (hi - lo)%nat by lia.
  rewrite Nat2Z.id. reflexivity.
Qed.

Lemma py_slice_length_le (lo hi : Z) (arr : list F) :
  (length (py_slice lo hi arr) ≤ length arr)%nat.
Proof. unfold py_slice. rewrite length_take, length_drop. lia. Qed.

Lemma py_slice_late (lo hi : nat) (arr : list F) :
  (length arr < hi)%nat →
  length (py_slice (Z.of_nat lo) (Z.of_nat hi) arr) = (length arr - lo)%nat.
Proof.
  intros Hlt. unfold py_slice.
  destruct (Z.of_nat lo <? 0)%Z eqn:E1; [lia|].
  destruct (Z.of_nat hi <? 0)%Z eqn:E2; [lia|].
  rewrite length_take, length_drop. lia.
Qed.

Lemma iadd_same_length (target src : list F) :
  length src = length target →
  iadd Column target src = Ok (zip_with fadd target src).
Proof.
  intros Hlen. unfold iadd.
  destruct src as [|x [|y src]].
  - destruct (decide _); [reflexivity|contradiction].
  - destruct target as [|t [|t' target]]; simpl in Hlen; try lia. reflexivity.
  - destruct (decide _); [reflexivity|contradiction].
Qed.

Lemma iadd_mismatch (shape : axes) (target src : list F) :
  length src ≠ 1%nat → (shape = Column → length src ≠ length target) →
  iadd shape target src = Raise ValueError.
Proof.
  intros H1 Hc. unfold iadd.
  destruct src as [|x [|y src]]; [|simpl in H1; lia|].
  - destruct shape; [reflexivity|].
    destruct (decide _) as [E|_]; [|reflexivity]. destruct (Hc eq_refl E).
  - destruct shape; [reflexivity|].
    destruct (decide _) as [E|_]; [|reflexivity]. destruct (Hc eq_refl E).
Qed.

Lemma iadd_length (shape : axes) (target src out : list F) :
  iadd shape target src = Ok out → length out = length target.
Proof.
  unfold iadd. intros Hrun.
  assert (∀ x, out = map (λ t, t + x) target → length out = length target)
    as Hmap by (intros x ->; apply length_map).
  assert ((if decide (length src = length target)
           then Ok (zip_with fadd target src) else Raise ValueError) = Ok out
          → length out = length target) as Hzip.
  { destruct (decide _) as [E|_]; [|discriminate].
    intros [= <-]. rewrite length_zip_with. lia. }
  destruct src as [|x [|y src]]; destruct shape;
    first [discriminate | (injection Hrun as <-; apply length_map)
          | exact (Hzip Hrun)].
Qed.

Lemma iadd_exn (shape : axes) (target src : list F) (e : exn) :
  iadd shape target src = Raise e → e = ValueError.
Proof.
  unfold iadd.
  destruct src as [|x [|y src]]; destruct shape;
    try destruct (decide _); intros [=]; congruence.
Qed.

Section Loop.
Variables (shape : axes) (currents spike_array : list F) (a b : Z).

Lemma STA_step_length (i : nat) (sta sta' : list F) :
  STA_step shape currents spike_array a b i sta = Ok sta' →
  length sta' = length sta.
Proof.
  unfold STA_step. destruct (spike_array !! i) as [x|]; [|discriminate].
  rewrite bind_Ok_l. destruct (x =? f1); [|intros [= <-]; reflexivity].
  destruct (Z.of_nat i - a <? 0)%Z.
  - destruct (iadd _ _ _) as [view'|e] eqn:E; [|discriminate].
    rewrite bind_Ok_l. intros [= <-].
    apply iadd_length in E. rewrite length_app, E, length_drop.
    pose proof (py_slice_length_le 0 (Z.of_nat i) sta). lia.
  - apply iadd_length.
Qed.

Lemma STA_step_exn (i : nat) (sta : list F) (e : exn) :
  (i < length spike_array)%nat →
  STA_step shape currents spike_array a b i sta = Raise e → e = ValueError.
Proof.
  intros Hi. unfold STA_step.
  destruct (lookup_lt_is_Some_2 spike_array i Hi) as [x ->].
  rewrite bind_Ok_l. destruct (x =? f1); [|discriminate].
  destruct (Z.of_nat i - a <? 0)%Z.
  - destruct (iadd _ _ _) as [view'|e'] eqn:E; [discriminate|].
    intros [= <-]. exact (iadd_exn _ _ _ _ E).
  - apply iadd_exn.
Qed.

(** The loop returns an array of the length it started with, or raises
    ValueError. *)
Lemma STA_loop_cases (k : nat) (sta : list F) :
  (k ≤ length spike_array)%nat →
  (∃ sta', for_range 0 k (STA_step shape currents spike_array a b) sta = Ok sta'
           ∧ length sta' = length sta)
  ∨ for_range 0 k (STA_step shape currents spike_array a b) sta
    = Raise ValueError.
Proof.
  induction k as [|k IH]; intros Hk.
  - left. exists sta. rewrite for_range_nil. split; reflexivity.
  - rewrite for_range_snoc by lia.
    destruct IH as [(sta1 & -> & Hlen)| ->]; [lia| |right; reflexivity].
    rewrite bind_Ok_l.
    destruct (STA_step shape currents spike_array a b k sta1) as [sta2|e] eqn:E.
    + left. exists sta2. split; [reflexivity|].
      rewrite (STA_step_length _ _ _ E). exact Hlen.
    + right. rewrite (STA_step_exn k sta1 e) by (try exact E; lia).
      reflexivity.
Qed.

(** A step that raises on every array of the right length makes the
    whole loop raise ValueError. *)
Lemma STA_loop_raises (i : nat) (sta : list F) :
  (i < length spike_array)%nat →
  (∀ sta', length sta' = length sta →
     STA_step shape currents spike_array a b i sta' = Raise ValueError) →
  for_range 0 (length spike_array) (STA_step shape currents spike_array a b) sta
  = Raise ValueError.
Proof.
  intros Hi Hbad.
  rewrite (for_range_split 0 i (length spike_array)) by lia.
  destruct (STA_loop_cases i sta) as [(sta1 & -> & Hlen)| ->];
    [lia| |reflexivity].
  rewrite bind_Ok_l. apply for_range_first_Raise; [lia|].
  apply Hbad. exact Hlen.
Qed.

End Loop.

Lemma spike_steps_S (spike_array : list F) (k : nat) :
  spike_steps spike_array (S k) =
  spike_steps spike_array k ++
    match spike_array !! k with
    | Some x => if x =? f1 then [k] else []
    | None => []
    end.
Proof.
  unfold spike_steps. rewrite seq_S, List.filter_app. simpl.
  destruct (spike_array !! k) as [x|]; [|reflexivity].
  destruct (x =? f1); reflexivity.
Qed.

Lemma STA_bin_snoc (currents : list F) (a : Z) (steps : list nat) (i j : nat) :
  STA_bin currents a (steps ++ [i]) j =
  match STA_term currents a i j with
  | Some c => STA_bin currents a steps j + c
  | None => STA_bin currents a steps j
  end.
Proof. unfold STA_bin. rewrite fold_left_app. reflexivity. Qed.

(** The loop over a column of currents, while every spike is early
    ([i < t_minus]) or has its whole window inside the recording. *)
Lemma STA_loop_column (currents spike_array : list F) (a b : Z) (k : nat) :
  (0 ≤ a)%Z → (0 ≤ b)%Z → (length spike_array ≤ length currents)%nat →
  (k ≤ length spike_array)%nat →
  (∀ i, i ∈ spike_steps spike_array k →
        (Z.of_nat i < a)%Z ∨ (Z.of_nat i + b ≤ Z.of_nat (length currents))%Z) →
  ∃ sta,
    for_range 0 k (STA_step Column currents spike_array a b)
      (replicate (Z.to_nat (a + b)) f0) = Ok sta
    ∧ length sta = Z.to_nat (a + b)
    ∧ ∀ j, (j < Z.to_nat (a + b))%nat →
        sta !! j = Some (STA_bin currents a (spike_steps spike_array k) j).
Proof.
  intros Ha Hb Hn. induction k as [|k IH]; intros Hk Hgood.
  - exists (replicate (Z.to_nat (a + b)) f0). rewrite for_range_nil.
    split; [reflexivity|]. split; [apply length_replicate|].
    intros j Hj. apply lookup_replicate_2. exact Hj.
  - destruct IH as (sta & Hrun & Hlen & Hbins); [lia| |].
    { intros i Hi. apply Hgood. rewrite spike_steps_S.
      apply elem_of_app. left. exact Hi. }
    rewrite for_range_snoc, Hrun, bind_Ok_l by lia.
    rewrite spike_steps_S in Hgood |- *.
    destruct (lookup_lt_is_Some_2 spike_array k) as [x Hx]; [lia|].
    rewrite Hx in Hgood |- *.
    unfold STA_step. rewrite Hx, bind_Ok_l.
    destruct (x =? f1) eqn:Ex.
    2:{ exists sta. rewrite app_nil_r. repeat split; assumption. }
    destruct (Hgood k) as [Hearly|Hin];
      [apply elem_of_app; right; left| |].
    + (* an early spike *)
      destruct (Z.of_nat k - a <? 0)%Z eqn:E; [|lia].
      change 0%Z with (Z.of_nat 0).
      rewrite !py_slice_inside by lia.
      rewrite Nat.sub_0_r, !drop_0.
      rewrite iadd_same_length by (rewrite !length_take; lia).
      rewrite bind_Ok_l, length_take, Nat.min_l by lia.
      eexists. split; [reflexivity|].
      split.
      { rewrite length_app, length_zip_with, !length_take, length_drop. lia. }
      intros j Hj. rewrite STA_bin_snoc. unfold STA_term.
      destruct (Z.of_nat k <? a)%Z eqn:E'; [|lia].
      destruct (j <? k)%nat eqn:Ej.
      * apply Nat.ltb_lt in Ej.
        destruct (lookup_lt_is_Some_2 currents j) as [c Hc]; [lia|].
        rewrite Hc, lookup_app_l
          by (rewrite length_zip_with, !length_take; lia).
        rewrite lookup_zip_with, !lookup_take_lt by lia.
        rewrite (Hbins j Hj), Hc. reflexivity.
      * apply Nat.ltb_ge in Ej.
        rewrite lookup_app_r
          by (rewrite length_zip_with, !length_take; lia).
        rewrite length_zip_with, !length_take, lookup_drop.
        replace (k + (j - (k `min` length sta) `min` (k `min` length currents)))%nat
          with j by lia.
        apply Hbins. exact Hj.
    + (* a spike with its window inside *)
      destruct (Z.of_nat k <? a)%Z eqn:E'.
      * (* early as well *)
        destruct (Z.of_nat k - a <? 0)%Z eqn:E; [|lia].
        change 0%Z with (Z.of_nat 0).
        rewrite !py_slice_inside by lia.
        rewrite Nat.sub_0_r, !drop_0.
        rewrite iadd_same_length by (rewrite !length_take; lia).
        rewrite bind_Ok_l, length_take, Nat.min_l by lia.
        eexists. split; [reflexivity|].
        split.
        { rewrite length_app, length_zip_with, !length_take, length_drop. lia. }
        intros j Hj. rewrite STA_bin_snoc. unfold STA_term. rewrite E'.
        destruct (j <? k)%nat eqn:Ej.
        -- apply Nat.ltb_lt in Ej.
           destruct (lookup_lt_is_Some_2 currents j) as [c Hc]; [lia|].
           rewrite Hc, lookup_app_l
             by (rewrite length_zip_with, !length_take; lia).
           rewrite lookup_zip_with, !lookup_take_lt by lia.
           rewrite (Hbins j Hj), Hc. reflexivity.
        -- apply Nat.ltb_ge in Ej.
           rewrite lookup_app_r
             by (rewrite length_zip_with, !length_take; lia).
           rewrite length_zip_with, !length_take, lookup_drop.
           replace (k + (j - (k `min` length sta) `min` (k `min` length currents)))%nat
             with j by lia.
           apply Hbins. exact Hj.
      * destruct (Z.of_nat k - a <? 0)%Z eqn:E; [lia|].
        replace (Z.of_nat k - a)%Z with (Z.of_nat (Z.to_nat (Z.of_nat k - a)))
          by lia.
        replace (Z.of_nat k + b)%Z with (Z.of_nat (Z.to_nat (Z.of_nat k + b)))
          by lia.
        rewrite py_slice_inside by lia.
        rewrite iadd_same_length by (rewrite length_take, length_drop; lia).
        eexists. split; [reflexivity|].
        split; [rewrite length_zip_with, length_take, length_drop; lia|].
        intros j Hj. rewrite STA_bin_snoc. unfold STA_term.
        rewrite E'.
        destruct (lookup_lt_is_Some_2 currents (Z.to_nat (Z.of_nat k - a) + j))
          as [c Hc]; [lia|].
        rewrite Hc, lookup_zip_with, (Hbins j Hj). simpl.
        rewrite lookup_take_lt, lookup_drop, Hc by lia. reflexivity.
Qed.

(** X16. [STA] on a column of currents, with window bounds
    t_minus = int(t_minus/dt) >= 0 and t_plus = int(t_plus/dt) >= 0,
    while every spike is early or has its whole window inside the
    recording: the result has t_minus + t_plus bins, and bin j is the
    sum over the spikes, in order, of what each adds to it, divided by
    np.sum(spike_array).  A spike at i >= t_minus adds
    currents[i - t_minus + j]; a spike at i < t_minus adds currents[j]
    to the bins j < i and nothing to the others. *)
Theorem STA_column (currents spike_array : list F) (dt t_minus t_plus : F)
    (q q' : F) (a b : Z) :
  py_div t_minus dt = Ok q → py_int q = Ok a →
  py_div t_plus dt = Ok q' → py_int q' = Ok b →
  (0 ≤ a)%Z → (0 ≤ b)%Z → (length spike_array ≤ length currents)%nat →
  (∀ i, i ∈ spike_steps spike_array (length spike_array) →
        (Z.of_nat i < a)%Z ∨ (Z.of_nat i + b ≤ Z.of_nat (length currents))%Z) →
  ∃ out,
    STA Column currents spike_array dt t_minus t_plus = Ok out
    ∧ length out = Z.to_nat (a + b)
    ∧ ∀ j, (j < Z.to_nat (a + b))%nat →
        out !! j =
          Some (STA_bin currents a
                  (spike_steps spike_array (length spike_array)) j
                / np_sum spike_array).
Proof.
  intros Hq Ha' Hq' Hb' Ha Hb Hn Hgood.
  destruct (STA_loop_column currents spike_array a b (length spike_array)
              Ha Hb Hn (le_n _) Hgood) as (sta & Hrun & Hlen & Hbins).
  eexists. split; [|split].
  - unfold STA. rewrite Hq, bind_Ok_l, Ha', bind_Ok_l, Hq', bind_Ok_l, Hb',
      bind_Ok_l.
    unfold np_zeros_column. destruct (a + b <? 0)%Z eqn:E; [lia|].
    rewrite bind_Ok_l, Hrun, bind_Ok_l. reflexivity.
  - rewrite length_map. exact Hlen.
  - intros j Hj. rewrite list_lookup_fmap, (Hbins j Hj). reflexivity.
Qed.

Lemma STA_run_raises (shape : axes) (currents spike_array : list F)
    (dt t_minus t_plus q q' : F) (a b : Z) (i : nat) :
  py_div t_minus dt = Ok q → py_int q = Ok a →
  py_div t_plus dt = Ok q' → py_int q' = Ok b →
  (0 ≤ a + b)%Z → (i < length spike_array)%nat →
  (∀ sta, length sta = Z.to_nat (a + b) →
     STA_step shape currents spike_array a b i sta = Raise ValueError) →
  STA shape currents spike_array dt t_minus t_plus = Raise ValueError.
Proof.
  intros Hq Ha' Hq' Hb' Hab Hi Hbad.
  unfold STA. rewrite Hq, bind_Ok_l, Ha', bind_Ok_l, Hq', bind_Ok_l, Hb',
    bind_Ok_l.
  unfold np_zeros_column. destruct (a + b <? 0)%Z eqn:E; [lia|].
  rewrite bind_Ok_l, (STA_loop_raises shape currents spike_array a b i);
    [reflexivity|exact Hi|].
  intros sta Hlen. apply Hbad. rewrite Hlen. apply length_replicate.
Qed.

(** X17. On a column of currents, a spike whose window runs past the end of
    the recording makes [STA] raise ValueError, unless exactly one
    sample of the window is left. *)
Theorem STA_column_late_spike (currents spike_array : list F)
    (dt t_minus t_plus q q' : F) (a b : Z) (i : nat) (x : F) :
  py_div t_minus dt = Ok q → py_int q = Ok a →
  py_div t_plus dt = Ok q' → py_int q' = Ok b →
  (0 ≤ a)%Z → (0 ≤ b)%Z → (1 ≤ a + b)%Z →
  spike_array !! i = Some x → (x =? f1) = true →
  (a ≤ Z.of_nat i)%Z → (Z.of_nat (length currents) < Z.of_nat i + b)%Z →
  (Z.of_nat (length currents) - (Z.of_nat i - a) ≠ 1)%Z →
  STA Column currents spike_array dt t_minus t_plus = Raise ValueError.
Proof.
  intros Hq Ha' Hq' Hb' Ha Hb Hab Hx Hspike Hlate Hend Hone.
  apply (STA_run_raises Column currents spike_array dt t_minus t_plus q q' a b i);
    try assumption; [lia|apply lookup_lt_Some in Hx; exact Hx|].
  intros sta Hlen. unfold STA_step. rewrite Hx, bind_Ok_l, Hspike.
  destruct (Z.of_nat i - a <? 0)%Z eqn:E; [lia|].
  replace (Z.of_nat i - a)%Z with (Z.of_nat (Z.to_nat (Z.of_nat i - a))) by lia.
  replace (Z.of_nat i + b)%Z with (Z.of_nat (Z.to_nat (Z.of_nat i + b))) by lia.
  apply iadd_mismatch; rewrite py_slice_late by lia; [lia|].
  intros _. rewrite Hlen. lia.
Qed.

(** X18. On one-dimensional currents, a spike whose window lies inside the
    recording and holds two samples or more makes [STA] raise
    ValueError: the (n,) window cannot be added into the (n, 1)
    accumulator. *)
Theorem STA_flat_raises (currents spike_array : list F)
    (dt t_minus t_plus q q' : F) (a b : Z) (i : nat) (x : F) :
  py_div t_minus dt = Ok q → py_int q = Ok a →
  py_div t_plus dt = Ok q' → py_int q' = Ok b →
  (0 ≤ a)%Z → (0 ≤ b)%Z → (2 ≤ a + b)%Z →
  spike_array !! i = Some x → (x =? f1) = true →
  (a ≤ Z.of_nat i)%Z → (Z.of_nat i + b ≤ Z.of_nat (length currents))%Z →
  STA Flat currents spike_array dt t_minus t_plus = Raise ValueError.
Proof.
  intros Hq Ha' Hq' Hb' Ha Hb Hab Hx Hspike Hin Hend.
  apply (STA_run_raises Flat currents spike_array dt t_minus t_plus q q' a b i);
    try assumption; [lia|apply lookup_lt_Some in Hx; exact Hx|].
  intros sta Hlen. unfold STA_step. rewrite Hx, bind_Ok_l, Hspike.
  destruct (Z.of_nat i - a <? 0)%Z eqn:E; [lia|].
  replace (Z.of_nat i - a)%Z with (Z.of_nat (Z.to_nat (Z.of_nat i - a))) by lia.
  replace (Z.of_nat i + b)%Z with (Z.of_nat (Z.to_nat (Z.of_nat i + b))) by lia.
  rewrite py_slice_inside by lia.
  apply iadd_mismatch; [|discriminate].
  rewrite length_take, length_drop. lia.
Qed.

End STAFacts.

(** ** The derived parameters over the reals *)

Section DerivedParameters.
Import Exact.
Local Open Scope R_scope.

(** X7. Over the reals, the constructor of the parameters returns exactly
    when R_m is not 0; then tau_m = R_m * C_m, and I_th is the current
    at which a LIF model sitting at the threshold has dV/dt = 0 (when
    C_m is not 0, for any model on these parameters). *)
Theorem threshold_current_steady (c_m e_l e_k r_m v_th v_reset : R)
    (o1 o2 o3 o4 o5 o6 o7 o8 o9 o10 o11 o12 : option R) :
  let r := NeuronParameters_init c_m e_l e_k r_m v_th v_reset
             o1 o2 o3 o4 o5 o6 o7 o8 o9 o10 o11 o12 in
  (is_Ok r ↔ r_m ≠ 0)
  ∧ ∀ p, r = Ok p →
      tau_m p = r_m * c_m
      ∧ E_L p + I_th p * R_m p = V_th p
      ∧ ∀ self : LIFModel R, neuron_parameters self = p → c_m ≠ 0 →
          LIFModel_dvdt self (V_th p) (I_th p) = 0.
Proof.
  cbv zeta. unfold NeuronParameters_init, py_div. simpl feqb. unfold eqb.
  destruct (Req_dec_T r_m 0) as [E|E].
  - split; [split; [intros [p Hp]; discriminate|contradiction]|].
    intros p Hp. discriminate.
  - rewrite bind_Ok_l. simpl fdiv.
    destruct (Req_dec_T (1 / r_m) 0) as [E'|E'].
    { exfalso. unfold Rdiv in E'.
      apply (f_equal (λ x, x * r_m)) in E'.
      rewrite Rmult_assoc, Rinv_l, Rmult_0_l in E' by exact E. lra. }
    rewrite bind_Ok_l.
    split; [split; [intros _; exact E|intros _; eexists; reflexivity]|].
    intros p [= <-]. simpl.
    split; [field; exact E|]. split; [field; exact E|].
    intros self Hp Hc. unfold LIFModel_dvdt. rewrite Hp. simpl.
    field. split; assumption.
Qed.

End DerivedParameters.

(** ** Runs of the properties above on binary64 *)

Section More_checks.
Import Binary64 Demo.
Local Open Scope float_scope.

(** The constructor builds [aelif_on unit_aelif_params] in
    [aelif_store]. *)
Example aelif_constructed :
  AELIFModel_init neg_infinity unit_aelif_params 1%positive 2%positive 0 None
    (λ _, 1) (store_of [0; 1; 2; 3] [2; 2; 2; 2])
  = Ok (aelif_on unit_aelif_params, aelif_store).
Proof. vm_compute. reflexivity. Qed.

Lemma short_layout :
  LIF_layout unit_lif short_store [0; 1; 2] [2] [0; 0; 0] [0; 0; 0].
Proof.
  constructor; try reflexivity; try discriminate.
  exists 4%positive. repeat split; try reflexivity; discriminate.
Defined.

Lemma aelif_on_ok (p : NeuronParameters float) :
  AELIF_state_ok (aelif_on p) aelif_store
    [0; 1; 2; 3] [2; 2; 2; 2] [0; 0; 0; 0] [0; 0; 0; 0] [0; 0; 0; 0].
Proof.
  constructor; try reflexivity; try discriminate.
  intros l [-> | ->]; repeat split; discriminate.
Defined.

Lemma init_grid_length_witness :
  store_of [0] [2] !! 1%positive = Some [0]
  ∧ (length [0] < 2)%nat
  ∧ LIFModel_init unit_params 1%positive 2%positive 0 (λ _, 1)
      (store_of [0] [2]) = Raise IndexError.
Proof.
  split; [reflexivity|]. split; [simpl; lia|].
  destruct (init_grid_length neg_infinity unit_params 1%positive 2%positive 0
              None (λ _, 1) (store_of [0] [2]) [0] eq_refl) as [Hshort _].
  destruct Hshort as (_ & E & _); [simpl; lia|]. exact E.
Defined.

Lemma LIFModel_simulate_current_length_witness :
  LIF_layout unit_lif short_store [0; 1; 2] [2] [0; 0; 0] [0; 0; 0]
  ∧ (1 ≤ length [0; 1; 2])%nat
  ∧ (length [2] < length [0; 1; 2] - 1)%nat
  ∧ LIFModel_simulate unit_lif {| heap := short_store; stdout := [] |}
    = Raise IndexError.
Proof.
  split; [exact short_layout|]. split; [simpl; lia|]. split; [simpl; lia|].
  destruct (LIFModel_simulate_current_length unit_lif
              {| heap := short_store; stdout := [] |}
              [0; 1; 2] [2] [0; 0; 0] [0; 0; 0] short_layout) as [_ Hshort];
    [simpl; lia|].
  apply Hshort. simpl; lia.
Defined.

Lemma LIFModel_simulate_below_threshold_witness :
  LIF_state_ok unit_lif (heap unit_world)
    [0; 1; 2] [2; 2; 2] [0; 0; 0] [0; 0; 0]
  ∧ (1 ≤ length [0; 1; 2])%nat
  ∧ ∃ self' w' vs',
      LIFModel_simulate unit_lif unit_world = Ok (self', w')
      ∧ heap w' !! V unit_lif = Some vs'.
Proof.
  split; [exact unit_lif_ok|]. split; [simpl; lia|].
  destruct (LIFModel_simulate_below_threshold unit_lif unit_world
              [0; 1; 2] [2; 2; 2] [0; 0; 0] [0; 0; 0] unit_lif_ok)
    as (self' & w' & vs' & Hrun & Hv & _); [simpl; lia|].
  exists self', w', vs'. split; assumption.
Defined.

Lemma LIFModel_simulate_twice_witness :
  LIF_state_ok unit_lif (heap unit_world)
    [0; 1; 2] [2; 2; 2] [0; 0; 0] [0; 0; 0]
  ∧ (1 ≤ length [0; 1; 2])%nat
  ∧ ∃ self1 w1 self2 w2,
      LIFModel_simulate unit_lif unit_world = Ok (self1, w1)
      ∧ LIFModel_simulate self1 w1 = Ok (self2, w2)
      ∧ heap w2 = heap w1.
Proof.
  split; [exact unit_lif_ok|]. split; [simpl; lia|].
  destruct (LIFModel_simulate_twice unit_lif unit_world
              [0; 1; 2] [2; 2; 2] [0; 0; 0] [0; 0; 0] unit_lif_ok)
    as (self1 & w1 & self2 & w2 & out & Hrun1 & Hrun2 & Hheap & _);
    [simpl; lia|].
  exists self1, w1, self2, w2. repeat split; assumption.
Defined.

Lemma fire_rate_after_simulate_witness :
  LIF_state_ok unit_lif (heap unit_world)
    [0; 1; 2] [2; 2; 2] [0; 0; 0] [0; 0; 0]
  ∧ [0; 1; 2] !! 0%nat = Some 0
  ∧ last [0; 1; 2] = Some 2
  ∧ ∃ self' w',
      LIFModel_simulate unit_lif unit_world = Ok (self', w')
      ∧ fire_rate self' (heap w') =
          Ok (of_count (Z.to_nat (num_fire self')) / (2 - 0)).
Proof.
  split; [exact unit_lif_ok|]. split; [reflexivity|]. split; [reflexivity|].
  exact (fire_rate_after_simulate unit_lif unit_world
           [0; 1; 2] [2; 2; 2] [0; 0; 0] [0; 0; 0] 0 2 unit_lif_ok
           eq_refl eq_refl).
Defined.

Lemma AELIFModel_simulate_bookkeeping_witness :
  AELIF_state_ok (aelif_on unit_aelif_params) (heap aelif_world)
    [0; 1; 2; 3] [2; 2; 2; 2] [0; 0; 0; 0] [0; 0; 0; 0] [0; 0; 0; 0]
  ∧ AELIF_params unit_aelif_params 1 0 0.5 1 2
  ∧ (1 ≤ length [0; 1; 2; 3])%nat
  ∧ ∃ self' h',
      AELIFModel_simulate series_exp (aelif_on unit_aelif_params) aelif_world
      = Ok (self', {| heap := h'; stdout := [] |}).
Proof.
  split; [exact (aelif_on_ok unit_aelif_params)|].
  split; [exact unit_aelif_params_ok|]. split; [simpl; lia|].
  destruct (AELIFModel_simulate_bookkeeping series_exp
              (aelif_on unit_aelif_params) aelif_world
              [0; 1; 2; 3] [2; 2; 2; 2] [0; 0; 0; 0] [0; 0; 0; 0] [0; 0; 0; 0]
              1 0 0.5 1 2 (aelif_on_ok unit_aelif_params) unit_aelif_params_ok)
    as (self' & h' & vs' & ss' & Hrun & _); [simpl; lia|].
  exists self', h'. exact Hrun.
Defined.

Lemma AELIFModel_simulate_below_V_max_witness :
  AELIF_state_ok (aelif_on unit_aelif_params) (heap aelif_world)
    [0; 1; 2; 3] [2; 2; 2; 2] [0; 0; 0; 0] [0; 0; 0; 0] [0; 0; 0; 0]
  ∧ AELIF_params unit_aelif_params 1 0 0.5 1 2
  ∧ (1 ≤ length [0; 1; 2; 3])%nat
  ∧ ∃ self' w' vs',
      AELIFModel_simulate series_exp (aelif_on unit_aelif_params) aelif_world
      = Ok (self', w')
      ∧ heap w' !! V (aelif_on unit_aelif_params) = Some vs'.
Proof.
  split; [exact (aelif_on_ok unit_aelif_params)|].
  split; [exact unit_aelif_params_ok|]. split; [simpl; lia|].
  destruct (AELIFModel_simulate_below_V_max series_exp
              (aelif_on unit_aelif_params) aelif_world
              [0; 1; 2; 3] [2; 2; 2; 2] [0; 0; 0; 0] [0; 0; 0; 0] [0; 0; 0; 0]
              1 0 0.5 1 2 (aelif_on_ok unit_aelif_params) unit_aelif_params_ok)
    as (self' & w' & vs' & Hrun & Hv & _); [simpl; lia|].
  exists self', w', vs'. split; assumption.
Defined.

Lemma AELIFModel_simulate_missing_parameter_witness :
  AELIF_state_ok (aelif_on unit_params) (heap aelif_world)
    [0; 1; 2; 3] [2; 2; 2; 2] [0; 0; 0; 0] [0; 0; 0; 0] [0; 0; 0; 0]
  ∧ (2 ≤ length [0; 1; 2; 3])%nat
  ∧ Delta_th unit_params = None
  ∧ AELIFModel_simulate series_exp (aelif_on unit_params) aelif_world
    = Raise TypeError.
Proof.
  split; [exact (aelif_on_ok unit_params)|]. split; [simpl; lia|].
  split; [reflexivity|].
  apply (AELIFModel_simulate_missing_parameter series_exp
           (aelif_on unit_params) aelif_world
           [0; 1; 2; 3] [2; 2; 2; 2] [0; 0; 0; 0] [0; 0; 0; 0] [0; 0; 0; 0]
           (aelif_on_ok unit_params)).
  - simpl; lia.
  - left. reflexivity.
Defined.

Lemma AELIFModel_first_interval_infinite_witness :
  AELIF_state_ok (aelif_on unit_aelif_params) (heap aelif_world)
    [0; 1; 2; 3] [2; 2; 2; 2] [0; 0; 0; 0] [0; 0; 0; 0] [0; 0; 0; 0]
  ∧ last_spike_time (aelif_on unit_aelif_params) = neg_infinity
  ∧ isi_array (aelif_on unit_aelif_params) = []
  ∧ Forall (λ t, finite t = true) [0; 1; 2; 3]
  ∧ ∃ self' w',
      AELIFModel_simulate series_exp (aelif_on unit_aelif_params) aelif_world
      = Ok (self', w')
      ∧ (isi_array self' = [] ∨ ∃ rest, isi_array self' = infinity :: rest).
Proof.
  assert (Forall (λ t, finite t = true) [0; 1; 2; 3]) as Hfin
    by (repeat constructor).
  split; [exact (aelif_on_ok unit_aelif_params)|].
  split; [reflexivity|]. split; [reflexivity|]. split; [exact Hfin|].
  apply (AELIFModel_first_interval_infinite series_exp
           (aelif_on unit_aelif_params) aelif_world
           [0; 1; 2; 3] [2; 2; 2; 2] [0; 0; 0; 0] [0; 0; 0; 0] [0; 0; 0; 0]
           1 0 0.5 1 2 (aelif_on_ok unit_aelif_params) unit_aelif_params_ok).
  - simpl; lia.
  - reflexivity.
  - reflexivity.
  - intros i t Ht. exact (proj1 (Forall_lookup _ _) Hfin i t Ht).
Defined.

Lemma expand_bins_errors_witness :
  py_div 2 1 = Ok 2 ∧ py_int 2 = Ok 2%Z
  ∧ (Z.of_nat (length [1; 2; 3]) mod 2 ≠ 0)%Z
  ∧ expand_bins [1; 2; 3] 2 1 = Raise ValueError.
Proof.
  assert (Z.of_nat (length [1; 2; 3]) mod 2 ≠ 0)%Z as Hmod
    by (vm_compute; discriminate).
  split; [vm_compute; reflexivity|]. split; [vm_compute; reflexivity|].
  split; [exact Hmod|].
  destruct (expand_bins_errors [1; 2; 3] 2 1 2 2%Z) as (_ & _ & Hbad);
    [vm_compute; reflexivity|vm_compute; reflexivity|].
  apply Hbad; [discriminate|right; exact Hmod].
Defined.

Lemma find_fano_factor_errors_witness :
  py_div (-2) 1 = Ok (-2) ∧ py_int (-2) = Ok (-2)%Z
  ∧ (Z.of_nat (length [1; 0; 1; 1]) mod (-2) = 0)%Z
  ∧ find_fano_factor (-2) [1; 0; 1; 1] 1 = Raise ValueError.
Proof.
  split; [vm_compute; reflexivity|]. split; [vm_compute; reflexivity|].
  split; [reflexivity|].
  destruct (find_fano_factor_errors (-2) 1 (-2) [1; 0; 1; 1] (-2)%Z)
    as (_ & Hneg); [vm_compute; reflexivity|vm_compute; reflexivity|].
  destruct Hneg as (_ & Hdiv); [lia|]. apply Hdiv. reflexivity.
Defined.

End More_checks.

(** ** Runs of the properties above on the reals *)

Section More_checks_exact.
Import Exact DemoExact.
Local Open Scope R_scope.

Lemma to_int_two : to_int (2 / 1) = Ok 2%Z.
Proof.
  unfold to_int. destruct (Rle_dec 0 (2 / 1)) as [_|Hn];
    [|exfalso; apply Hn; lra].
  f_equal. unfold Int_part.
  rewrite <- (up_tech (2 / 1) 2); change (IZR (2 + 1)) with 3;
    [reflexivity|lra..].
Qed.

Lemma py_div_two : py_div 2 1 = Ok (2 / 1).
Proof.
  unfold py_div. simpl. unfold eqb.
  destruct (Req_dec_T 1 0); [lra|reflexivity].
Qed.

Lemma LIFModel_suprathreshold_fires_witness :
  R_m exact_params ≠ 0 ∧ C_m exact_params ≠ 0
  ∧ (1 - (1 - 0) / (R_m exact_params * C_m exact_params))
      ^ (length [0; 1; 2] - 1) * (2 * R_m exact_params)
    < 2 * R_m exact_params - (V_th exact_params - E_L exact_params)
  ∧ ∃ self h0 self' w',
      LIFModel_init exact_params 1%positive 2%positive 0 (λ _, 1) strong_store
        = Ok (self, h0)
      ∧ LIFModel_simulate self {| heap := h0; stdout := [] |} = Ok (self', w')
      ∧ (1 <= num_fire self')%Z.
Proof.
  assert (R_m exact_params ≠ 0) as HR by (simpl; lra).
  assert (C_m exact_params ≠ 0) as HC by (simpl; lra).
  assert ((1 - (1 - 0) / (R_m exact_params * C_m exact_params))
            ^ (length [0; 1; 2] - 1) * (2 * R_m exact_params)
          < 2 * R_m exact_params - (V_th exact_params - E_L exact_params))
    as Hlong by (simpl; lra).
  split; [exact HR|]. split; [exact HC|]. split; [exact Hlong|].
  apply (LIFModel_suprathreshold_fires exact_params 1%positive 2%positive
           (λ _, 1) strong_store [] [0; 1; 2] [2; 2; 2] 0 1 2 HR HC);
    try reflexivity; try exact Hlong.
  intros [|[|[|j]]] x Hx; simpl in Hx;
    first [congruence | rewrite lookup_nil in Hx; discriminate].
Defined.

Lemma utils_narrow_bin_witness :
  Rabs 1 < Rabs 2
  ∧ expand_bins [1; 0; 1; 1] 1 2 = Raise ZeroDivisionError
  ∧ find_fano_factor 1 [1; 0; 1; 1] 2 = Raise ZeroDivisionError.
Proof.
  assert (Rabs 1 < Rabs 2) as Hlt by (rewrite !Rabs_pos_eq by lra; lra).
  split; [exact Hlt|].
  exact (utils_narrow_bin [1; 0; 1; 1] 1 2 Hlt).
Defined.

Lemma find_fano_factor_nonneg_witness :
  py_div 2 1 = Ok (2 / 1) ∧ py_int (2 / 1) = Ok 2%Z
  ∧ (Z.of_nat (length [1; 0; 1; 1]) mod 2 = 0)%Z
  ∧ 0 < np_sum [1; 0; 1; 1]
  ∧ ∃ ff, find_fano_factor 2 [1; 0; 1; 1] 1 = Ok (Some ff) ∧ 0 <= ff.
Proof.
  assert (0 < np_sum [1; 0; 1; 1]) as Hsum by (unfold np_sum; simpl; lra).
  split; [exact py_div_two|]. split; [exact to_int_two|].
  split; [reflexivity|]. split; [exact Hsum|].
  destruct (find_fano_factor_nonneg 2 1 (2 / 1) [1; 0; 1; 1] 2%Z
              py_div_two to_int_two) as (ff & Hrun & Hpos & _);
    [lia|reflexivity| |exact Hsum|].
  - intros x Hx. repeat (apply elem_of_cons in Hx as [->|Hx]); try lra.
    apply elem_of_nil in Hx. contradiction.
  - exists ff. split; assumption.
Defined.

End More_checks_exact.

(** ** Runs of [STA] on binary64 *)

Section STA_checks.
Import Binary64.
Local Open Scope float_scope.

(** A spike at step 2 of four, with one step on either side: a column
    of currents gives the window [currents[1:3]]; the same currents as
    a one-dimensional array, or a window running past the end, raise. *)
Example STA_run :
  STA Column [1; 2; 3; 4] [0; 0; 1; 0] 1 1 1 = Ok [2; 3]
  ∧ STA Flat [1; 2; 3; 4] [0; 0; 1; 0] 1 1 1 = Raise ValueError
  ∧ STA Column [1; 2; 3; 4] [0; 0; 0; 1] 1 1 2 = Raise ValueError.
Proof. repeat split; vm_compute; reflexivity. Qed.

Lemma py_div_unit : py_div 1 1 = Ok 1.
Proof. vm_compute. reflexivity. Defined.

Lemma py_int_unit : py_int 1 = Ok 1%Z.
Proof. vm_compute. reflexivity. Defined.

Lemma py_div_double : py_div 2 1 = Ok 2.
Proof. vm_compute. reflexivity. Defined.

Lemma py_int_double : py_int 2 = Ok 2%Z.
Proof. vm_compute. reflexivity. Defined.

Lemma STA_column_witness :
  py_div 1 1 = Ok 1 ∧ py_int 1 = Ok 1%Z
  ∧ (length [0; 0; 1; 0] ≤ length [1; 2; 3; 4])%nat
  ∧ ∃ out, STA Column [1; 2; 3; 4] [0; 0; 1; 0] 1 1 1 = Ok out
           ∧ length out = 2%nat.
Proof.
  split; [exact py_div_unit|]. split; [exact py_int_unit|].
  split; [simpl; lia|].
  destruct (STA_column [1; 2; 3; 4] [0; 0; 1; 0] 1 1 1 1 1 1%Z 1%Z
              py_div_unit py_int_unit py_div_unit py_int_unit)
    as (out & Hrun & Hlen & _); [lia|lia|simpl; lia| |].
  - intros i Hi. vm_compute in Hi.
    apply elem_of_cons in Hi as [->|Hi];
      [right; simpl; lia|apply elem_of_nil in Hi; contradiction].
  - exists out. split; assumption.
Defined.

Lemma STA_column_late_spike_witness :
  py_div 2 1 = Ok 2 ∧ py_int 2 = Ok 2%Z
  ∧ [0; 0; 0; 1] !! 3%nat = Some 1 ∧ (1 =? 1) = true
  ∧ (Z.of_nat (length [1; 2; 3; 4]) < Z.of_nat 3 + 2)%Z
  ∧ STA Column [1; 2; 3; 4] [0; 0; 0; 1] 1 1 2 = Raise ValueError.
Proof.
  split; [exact py_div_double|]. split; [exact py_int_double|].
  split; [reflexivity|]. split; [reflexivity|]. split; [simpl; lia|].
  apply (STA_column_late_spike [1; 2; 3; 4] [0; 0; 0; 1] 1 1 2 1 2 1%Z 2%Z
           3 1 py_div_unit py_int_unit py_div_double py_int_double);
    first [reflexivity | simpl; lia].
Defined.

Lemma STA_flat_raises_witness :
  py_div 1 1 = Ok 1 ∧ py_int 1 = Ok 1%Z
  ∧ [0; 0; 1; 0] !! 2%nat = Some 1 ∧ (1 =? 1) = true
  ∧ (Z.of_nat 2 + 1 ≤ Z.of_nat (length [1; 2; 3; 4]))%Z
  ∧ STA Flat [1; 2; 3; 4] [0; 0; 1; 0] 1 1 1 = Raise ValueError.
Proof.
  split; [exact py_div_unit|]. split; [exact py_int_unit|].
  split; [reflexivity|]. split; [reflexivity|]. split; [simpl; lia|].
  apply (STA_flat_raises [1; 2; 3; 4] [0; 0; 1; 0] 1 1 1 1 1 1%Z 1%Z
           2 1 py_div_unit py_int_unit py_div_unit py_int_unit);
    first [reflexivity | simpl; lia].
Defined.

End STA_checks.

Section Parameters_checks_exact.
Import Exact.
Local Open Scope R_scope.

Lemma threshold_current_steady_witness :
  ∃ p, NeuronParameters_init 1 0 0 1 1 0 None None None None None None
         None None None None None None = Ok p
       ∧ tau_m p = 1 * 1
       ∧ E_L p + I_th p * R_m p = V_th p.
Proof.
  destruct (threshold_current_steady 1 0 0 1 1 0 None None None None None None
              None None None None None None) as [Hok Hp].
  destruct (proj2 Hok) as [p Hrun]; [lra|].
  exists p. destruct (Hp p Hrun) as (Htau & Hth & _).
  split; [exact Hrun|]. split; assumption.
Defined.

End Parameters_checks_exact.
